(** * Geo Tile Downloader: a shallow embedding of [src/geo.js],
    [src/downloader.js], [src/config.js], [src/cli.js] and the example
    script, and the properties of the tile geometry, the path encoder, the
    fetch engine and the command line. *)

From Stdlib Require Import ZArith Ascii String List Lia Sorted.
From stdpp Require Import base numbers list strings pretty gmap.

Local Open Scope Z_scope.

(** ** JavaScript strings

    The string operations the downloader relies on:
    [String.prototype.replace] with a string pattern (first occurrence only,
    with the dollar patterns of the replacement text), [includes], [split],
    [repeat] and [Number.prototype.toString] on integers. *)

Module JsString.

Fixpoint startsWith (pat s : string) : bool :=
  match pat, s with
  | EmptyString, _ => true
  | String a pat', String b s' => if Ascii.eqb a b then startsWith pat' s' else false
  | String _ _, EmptyString => false
  end.

Fixpoint drop (n : nat) (s : string) : string :=
  match n, s with
  | O, _ => s
  | S n', String _ s' => drop n' s'
  | S _, EmptyString => EmptyString
  end.

(** [search pat s] locates the first occurrence of [pat] in [s] and returns
    the text before it and the text after it. *)
Fixpoint search (pat s : string) {struct s} : option (string * string) :=
  if startsWith pat s then Some (EmptyString, drop (String.length pat) s)
  else match s with
       | EmptyString => None
       | String c s' =>
           match search pat s' with
           | Some (a, b) => Some (String c a, b)
           | None => None
           end
       end.

Definition includes (s pat : string) : bool :=
  match search pat s with Some _ => true | None => false end.

(** The replacement text of [replace]: [$$] is a dollar sign, [$&] the
    matched text, [$`] the text before the match and [$'] the text after it.
    A string pattern has no capture groups, so [$1] and the like stay as they
    are. *)
Fixpoint getSubstitution (matched pre post repl : string) : string :=
  match repl with
  | EmptyString => EmptyString
  | String c r =>
      if Ascii.eqb c "$" then
        match r with
        | String d r' =>
            if Ascii.eqb d "$" then String "$" (getSubstitution matched pre post r')
            else if Ascii.eqb d "&" then matched +:+ getSubstitution matched pre post r'
            else if Ascii.eqb d "`" then pre +:+ getSubstitution matched pre post r'
            else if Ascii.eqb d "'" then post +:+ getSubstitution matched pre post r'
            else String c (getSubstitution matched pre post r)
        | EmptyString => String c EmptyString
        end
      else String c (getSubstitution matched pre post r)
  end.

(** [s.replace(pat, repl)] for a string [pat]: only the first occurrence is
    replaced. *)
Definition replace (s pat repl : string) : string :=
  match search pat s with
  | None => s
  | Some (pre, post) => pre +:+ getSubstitution pat pre post repl +:+ post
  end.

Fixpoint split (sep : ascii) (s : string) : list string :=
  match s with
  | EmptyString => [EmptyString]
  | String c s' =>
      if Ascii.eqb c sep then EmptyString :: split sep s'
      else match split sep s' with
           | seg :: rest => String c seg :: rest
           | [] => [String c EmptyString]
           end
  end.

Fixpoint repeat (s : string) (n : nat) : string :=
  match n with
  | O => EmptyString
  | S n' => s +:+ repeat s n'
  end.

Fixpoint joinWith (sep : string) (l : list string) : string :=
  match l with
  | [] => EmptyString
  | [s] => s
  | s :: l' => s +:+ sep +:+ joinWith sep l'
  end.

Definition isEmpty (s : string) : bool :=
  match s with EmptyString => true | String _ _ => false end.

Fixpoint lastChar (s : string) : option ascii :=
  match s with
  | EmptyString => None
  | String c EmptyString => Some c
  | String _ s' => lastChar s'
  end.

(** Number of positions of [s] at which [pat] occurs. *)
Fixpoint occurrences (pat s : string) : nat :=
  match s with
  | EmptyString => O
  | String _ s' => ((if startsWith pat s then 1 else 0) + occurrences pat s')%nat
  end.

(** Does the character occur in the string. *)
Fixpoint contains (c : ascii) (s : string) : bool :=
  match s with
  | EmptyString => false
  | String a s' => Ascii.eqb c a || contains c s'
  end.

Definition isDigit (c : ascii) : bool := contains c "0123456789".

(** [n.toString()] for an integer [n]. *)
Definition toString (n : Z) : string := pretty n.

End JsString.

(** ** Node's [path.join] (POSIX flavour)

    The arguments that are not empty are joined with a slash and the result
    is normalised: empty and [.] segments disappear and a [..] segment
    removes the segment before it. *)

Module Path.

Definition dotdot : string := "..".
Definition dot : string := ".".
Definition slash : string := "/".

(** One segment of [normalizeString]; the stack holds the segments kept so
    far, the last one first. *)
Definition normalizeStep (allowAboveRoot : bool) (stack : list string) (seg : string)
  : list string :=
  if JsString.isEmpty seg then stack
  else if String.eqb seg dot then stack
  else if String.eqb seg dotdot then
    match stack with
    | top :: rest =>
        if String.eqb top dotdot
        then (if allowAboveRoot then dotdot :: stack else stack)
        else rest
    | [] => if allowAboveRoot then [dotdot] else []
    end
  else seg :: stack.

Definition normalizeString (allowAboveRoot : bool) (p : string) : string :=
  JsString.joinWith slash
    (rev (fold_left (normalizeStep allowAboveRoot) (JsString.split "/" p) [])).

Definition normalize (p : string) : string :=
  if JsString.isEmpty p then dot
  else
    let isAbsolute := JsString.startsWith slash p in
    let trailingSeparator :=
      match JsString.lastChar p with
      | Some c => Ascii.eqb c "/"
      | None => false
      end in
    let q := normalizeString (negb isAbsolute) p in
    if JsString.isEmpty q then
      (if isAbsolute then slash else if trailingSeparator then dot +:+ slash else dot)
    else
      let q' := if trailingSeparator then q +:+ slash else q in
      if isAbsolute then slash +:+ q' else q'.

Definition join (args : list string) : string :=
  match List.filter (fun a => negb (JsString.isEmpty a)) args with
  | [] => dot
  | l => normalize (JsString.joinWith slash l)
  end.

End Path.

(** ** Configuration ([src/config.js]) *)

Record TileMap := mkTileMap {
  Name : string;
  Url : string;
  Subdomains : option string;   (* [None]: the key is absent *)
  Format : string
}.

Record Config := mkConfig {
  TileCacheFolder : string;
  TileMaps : list TileMap
}.

(** The exception of [getTileMapByName]. *)
Inductive Thrown : Type :=
| TileMapNotFound (name : string).

Definition getTileMapByName (config : Config) (name : string) : Thrown + TileMap :=
  match List.find (fun tm => String.eqb (Name tm) name) (TileMaps config) with
  | Some tileMap => inr tileMap
  | None => inl (TileMapNotFound name)
  end.

(** ** URL templating and the path encoder ([src/downloader.js]) *)

Definition placeholder_x : string := "{x}".
Definition placeholder_y : string := "{y}".
Definition placeholder_z : string := "{z}".
Definition placeholder_s : string := "{s}".

Definition placeholders : list string :=
  [placeholder_x; placeholder_y; placeholder_z; placeholder_s].

(** The shape of the four placeholders. *)
Definition placeholder (c : ascii) : string := String "{" (String c (String "}" EmptyString)).

(** Truthiness of [tileMap.Subdomains]: present and not the empty string. *)
Definition truthy (s : option string) : bool :=
  match s with
  | Some s' => negb (JsString.isEmpty s')
  | None => false
  end.

(** [rnd] stands for the draw [Math.floor(Math.random() * subdomains.length)];
    it is reduced modulo the length, as the draw is always a valid index. *)
Definition generateTileUrl (rnd : nat) (tileMap : TileMap) (x y z : Z) : string :=
  let url := Url tileMap in
  let url := JsString.replace url placeholder_x (JsString.toString x) in
  let url := JsString.replace url placeholder_y (JsString.toString y) in
  let url := JsString.replace url placeholder_z (JsString.toString z) in
  if truthy (Subdomains tileMap) && JsString.includes url placeholder_s then
    let subdomains := JsString.split "," (default EmptyString (Subdomains tileMap)) in
    let subdomain := nth (rnd mod length subdomains)%nat subdomains EmptyString in
    JsString.replace url placeholder_s subdomain
  else url.

(** The loop of [getMicrosoftVETile]: one quadrant digit per level, the
    digit of the lowest bit produced first and ending up last. *)
Fixpoint veDigits (n : nat) (xInd yInd : Z) (builder : string) : string :=
  match n with
  | O => builder
  | S n' =>
      let c := (if Z.rem xInd 2 =? 1 then 1 else 0) + (if Z.rem yInd 2 =? 1 then 2 else 0) in
      veDigits n' (xInd / 2) (yInd / 2) (JsString.toString c +:+ builder)
  end.

Definition underscore : string := "_".

Definition getMicrosoftVETile (level xIndex yIndex : Z) : string :=
  if level =? 0 then underscore
  else veDigits (Z.to_nat level) xIndex yIndex EmptyString.

(** The loop of [createTileLevelPath]: every character becomes a directory. *)
Fixpoint levelDirs (result tileLevelString : string) : string :=
  match tileLevelString with
  | EmptyString => result
  | String c rest => levelDirs (Path.join [result; String c EmptyString]) rest
  end.

Definition createTileLevelPath (level xIndex yIndex : Z) : string :=
  let tileLevelString := getMicrosoftVETile level xIndex yIndex in
  if String.eqb tileLevelString underscore then EmptyString
  else levelDirs EmptyString tileLevelString.

Definition zero : string := "0".

(** The eight-digit field of [getOutputTileName].  [8 - tmp.length] is never
    negative under the guard [i < 100000000]. *)
Definition coordField (i : Z) : string :=
  if (i <? 100000000) && (0 <=? i) then
    let tmp := JsString.toString i in
    JsString.repeat zero (8 - String.length tmp) +:+ tmp
  else if 100000000 <=? i then "99999999"
  else "00000000".

Definition levelField (level : Z) : string :=
  if (level <? 100) && (0 <=? level) then
    (if level <? 10 then zero +:+ JsString.toString level else JsString.toString level)
  else if 100 <=? level then "99"
  else "00".

Definition getOutputTileName (namePrefix : string) (level i j : Z) : string :=
  namePrefix +:+ underscore +:+ levelField level
    +:+ underscore +:+ coordField i
    +:+ underscore +:+ coordField j.

Definition generateTilePath (config : Config) (tileMapName : string) (x y z : Z)
    (format : string) : string :=
  let tileLevelPath := createTileLevelPath z x y in
  let tileFileName := getOutputTileName tileMapName z x y in
  if negb (JsString.isEmpty tileLevelPath) then
    Path.join [TileCacheFolder config; tileMapName; tileLevelPath;
               tileFileName +:+ Path.dot +:+ format]
  else
    Path.join [TileCacheFolder config; tileMapName;
               tileFileName +:+ Path.dot +:+ format].

(** ** Tile geometry ([src/geo.js]) *)

Record Tile := mkTile { tile_x : Z; tile_y : Z; tile_z : Z }.

#[global] Instance Tile_eq_dec : EqDecision Tile.
Proof. solve_decision. Defined.

(** What [geo.js] takes from outside the integers: JavaScript numbers holding
    degrees, the two projections (IEEE-754 arithmetic with [Math.log],
    [Math.tan], [Math.atan] and [Math.sinh], whose results are taken as
    given) and the turf library. *)
Class Geodesy := {
  number : Type;
  feature : Type;
  geometry : Type;
  latLonToTile : number -> number -> Z -> Z * Z;
  tileToLatLonBounds : Z -> Z -> Z -> number * number * number * number;
  turf_bbox : feature -> number * number * number * number;
  turf_feature : geometry -> feature;
  turf_polygon : list (list (number * number)) -> feature;
  turf_booleanIntersects : feature -> feature -> bool
}.

Inductive GeoJSON `{Geodesy} : Type :=
| FeatureCollection (features : list feature)
| Feature (f : feature)
| Geometry (g : geometry).

(** The two nested loops over a tile rectangle, [x] outermost. *)
Definition rectangle (topLeft bottomRight : Z * Z) : list (Z * Z) :=
  flat_map (fun x =>
      List.map (fun y => (x, y))
        (seqZ (snd topLeft) (snd bottomRight - snd topLeft + 1)))
    (seqZ (fst topLeft) (fst bottomRight - fst topLeft + 1)).

Definition zoomLevels (minZoom maxZoom : Z) : list Z :=
  seqZ minZoom (maxZoom - minZoom + 1).

Definition calculateTilesForBoundingBox `{Geodesy}
    (boundingBox : number * number * number * number) (minZoom maxZoom : Z) : list Tile :=
  let '(minLon, minLat, maxLon, maxLat) := boundingBox in
  flat_map (fun z =>
      let topLeft := latLonToTile maxLat minLon z in
      let bottomRight := latLonToTile minLat maxLon z in
      List.map (fun '(x, y) => mkTile x y z) (rectangle topLeft bottomRight))
    (zoomLevels minZoom maxZoom).

Definition tileIntersectsFeature `{Geodesy} (x y zoom : Z) (f : feature) : bool :=
  let '(west, south, east, north) := tileToLatLonBounds x y zoom in
  let tilePolygon :=
    turf_polygon [[(west, north); (east, north); (east, south); (west, south); (west, north)]] in
  turf_booleanIntersects tilePolygon f.

Definition tileKey (z x y : Z) : string :=
  JsString.toString z +:+ "/" +:+ JsString.toString x +:+ "/" +:+ JsString.toString y.

(** [Map.prototype.set]: a key that is present keeps its place. *)
Fixpoint map_set (key : string) (v : Tile) (m : list (string * Tile)) : list (string * Tile) :=
  match m with
  | [] => [(key, v)]
  | (k, w) :: m' => if String.eqb k key then (k, v) :: m' else (k, w) :: map_set key v m'
  end.

(** The accumulated state of [calculateTilesForGeoJSON].  [intersectionTests]
    records every call of [tileIntersectsFeature] as (zoom, feature index,
    x, y). *)
Record Accumulator := mkAccumulator {
  tileSet : gset string;
  tileMap : list (string * Tile);
  intersectionTests : list (Z * nat * Z * Z)
}.

Definition addTile (key : string) (t : Tile) (acc : Accumulator) : Accumulator :=
  {| tileSet := {[key]} ∪ tileSet acc;
     tileMap := map_set key t (tileMap acc);
     intersectionTests := intersectionTests acc |}.

Definition logTest (entry : Z * nat * Z * Z) (acc : Accumulator) : Accumulator :=
  {| tileSet := tileSet acc;
     tileMap := tileMap acc;
     intersectionTests := intersectionTests acc ++ [entry] |}.

(** The body of the innermost loop. *)
Definition visitTile `{Geodesy} (z : Z) (featureIndex : nat) (f : feature)
    (skipIntersectionCheck : bool) (acc : Accumulator) (xy : Z * Z) : Accumulator :=
  let '(x, y) := xy in
  let key := tileKey z x y in
  if bool_decide (key ∈ tileSet acc) then acc
  else if skipIntersectionCheck then addTile key (mkTile x y z) acc
  else
    let acc' := logTest (z, featureIndex, x, y) acc in
    if tileIntersectsFeature x y z f then addTile key (mkTile x y z) acc' else acc'.

Definition featureRange `{Geodesy} (f : feature) (z : Z) : (Z * Z) * (Z * Z) :=
  let '(b0, b1, b2, b3) := turf_bbox f in
  (latLonToTile b3 b0 z, latLonToTile b1 b2 z).

Definition potentialTileCount (range : (Z * Z) * (Z * Z)) : Z :=
  let '(topLeft, bottomRight) := range in
  (fst bottomRight - fst topLeft + 1) * (snd bottomRight - snd topLeft + 1).

Definition largeRegionThreshold : Z := 10000.

Definition processFeature `{Geodesy} (z : Z) (acc : Accumulator) (indexed : nat * feature)
  : Accumulator :=
  let '(featureIndex, f) := indexed in
  let range := featureRange f z in
  let skipIntersectionCheck := largeRegionThreshold <? potentialTileCount range in
  fold_left (visitTile z featureIndex f skipIntersectionCheck)
    (rectangle (fst range) (snd range)) acc.

Definition featuresOf `{Geodesy} (geojson : GeoJSON) : list feature :=
  match geojson with
  | FeatureCollection features => features
  | Feature f => [f]
  | Geometry g => [turf_feature g]
  end.

Definition indexed {A} (l : list A) : list (nat * A) := combine (seq 0 (length l)) l.

Definition emptyAccumulator : Accumulator :=
  {| tileSet := ∅; tileMap := []; intersectionTests := [] |}.

(** The loops of [calculateTilesForGeoJSON], with the log of intersection
    tests kept. *)
Definition scanGeoJSON `{Geodesy} (geojson : GeoJSON) (minZoom maxZoom : Z) : Accumulator :=
  fold_left (fun acc z => fold_left (processFeature z) (indexed (featuresOf geojson)) acc)
    (zoomLevels minZoom maxZoom) emptyAccumulator.

Definition calculateTilesForGeoJSON `{Geodesy} (geojson : GeoJSON) (minZoom maxZoom : Z)
  : list Tile :=
  List.map snd (tileMap (scanGeoJSON geojson minZoom maxZoom)).

(** ** The fetch engine ([src/downloader.js]) *)

Record Stats := mkStats {
  calculatedTiles : Z;
  downloadedTiles : Z;
  failedTiles : Z;
  skippedTiles : Z;
  inProgress : Z;
  totalTiles : Z
}.

Record DownloadTask := mkTask {
  tileMapName : string;
  task_x : Z;
  task_y : Z;
  task_z : Z
}.

#[global] Instance DownloadTask_eq_dec : EqDecision DownloadTask.
Proof. solve_decision. Defined.

(** A call of [downloadTile] that is past its synchronous prefix: the URL and
    the file path are computed and [inProgress] is incremented. *)
Record Job := mkJob {
  job_task : DownloadTask;
  job_url : string;
  job_path : string
}.

(** What the constructor and [setProgressCallback] fix for an operation. *)
Record Setup := mkSetup {
  config : Config;
  concurrency : nat;
  progressCallback : bool       (* is a sink registered *)
}.

(** The downloader ([stats], [failedDownloads]), its queue ([queued]: added
    and not started; [checking]: awaiting [fs.pathExists]; [fetching]:
    awaiting [fs.ensureDir], the request or [fs.writeFile]; [rejected]: tasks
    whose promise was rejected) and what it acts on ([files]: the paths that
    exist; [requests]: the URLs requested; [reported]: what the progress
    sink received). *)
Record Engine := mkEngine {
  stats : Stats;
  failedDownloads : list DownloadTask;
  queued : list DownloadTask;
  checking : list Job;
  fetching : list Job;
  rejected : list DownloadTask;
  files : gset string;
  requests : list string;
  reported : list (Stats * Z)
}.

Definition set_stats (s : Stats) (e : Engine) : Engine :=
  mkEngine s (failedDownloads e) (queued e) (checking e) (fetching e)
    (rejected e) (files e) (requests e) (reported e).
Definition set_failedDownloads (l : list DownloadTask) (e : Engine) : Engine :=
  mkEngine (stats e) l (queued e) (checking e) (fetching e)
    (rejected e) (files e) (requests e) (reported e).
Definition set_queued (l : list DownloadTask) (e : Engine) : Engine :=
  mkEngine (stats e) (failedDownloads e) l (checking e) (fetching e)
    (rejected e) (files e) (requests e) (reported e).
Definition set_checking (l : list Job) (e : Engine) : Engine :=
  mkEngine (stats e) (failedDownloads e) (queued e) l (fetching e)
    (rejected e) (files e) (requests e) (reported e).
Definition set_fetching (l : list Job) (e : Engine) : Engine :=
  mkEngine (stats e) (failedDownloads e) (queued e) (checking e) l
    (rejected e) (files e) (requests e) (reported e).
Definition set_rejected (l : list DownloadTask) (e : Engine) : Engine :=
  mkEngine (stats e) (failedDownloads e) (queued e) (checking e) (fetching e)
    l (files e) (requests e) (reported e).
Definition set_files (f : gset string) (e : Engine) : Engine :=
  mkEngine (stats e) (failedDownloads e) (queued e) (checking e) (fetching e)
    (rejected e) f (requests e) (reported e).
Definition set_requests (l : list string) (e : Engine) : Engine :=
  mkEngine (stats e) (failedDownloads e) (queued e) (checking e) (fetching e)
    (rejected e) (files e) l (reported e).
Definition set_reported (l : list (Stats * Z)) (e : Engine) : Engine :=
  mkEngine (stats e) (failedDownloads e) (queued e) (checking e) (fetching e)
    (rejected e) (files e) (requests e) l.

Definition zeroStats : Stats := mkStats 0 0 0 0 0 0.

(** A downloader fresh from its constructor, over a given cache. *)
Definition newEngine (cache : gset string) : Engine :=
  mkEngine zeroStats [] [] [] [] [] cache [] [].

Definition resetStats (e : Engine) : Engine :=
  set_failedDownloads [] (set_stats zeroStats e).

Definition getStats (e : Engine) : Stats := stats e.

(** [Math.round((completed / totalTiles) * 100)], in exact arithmetic. *)
Definition progressPercent (s : Stats) : Z :=
  let completed := downloadedTiles s + failedTiles s + skippedTiles s in
  if 0 <? totalTiles s then (200 * completed + totalTiles s) / (2 * totalTiles s) else 0.

Definition updateProgress (su : Setup) (e : Engine) : Engine :=
  if progressCallback su
  then set_reported (reported e ++ [(getStats e, progressPercent (stats e))]) e
  else e.

Definition incr_inProgress (s : Stats) : Stats :=
  mkStats (calculatedTiles s) (downloadedTiles s) (failedTiles s) (skippedTiles s)
    (inProgress s + 1) (totalTiles s).
Definition tally_skipped (s : Stats) : Stats :=
  mkStats (calculatedTiles s) (downloadedTiles s) (failedTiles s) (skippedTiles s + 1)
    (inProgress s - 1) (totalTiles s).
Definition tally_downloaded (s : Stats) : Stats :=
  mkStats (calculatedTiles s) (downloadedTiles s + 1) (failedTiles s) (skippedTiles s)
    (inProgress s - 1) (totalTiles s).
Definition tally_failed (s : Stats) : Stats :=
  mkStats (calculatedTiles s) (downloadedTiles s) (failedTiles s + 1) (skippedTiles s)
    (inProgress s - 1) (totalTiles s).
Definition set_totals (n : Z) (s : Stats) : Stats :=
  mkStats n (downloadedTiles s) (failedTiles s) (skippedTiles s) (inProgress s) n.

(** [downloadTile] up to its first [await]: the configuration lookup (which
    may throw), the URL, the path and the in-progress counter. *)
Definition downloadTile_enter (su : Setup) (rnd : nat) (t : DownloadTask) (e : Engine)
  : Thrown + (Job * Engine) :=
  match getTileMapByName (config su) (tileMapName t) with
  | inl err => inl err
  | inr tileMap =>
      let url := generateTileUrl rnd tileMap (task_x t) (task_y t) (task_z t) in
      let filePath :=
        generateTilePath (config su) (tileMapName t) (task_x t) (task_y t) (task_z t)
          (Format tileMap) in
      inr (mkJob t url filePath, set_stats (incr_inProgress (stats e)) e)
  end.

(** The branch taken when the file exists. *)
Definition tileSkipped (su : Setup) (e : Engine) : Engine :=
  updateProgress su (set_stats (tally_skipped (stats e)) e).

(** What can go wrong after the existence check. *)
Inductive Failure : Type :=
| DirectoryError      (* [fs.ensureDir] fails: no request is made *)
| NetworkError        (* the request fails, times out or is refused *)
| WriteError.         (* [fs.writeFile] fails *)

Definition tileDownloaded (su : Setup) (j : Job) (e : Engine) : Engine :=
  updateProgress su
    (set_stats (tally_downloaded (stats e))
       (set_files ({[job_path j]} ∪ files e)
          (set_requests (requests e ++ [job_url j]) e))).

(** The [catch] block. *)
Definition tileFailed (su : Setup) (cause : Failure) (j : Job) (e : Engine) : Engine :=
  let e1 :=
    match cause with
    | DirectoryError => e
    | NetworkError | WriteError => set_requests (requests e ++ [job_url j]) e
    end in
  updateProgress su
    (set_failedDownloads (failedDownloads e1 ++ [job_task j])
       (set_stats (tally_failed (stats e1)) e1)).

(** The queue starts its oldest task. *)
Definition startTask (su : Setup) (rnd : nat) (t : DownloadTask) (rest : list DownloadTask)
    (e : Engine) : Engine :=
  match downloadTile_enter su rnd t e with
  | inl _ => set_rejected (rejected e ++ [t]) (set_queued rest e)
  | inr (j, e1) => set_checking (checking e1 ++ [j]) (set_queued rest e1)
  end.

(** [fs.pathExists] answers for the [i]-th job that awaits it. *)
Definition afterCheck (su : Setup) (i : nat) (j : Job) (e : Engine) : Engine :=
  let e1 := set_checking (delete i (checking e)) e in
  if bool_decide (job_path j ∈ files e) then tileSkipped su e1
  else set_fetching (fetching e1 ++ [j]) e1.

(** The [i]-th job that is fetching completes, well ([None]) or not. *)
Definition afterFetch (su : Setup) (outcome : option Failure) (i : nat) (j : Job)
    (e : Engine) : Engine :=
  let e1 := set_fetching (delete i (fetching e)) e in
  match outcome with
  | None => tileDownloaded su j e1
  | Some cause => tileFailed su cause j e1
  end.

Definition running (e : Engine) : nat := (length (checking e) + length (fetching e))%nat.

(** The interleavings of the queue: tasks start in the order they were added
    while fewer than [concurrency] are running, and the running ones
    complete in any order.  (p-queue starts the first tasks while the others
    are still being added; the counters do not depend on which tasks wait, so
    all tasks are taken as added before the first one starts.) *)
Inductive step (su : Setup) : Engine -> Engine -> Prop :=
| step_start rnd t rest e :
    queued e = t :: rest ->
    (running e < concurrency su)%nat ->
    step su e (startTask su rnd t rest e)
| step_check i j e :
    checking e !! i = Some j ->
    step su e (afterCheck su i j e)
| step_fetch outcome i j e :
    fetching e !! i = Some j ->
    step su e (afterFetch su outcome i j e).

Definition idle (e : Engine) : Prop :=
  queued e = [] /\ checking e = [] /\ fetching e = [].

Definition enqueue (tasks : list DownloadTask) (e : Engine) : Engine :=
  set_queued (queued e ++ tasks) e.

Definition taskOf (name : string) (t : Tile) : DownloadTask :=
  mkTask name (tile_x t) (tile_y t) (tile_z t).

(** [downloadTilesForBoundingBox] and [downloadTilesForGeoJSON] up to
    [await this.queue.onIdle()], given the tiles computed. *)
Definition beginDownload (su : Setup) (name : string) (tiles : list Tile) (e : Engine)
  : Engine :=
  let e := resetStats e in
  let e := set_stats (set_totals (Z.of_nat (length tiles)) (stats e)) e in
  let e := updateProgress su e in
  enqueue (List.map (taskOf name) tiles) e.

Definition downloadTilesForBoundingBox_begin `{Geodesy} (su : Setup) (name : string)
    (boundingBox : number * number * number * number) (minZoom maxZoom : Z) (e : Engine)
  : Engine :=
  beginDownload su name (calculateTilesForBoundingBox boundingBox minZoom maxZoom) e.

Definition downloadTilesForGeoJSON_begin `{Geodesy} (su : Setup) (name : string)
    (geojson : GeoJSON) (minZoom maxZoom : Z) (e : Engine) : Engine :=
  beginDownload su name (calculateTilesForGeoJSON geojson minZoom maxZoom) e.

(** [retryFailedDownloads] up to [await this.queue.onIdle()].  The first
    component is the value returned at once, if the method returns at once. *)
Definition retryFailedDownloads_begin (su : Setup) (e : Engine) : option Stats * Engine :=
  match failedDownloads e with
  | [] => (Some (getStats e), e)
  | _ :: _ =>
      let e := resetStats e in
      let failed := failedDownloads e in
      let e := set_failedDownloads [] e in
      let e := set_stats (set_totals (Z.of_nat (length failed)) (stats e)) e in
      let e := updateProgress su e in
      (None, enqueue failed e)
  end.

(** After the queue is idle: the final progress update and the statistics
    returned. *)
Definition finishOperation (su : Setup) (e : Engine) : Stats * Engine :=
  let e := updateProgress su e in
  (getStats e, e).

(** One schedule that can be run: the tasks one after the other, [oracle]
    deciding how each fetch ends. *)
Definition runHead (su : Setup) (rnd : nat) (oracle : Job -> option Failure) (e : Engine)
  : Engine :=
  match queued e with
  | [] => e
  | t :: rest =>
      let e1 := startTask su rnd t rest e in
      match checking e1 with
      | [] => e1
      | j :: _ =>
          let e2 := afterCheck su 0 j e1 in
          match fetching e2 with
          | [] => e2
          | j' :: _ => afterFetch su (oracle j') 0 j' e2
          end
      end
  end.

Fixpoint drain (su : Setup) (rnd : nat) (oracle : Job -> option Failure) (fuel : nat)
    (e : Engine) : Engine :=
  match fuel with
  | O => e
  | S fuel' => drain su rnd oracle fuel' (runHead su rnd oracle e)
  end.

Definition runQueue (su : Setup) (rnd : nat) (oracle : Job -> option Failure) (e : Engine)
  : Engine :=
  drain su rnd oracle (length (queued e)) e.

Definition downloadTiles (su : Setup) (rnd : nat) (oracle : Job -> option Failure)
    (name : string) (tiles : list Tile) (e : Engine) : Stats * Engine :=
  finishOperation su (runQueue su rnd oracle (beginDownload su name tiles e)).

Definition retryFailedDownloads (su : Setup) (rnd : nat) (oracle : Job -> option Failure)
    (e : Engine) : Stats * Engine :=
  match retryFailedDownloads_begin su e with
  | (Some s, e') => (s, e')
  | (None, e') => finishOperation su (runQueue su rnd oracle e')
  end.

(** The sum the statistics invariant is about. *)
Definition accounted (s : Stats) : Z :=
  downloadedTiles s + skippedTiles s + failedTiles s + inProgress s.

(** The operations of the engine, and the state in which each one awaits the
    queue ([None] when it returns without awaiting). *)
Inductive Operation `{Geodesy} : Type :=
| DownloadBoundingBox (name : string) (boundingBox : number * number * number * number)
    (minZoom maxZoom : Z)
| DownloadGeoJSON (name : string) (geojson : GeoJSON) (minZoom maxZoom : Z)
| RetryFailed.

Definition beginOperation `{Geodesy} (su : Setup) (op : Operation) (e : Engine)
  : option Engine :=
  match op with
  | DownloadBoundingBox name boundingBox minZoom maxZoom =>
      Some (downloadTilesForBoundingBox_begin su name boundingBox minZoom maxZoom e)
  | DownloadGeoJSON name geojson minZoom maxZoom =>
      Some (downloadTilesForGeoJSON_begin su name geojson minZoom maxZoom e)
  | RetryFailed =>
      match retryFailedDownloads_begin su e with
      | (Some _, _) => None
      | (None, e') => Some e'
      end
  end.

Definition configured (su : Setup) (name : string) : Prop :=
  exists tileMap, getTileMapByName (config su) name = inr tileMap.

(** Tasks added to the queue and not yet started, tasks rejected since the
    operation began ([r0] were rejected before) and tiles accounted for make
    up the total; [inProgress] counts the running jobs; every snapshot the
    sink received since the operation began ([n0] were received before)
    respects the bound. *)
Definition engine_inv (r0 n0 : nat) (e : Engine) : Prop :=
  accounted (stats e) + Z.of_nat (length (queued e))
    + (Z.of_nat (length (rejected e)) - Z.of_nat r0) = totalTiles (stats e)
  /\ inProgress (stats e) = Z.of_nat (running e)
  /\ (r0 <= length (rejected e))%nat
  /\ (n0 <= length (reported e))%nat
  /\ Forall (fun sp => accounted (fst sp) <= totalTiles (fst sp)) (drop n0 (reported e)).

(** One call of [downloadTile] run to its end with nothing interleaved:
    what it throws or returns, and the state it leaves. *)
Definition downloadTile (su : Setup) (rnd : nat) (oracle : Job -> option Failure)
    (t : DownloadTask) (e : Engine) : (Thrown + bool) * Engine :=
  match downloadTile_enter su rnd t e with
  | inl err => (inl err, e)
  | inr (j, e1) =>
      if bool_decide (job_path j ∈ files e1) then (inr true, tileSkipped su e1)
      else match oracle j with
           | None => (inr true, tileDownloaded su j e1)
           | Some cause => (inr false, tileFailed su cause j e1)
           end
  end.

(** The cache path of a task, when its tile map is configured. *)
Definition tilePathOf (su : Setup) (t : DownloadTask) : option string :=
  match getTileMapByName (config su) (tileMapName t) with
  | inr tileMap =>
      Some (generateTilePath (config su) (tileMapName t) (task_x t) (task_y t) (task_z t)
              (Format tileMap))
  | inl _ => None
  end.

Definition cached (su : Setup) (cache : gset string) (t : DownloadTask) : Prop :=
  exists p, tilePathOf su t = Some p /\ p ∈ cache.

(** While every tile of an operation is cached, nothing is fetched. *)
Definition cache_inv (su : Setup) (cache : gset string) (sent : list string) (e : Engine)
  : Prop :=
  files e = cache /\ requests e = sent /\ fetching e = []
  /\ downloadedTiles (stats e) = 0 /\ failedTiles (stats e) = 0
  /\ failedDownloads e = []
  /\ Forall (fun j => job_path j ∈ cache) (checking e)
  /\ Forall (cached su cache) (queued e).

(** The tile map an operation names is configured (a retry pass names
    none of its own). *)
Definition operationConfigured `{Geodesy} (su : Setup) (op : Operation) : Prop :=
  match op with
  | DownloadBoundingBox name _ _ _ => configured su name
  | DownloadGeoJSON name _ _ _ => configured su name
  | RetryFailed => True
  end.

(** The set and the map of [calculateTilesForGeoJSON] hold the same keys,
    each once, and every tile is filed under its own key. *)
Definition acc_inv (acc : Accumulator) : Prop :=
  NoDup (List.map fst (tileMap acc))
  /\ (forall k, k ∈ tileSet acc <-> k ∈ List.map fst (tileMap acc))
  /\ Forall (fun kt => fst kt = tileKey (tile_z (snd kt)) (tile_x (snd kt)) (tile_y (snd kt)))
       (tileMap acc).

(** ** Notions used to reason about the path encoder *)

(** A segment that [path.join] keeps as it is: not empty, without a slash,
    and neither [.] nor [..]. *)
Definition clean (s : string) : bool :=
  negb (JsString.isEmpty s) && negb (JsString.contains "/" s)
  && negb (String.eqb s Path.dot) && negb (String.eqb s Path.dotdot).

(** Does the path end with a slash. *)
Definition trailing (p : string) : bool :=
  match JsString.lastChar p with Some c => Ascii.eqb c "/" | None => false end.

(** Does the first of the joined arguments start at the root. *)
Definition absolute (l : list string) : bool :=
  match l with f :: _ => JsString.startsWith Path.slash f | [] => false end.

(** The segments that normalisation keeps of the leading arguments. *)
Definition kept (l : list string) : list string :=
  rev (fold_left (Path.normalizeStep (negb (absolute l)))
         (concat (List.map (JsString.split "/") l)) []).

(** The characters of a string, each as a string. *)
Fixpoint chars (s : string) : list string :=
  match s with
  | EmptyString => []
  | String c s' => String c EmptyString :: chars s'
  end.

(** The digit [getMicrosoftVETile] computes at one level. *)
Definition quadrant (x y : Z) : Z :=
  (if Z.rem x 2 =? 1 then 1 else 0) + (if Z.rem y 2 =? 1 then 2 else 0).

(** The segments a tile adds below the tile-map directory: one directory per
    level, then the file. *)
Definition pathSegments (tileMapName : string) (x y z : Z) (format : string) : list string :=
  (if z =? 0 then [] else chars (getMicrosoftVETile z x y))
  ++ [getOutputTileName tileMapName z x y +:+ Path.dot +:+ format].

(** ** Data of the examples *)

Definition exampleConfig : Config :=
  mkConfig "tile_cache"
    [mkTileMap "OSM_Map" "https://{s}.tile.openstreetmap.org/{z}/{x}/{y}.png"
       (Some "a,b,c") "png"].

Definition exampleSetup : Setup := mkSetup exampleConfig 5 true.

(** A fetch that fails for the tile with [x = 1] and one that never fails. *)
Definition failsAtOne (j : Job) : option Failure :=
  if task_x (job_task j) =? 1 then Some NetworkError else None.

Definition alwaysOk (j : Job) : option Failure := None.

(** A flat grid in place of the Mercator projection: degrees are integers, a
    feature is its own bounding box and every tile of the box meets it. *)
Definition flatGeodesy : Geodesy :=
  {| number := Z;
     feature := Z * Z * Z * Z;
     geometry := Z * Z * Z * Z;
     latLonToTile := fun lat lon _ => (lon, - lat);
     tileToLatLonBounds := fun x y _ => (x, - y - 1, x + 1, - y);
     turf_bbox := fun f => f;
     turf_feature := fun g => g;
     turf_polygon := fun _ => (0, 0, 0, 0);
     turf_booleanIntersects := fun _ _ => true |}.

(** ** The example script and the command line

    [example.js] stores tiles in a flat layout; [src/cli.js] reads its
    options in pairs and draws a progress bar of thirty cells. *)

Module ExampleScript.

Definition generateTilePath (config : Config) (tileMapName : string) (x y z : Z)
    (format : string) : string :=
  Path.join [TileCacheFolder config; tileMapName; JsString.toString z; JsString.toString x;
             JsString.toString y +:+ Path.dot +:+ format].

End ExampleScript.

Module Cli.

(** The object [parseArgs] returns; a key given without a value holds
    [undefined], here [None]. *)
Record ParsedArgs := mkParsedArgs {
  command : option string;
  options : gmap string (option string)
}.

(** [options[key] = value] on an object literal: the key [__proto__] is
    the accessor of [Object.prototype], which ignores a value that is a
    string or [undefined] and adds no property. *)
Definition setOption (key : string) (value : option string)
    (opts : gmap string (option string)) : gmap string (option string) :=
  if String.eqb key "__proto__" then opts else <[key := value]> opts.

(** The loop [for (let i = 1; i < args.length; i += 2)]. *)
Fixpoint parseOptions (rest : list string) (opts : gmap string (option string))
  : gmap string (option string) :=
  match rest with
  | [] => opts
  | [a] => if JsString.startsWith "--" a then setOption (JsString.drop 2 a) None opts else opts
  | a :: v :: rest' =>
      parseOptions rest'
        (if JsString.startsWith "--" a then setOption (JsString.drop 2 a) (Some v) opts
         else opts)
  end.

(** [argv] is [process.argv]; its first two entries are dropped. *)
Definition parseArgs (argv : list string) : ParsedArgs :=
  let args := drop 2 argv in
  {| command := head args; options := parseOptions (tail args) ∅ |}.





End Cli.

(** ** Notions used to state further properties *)

(** A tile that some feature covers at its zoom: it lies in the candidate
    rectangle of the feature, which is over the threshold or which the
    tile intersects. *)
Definition covered `{Geodesy} (features : list feature) (minZoom maxZoom : Z) (t : Tile)
  : Prop :=
  minZoom <= tile_z t <= maxZoom
  /\ exists i f,
       features !! i = Some f
       /\ (tile_x t, tile_y t)
          ∈ rectangle (fst (featureRange f (tile_z t))) (snd (featureRange f (tile_z t)))
       /\ (largeRegionThreshold < potentialTileCount (featureRange f (tile_z t))
           \/ tileIntersectsFeature (tile_x t) (tile_y t) (tile_z t) f = true).

Definition sound_acc `{Geodesy} (features : list feature) (minZoom maxZoom : Z)
    (acc : Accumulator) : Prop :=
  acc_inv acc /\ Forall (covered features minZoom maxZoom) (List.map snd (tileMap acc)).

(** The tiles of the accumulator are in ascending zoom and none is above
    [z]. *)
Definition zoom_sorted (z : Z) (tiles : list Tile) : Prop :=
  StronglySorted (fun a b => tile_z a <= tile_z b) tiles
  /\ Forall (fun t => tile_z t <= z) tiles.



(** A running job belongs to the operation and carries the path of its
    task. *)
Definition tracked (su : Setup) (tasks : list DownloadTask) (j : Job) : Prop :=
  job_task j ∈ tasks /\ tilePathOf su (job_task j) = Some (job_path j).

(** Where a task of an operation is: waiting, running, on disk, in the
    failure list, or rejected for want of a tile map. *)
Definition located (su : Setup) (e : Engine) (t : DownloadTask) : Prop :=
  t ∈ queued e
  \/ (exists j, j ∈ checking e /\ job_task j = t)
  \/ (exists j, j ∈ fetching e /\ job_task j = t)
  \/ cached su (files e) t
  \/ t ∈ failedDownloads e
  \/ tilePathOf su t = None.

(** The failure list holds only tasks of the operation, as many as
    [failedTiles] counts; files are never removed and the new ones are paths
    of tasks of the operation; every task of the operation is somewhere. *)
Definition operation_inv (su : Setup) (tasks : list DownloadTask) (cache : gset string)
    (e : Engine) : Prop :=
  Forall (fun t => t ∈ tasks) (queued e)
  /\ Forall (tracked su tasks) (checking e)
  /\ Forall (tracked su tasks) (fetching e)
  /\ Forall (fun t => t ∈ tasks) (failedDownloads e)
  /\ Z.of_nat (length (failedDownloads e)) = failedTiles (stats e)
  /\ cache ⊆ files e
  /\ (forall p, p ∈ files e ->
        p ∈ cache \/ exists t, t ∈ tasks /\ tilePathOf su t = Some p)
  /\ Forall (located su e) tasks.

(** * Properties *)

(** ** The fetch engine *)

Section engine.

Context (su : Setup).

Lemma updateProgress_fields e :
  stats (updateProgress su e) = stats e
  /\ failedDownloads (updateProgress su e) = failedDownloads e
  /\ queued (updateProgress su e) = queued e
  /\ checking (updateProgress su e) = checking e
  /\ fetching (updateProgress su e) = fetching e
  /\ rejected (updateProgress su e) = rejected e
  /\ files (updateProgress su e) = files e
  /\ requests (updateProgress su e) = requests e.
Proof. unfold updateProgress. destruct (progressCallback su); simpl; auto 10. Qed.

Lemma updateProgress_reported e :
  reported (updateProgress su e) = reported e
  \/ reported (updateProgress su e) = reported e ++ [(stats e, progressPercent (stats e))].
Proof. unfold updateProgress. destruct (progressCallback su); simpl; auto. Qed.

Lemma updateProgress_inv r0 n0 e :
  engine_inv r0 n0 e -> engine_inv r0 n0 (updateProgress su e).
Proof.
  intros (Hb & Hp & Hr & Hn & Hs).
  destruct (updateProgress_fields e) as (Es & _ & Eq & Ec & Ef & Er & _ & _).
  unfold engine_inv, running. rewrite Es, Eq, Ec, Ef, Er.
  repeat split; try assumption.
  - destruct (updateProgress_reported e) as [-> | ->]; [assumption|].
    rewrite length_app. simpl. lia.
  - destruct (updateProgress_reported e) as [-> | ->]; [assumption|].
    rewrite drop_app_le by assumption.
    apply Forall_app. split; [assumption|].
    constructor; [|constructor]. simpl. lia.
Qed.

Lemma step_inv r0 n0 e e' :
  step su e e' -> engine_inv r0 n0 e -> engine_inv r0 n0 e'.
Proof.
  intros Hstep Hinv. destruct Hstep as [rnd t rest e Hq Hrun | i j e Hi | outcome i j e Hi].
  - unfold startTask, downloadTile_enter.
    destruct Hinv as (Hb & Hp & Hr & Hn & Hs). rewrite Hq in Hb. simpl in Hb.
    destruct (getTileMapByName (config su) (tileMapName t)) as [err | tileMap].
    + unfold engine_inv, running in *. simpl. rewrite length_app. simpl.
      repeat split; try assumption; lia.
    + unfold engine_inv, running, accounted in *. simpl. rewrite length_app. simpl.
      repeat split; try assumption; lia.
  - unfold afterCheck.
    destruct Hinv as (Hb & Hp & Hr & Hn & Hs).
    assert (Hlen : (length (delete i (checking e)) = length (checking e) - 1)%nat)
      by (apply length_delete; eauto).
    assert (Hpos : (0 < length (checking e))%nat)
      by (apply lookup_lt_Some in Hi; lia).
    destruct (bool_decide (job_path j ∈ files e)).
    + apply updateProgress_inv.
      unfold engine_inv, running, accounted in *. simpl. rewrite Hlen.
      repeat split; try assumption; lia.
    + unfold engine_inv, running, accounted in *. simpl. rewrite Hlen, length_app. simpl.
      repeat split; try assumption; lia.
  - unfold afterFetch.
    destruct Hinv as (Hb & Hp & Hr & Hn & Hs).
    assert (Hlen : (length (delete i (fetching e)) = length (fetching e) - 1)%nat)
      by (apply length_delete; eauto).
    assert (Hpos : (0 < length (fetching e))%nat)
      by (apply lookup_lt_Some in Hi; lia).
    destruct outcome as [cause|].
    + apply updateProgress_inv.
      unfold engine_inv, running, accounted in *.
      destruct cause; simpl; rewrite Hlen; repeat split; try assumption; lia.
    + apply updateProgress_inv.
      unfold engine_inv, running, accounted in *. simpl. rewrite Hlen.
      repeat split; try assumption; lia.
Qed.

Lemma steps_inv r0 n0 e e' :
  rtc (step su) e e' -> engine_inv r0 n0 e -> engine_inv r0 n0 e'.
Proof. induction 1; eauto using step_inv. Qed.

Lemma engine_inv_bound r0 n0 e :
  engine_inv r0 n0 e -> accounted (stats e) <= totalTiles (stats e).
Proof. intros (Hb & _ & Hr & _). lia. Qed.

Lemma beginDownload_inv name tiles e0 :
  idle e0 ->
  engine_inv (length (rejected e0)) (length (reported e0)) (beginDownload su name tiles e0).
Proof.
  intros (Hq & Hc & Hf).
  unfold beginDownload, enqueue, updateProgress, resetStats, engine_inv, running, accounted.
  destruct (progressCallback su); simpl; rewrite Hq, Hc, Hf; simpl;
    rewrite ?length_map, ?length_app; simpl.
  - repeat split; try lia.
    rewrite drop_app_length. constructor; [simpl; lia | constructor].
  - repeat split; try lia.
    rewrite drop_all. constructor.
Qed.

Lemma beginDownload_queued name tiles e0 :
  idle e0 -> queued (beginDownload su name tiles e0) = List.map (taskOf name) tiles.
Proof.
  intros (Hq & _). unfold beginDownload, enqueue, updateProgress, resetStats.
  destruct (progressCallback su); simpl; rewrite Hq; reflexivity.
Qed.

(** [resetStats] empties the failure list before [retryFailedDownloads]
    copies it: whatever had failed, a retry pass is given no task. *)
Lemma retry_begin_queued e0 e1 :
  retryFailedDownloads_begin su e0 = (None, e1) ->
  queued e1 = queued e0 /\ totalTiles (stats e1) = 0 /\ calculatedTiles (stats e1) = 0.
Proof.
  unfold retryFailedDownloads_begin.
  destruct (failedDownloads e0); [discriminate|].
  intros [= <-]. unfold enqueue, updateProgress, resetStats.
  destruct (progressCallback su); simpl; rewrite app_nil_r; auto.
Qed.

Lemma retry_begin_inv e0 e1 :
  idle e0 ->
  retryFailedDownloads_begin su e0 = (None, e1) ->
  engine_inv (length (rejected e0)) (length (reported e0)) e1.
Proof.
  intros (Hq & Hc & Hf). unfold retryFailedDownloads_begin.
  destruct (failedDownloads e0); [discriminate|].
  intros [= <-].
  unfold enqueue, updateProgress, resetStats, engine_inv, running, accounted.
  destruct (progressCallback su); simpl; rewrite Hq, Hc, Hf; simpl;
    rewrite ?length_app; simpl.
  - repeat split; try lia.
    rewrite drop_app_length. constructor; [simpl; lia | constructor].
  - repeat split; try lia.
    rewrite drop_all. constructor.
Qed.

(** Tasks whose tile map is configured are never rejected. *)
Lemma step_configured e e' :
  step su e e' ->
  Forall (fun t => configured su (tileMapName t)) (queued e) ->
  rejected e' = rejected e
  /\ Forall (fun t => configured su (tileMapName t)) (queued e').
Proof.
  intros Hstep Hall. destruct Hstep as [rnd t rest e Hq Hrun | i j e Hi | outcome i j e Hi].
  - rewrite Hq in Hall. inversion Hall as [|? ? [tileMap Ht] Hrest]; subst.
    unfold startTask, downloadTile_enter. rewrite Ht. simpl. auto.
  - unfold afterCheck, tileSkipped.
    destruct (bool_decide (job_path j ∈ files e)).
    + destruct (updateProgress_fields
        (set_stats (tally_skipped (stats (set_checking (delete i (checking e)) e)))
           (set_checking (delete i (checking e)) e))) as (_ & _ & -> & _ & _ & -> & _).
      simpl. auto.
    + simpl. auto.
  - unfold afterFetch, tileDownloaded, tileFailed.
    destruct outcome as [cause|].
    + match goal with |- context [updateProgress su ?x] =>
        destruct (updateProgress_fields x) as (_ & _ & -> & _ & _ & -> & _) end.
      destruct cause; simpl; auto.
    + match goal with |- context [updateProgress su ?x] =>
        destruct (updateProgress_fields x) as (_ & _ & -> & _ & _ & -> & _) end.
      simpl. auto.
Qed.

Lemma steps_configured e e' :
  rtc (step su) e e' ->
  Forall (fun t => configured su (tileMapName t)) (queued e) ->
  rejected e' = rejected e
  /\ Forall (fun t => configured su (tileMapName t)) (queued e').
Proof.
  induction 1 as [|e1 e2 e3 Hstep _ IH]; [auto|].
  intros Hall. destruct (step_configured _ _ Hstep Hall) as [Hr Hall'].
  destruct (IH Hall') as [Hr' Hall'']. split; [congruence | assumption].
Qed.

(** The sequential schedule is one of the interleavings, and it empties the
    queue. *)
Lemma runHead_steps rnd oracle e :
  checking e = [] -> fetching e = [] -> (0 < concurrency su)%nat ->
  rtc (step su) e (runHead su rnd oracle e)
  /\ checking (runHead su rnd oracle e) = []
  /\ fetching (runHead su rnd oracle e) = []
  /\ length (queued (runHead su rnd oracle e)) = Nat.pred (length (queued e)).
Proof.
  intros Hc Hf Hpos. unfold runHead.
  destruct (queued e) as [|t rest] eqn:Hq.
  { rewrite Hq. repeat split; auto. reflexivity. }
  assert (Hstart : step su e (startTask su rnd t rest e)).
  { apply step_start; [assumption|]. unfold running. rewrite Hc, Hf. simpl. lia. }
  revert Hstart. unfold startTask, downloadTile_enter.
  destruct (getTileMapByName (config su) (tileMapName t)) as [err|tileMap]; simpl.
  { rewrite Hc. intros Hstart. repeat split; auto. apply rtc_once. assumption. }
  rewrite Hc. simpl.
  set (j := mkJob t _ _).
  set (e1 := set_checking [j] _). intros Hstart.
  assert (Hcheck : step su e1 (afterCheck su 0 j e1)) by (apply step_check; reflexivity).
  revert Hcheck. unfold afterCheck, tileSkipped, updateProgress.
  destruct (bool_decide (job_path j ∈ files e1)).
  - destruct (progressCallback su); simpl; rewrite Hf; intros Hcheck;
      (repeat split; auto; eapply rtc_l; [exact Hstart | apply rtc_once; exact Hcheck]).
  - simpl. rewrite Hf. simpl.
    set (e2 := set_fetching [j] _). intros Hcheck.
    assert (Hfetch : step su e2 (afterFetch su (oracle j) 0 j e2))
      by (apply step_fetch; reflexivity).
    assert (Hall : rtc (step su) e (afterFetch su (oracle j) 0 j e2)).
    { eapply rtc_l; [exact Hstart|]. eapply rtc_l; [exact Hcheck|].
      apply rtc_once. exact Hfetch. }
    split; [exact Hall|].
    unfold afterFetch, tileDownloaded, tileFailed, updateProgress.
    destruct (oracle j) as [[| |]|]; destruct (progressCallback su); simpl; auto.
Qed.

Lemma drain_steps rnd oracle fuel e :
  checking e = [] -> fetching e = [] -> (0 < concurrency su)%nat ->
  rtc (step su) e (drain su rnd oracle fuel e)
  /\ checking (drain su rnd oracle fuel e) = []
  /\ fetching (drain su rnd oracle fuel e) = []
  /\ length (queued (drain su rnd oracle fuel e)) = (length (queued e) - fuel)%nat.
Proof.
  revert e. induction fuel as [|fuel IH]; intros e Hc Hf Hpos; simpl.
  { repeat split; auto; [reflexivity | lia]. }
  destruct (runHead_steps rnd oracle e Hc Hf Hpos) as (Hs & Hc' & Hf' & Hl).
  destruct (IH _ Hc' Hf' Hpos) as (Hs2 & Hc2 & Hf2 & Hl2).
  repeat split; auto.
  - etransitivity; eassumption.
  - rewrite Hl2, Hl. lia.
Qed.

(** From a state with no running job the queue can always be driven to
    quiescence. *)
Lemma runQueue_steps rnd oracle e :
  checking e = [] -> fetching e = [] -> (0 < concurrency su)%nat ->
  rtc (step su) e (runQueue su rnd oracle e) /\ idle (runQueue su rnd oracle e).
Proof.
  intros Hc Hf Hpos. unfold runQueue.
  destruct (drain_steps rnd oracle (length (queued e)) e Hc Hf Hpos) as (Hs & Hc' & Hf' & Hl).
  split; [assumption|]. repeat split; auto.
  apply length_zero_iff_nil. rewrite Hl. lia.
Qed.


Lemma step_cache_inv cache sent e e' :
  step su e e' -> cache_inv su cache sent e -> cache_inv su cache sent e'.
Proof.
  intros Hstep (Hfi & Hre & Hfe & Hd & Hfa & Hfd & Hch & Hqu).
  destruct Hstep as [rnd t rest e Hq Hrun | i j e Hi | outcome i j e Hi].
  - rewrite Hq in Hqu. inversion Hqu as [|? ? (p & Hp & Hin) Hrest]; subst.
    unfold tilePathOf in Hp. unfold startTask, downloadTile_enter.
    destruct (getTileMapByName (config su) (tileMapName t)) as [err|tileMap];
      [discriminate|].
    injection Hp as Hp. unfold cache_inv. simpl.
    repeat split; try assumption.
    apply Forall_app. split; [assumption|].
    constructor; [|constructor]. simpl. rewrite Hp. assumption.
  - unfold afterCheck, tileSkipped.
    assert (Hj : job_path j ∈ files e).
    { rewrite Hfi. rewrite Forall_forall in Hch. apply Hch.
      eapply list_elem_of_lookup_2. exact Hi. }
    rewrite bool_decide_eq_true_2 by assumption.
    unfold cache_inv.
    match goal with |- context [updateProgress su ?x] =>
      destruct (updateProgress_fields x) as (-> & -> & -> & -> & -> & _ & -> & ->) end.
    simpl. repeat split; try assumption.
    rewrite Forall_forall in *. intros x Hx. apply Hch.
    eapply list_elem_of_delete_inv. exact Hx.
  - rewrite Hfe in Hi. discriminate.
Qed.

Lemma steps_cache_inv cache sent e e' :
  rtc (step su) e e' -> cache_inv su cache sent e -> cache_inv su cache sent e'.
Proof. induction 1; eauto using step_cache_inv. Qed.

End engine.

Lemma beginDownload_facts su name tiles e0 :
  idle e0 ->
  engine_inv (length (rejected e0)) (length (reported e0)) (beginDownload su name tiles e0)
  /\ rejected (beginDownload su name tiles e0) = rejected e0
  /\ files (beginDownload su name tiles e0) = files e0
  /\ requests (beginDownload su name tiles e0) = requests e0
  /\ (configured su name ->
      Forall (fun t => configured su (tileMapName t)) (queued (beginDownload su name tiles e0))).
Proof.
  intros Hidle. split; [apply beginDownload_inv; assumption|].
  rewrite beginDownload_queued by assumption.
  unfold beginDownload, enqueue, updateProgress, resetStats.
  destruct (progressCallback su); simpl; repeat split; auto;
    intros Hc; apply Forall_forall; intros t Ht;
    apply list_elem_of_In, in_map_iff in Ht as (tile & <- & _); exact Hc.
Qed.

Lemma beginOperation_facts `{Geodesy} su op e0 e1 :
  idle e0 ->
  beginOperation su op e0 = Some e1 ->
  engine_inv (length (rejected e0)) (length (reported e0)) e1
  /\ rejected e1 = rejected e0
  /\ (operationConfigured su op ->
      Forall (fun t => configured su (tileMapName t)) (queued e1)).
Proof.
  intros Hidle Hbegin. destruct op as [name bb a b | name g a b |]; simpl in Hbegin.
  - injection Hbegin as <-. unfold downloadTilesForBoundingBox_begin.
    destruct (beginDownload_facts su name (calculateTilesForBoundingBox bb a b) e0 Hidle)
      as (? & ? & _ & _ & ?). auto.
  - injection Hbegin as <-. unfold downloadTilesForGeoJSON_begin.
    destruct (beginDownload_facts su name (calculateTilesForGeoJSON g a b) e0 Hidle)
      as (? & ? & _ & _ & ?). auto.
  - destruct (retryFailedDownloads_begin su e0) as [[s|] e'] eqn:Hretry; [discriminate|].
    injection Hbegin as ->.
    split; [eapply retry_begin_inv; eassumption|].
    destruct (retry_begin_queued su e0 e1 Hretry) as (Hq & _).
    destruct Hidle as (Hq0 & _). rewrite Hq, Hq0.
    split; [|constructor].
    revert Hretry. unfold retryFailedDownloads_begin.
    destruct (failedDownloads e0); [discriminate|]. intros [= <-].
    unfold enqueue, updateProgress, resetStats. destruct (progressCallback su); reflexivity.
Qed.

(** C3 (as amended).  From the start of an operation (a bounding-box
    download, a GeoJSON download or a retry pass) on an idle queue, in every
    state any interleaving of the queue can reach,
    [downloadedTiles + skippedTiles + failedTiles + inProgress <= totalTiles];
    every snapshot handed to the progress sink during the operation satisfies
    the same bound; and when the queue is drained, provided the tile map the
    operation names is in the configuration, the sum equals [totalTiles] and
    [inProgress] is zero. *)
Theorem statistics_invariant `{Geodesy} su op e0 e1 e :
  idle e0 ->
  beginOperation su op e0 = Some e1 ->
  rtc (step su) e1 e ->
  accounted (stats e) <= totalTiles (stats e)
  /\ Forall (fun sp => accounted (fst sp) <= totalTiles (fst sp))
       (drop (length (reported e0)) (reported e))
  /\ (idle e -> operationConfigured su op ->
      accounted (stats e) = totalTiles (stats e) /\ inProgress (stats e) = 0).
Proof.
  intros Hidle Hbegin Hsteps.
  destruct (beginOperation_facts su op e0 e1 Hidle Hbegin) as (Hinv1 & Hrej1 & Hconf).
  pose proof (steps_inv su _ _ _ _ Hsteps Hinv1) as Hinv.
  split; [eapply engine_inv_bound; eassumption|].
  split; [destruct Hinv as (_ & _ & _ & _ & Hs); exact Hs|].
  intros (Hq & Hc & Hf) Hop.
  destruct (steps_configured su _ _ Hsteps (Hconf Hop)) as (Hrej & _).
  destruct Hinv as (Hb & Hp & _).
  unfold running in Hp. rewrite Hq, Hrej, Hrej1 in Hb. rewrite Hc, Hf in Hp.
  simpl in Hb, Hp. split; lia.
Qed.

(** An instance of the theorem: four tiles at zoom 1, the fetch
    failing for two of them, run to quiescence. *)
Lemma statistics_invariant_witness :
  let e0 := newEngine ∅ in
  let op := @DownloadBoundingBox flatGeodesy "OSM_Map" (0, -1, 1, 0) 1 1 in
  let e1 := @downloadTilesForBoundingBox_begin flatGeodesy exampleSetup "OSM_Map"
              (0, -1, 1, 0) 1 1 e0 in
  let e := runQueue exampleSetup 0 failsAtOne e1 in
  (idle e0 /\ @beginOperation flatGeodesy exampleSetup op e0 = Some e1
   /\ rtc (step exampleSetup) e1 e)
  /\ accounted (stats e) <= totalTiles (stats e)
  /\ Forall (fun sp => accounted (fst sp) <= totalTiles (fst sp))
       (drop (length (reported e0)) (reported e))
  /\ (idle e -> @operationConfigured flatGeodesy exampleSetup op ->
      accounted (stats e) = totalTiles (stats e) /\ inProgress (stats e) = 0).
Proof.
  intros e0 op e1 e.
  assert (H0 : idle e0) by (repeat split; reflexivity).
  assert (H1 : @beginOperation flatGeodesy exampleSetup op e0 = Some e1) by reflexivity.
  assert (H2 : rtc (step exampleSetup) e1 e).
  { apply runQueue_steps; [reflexivity | reflexivity | simpl; lia]. }
  split; [auto|].
  exact (@statistics_invariant flatGeodesy exampleSetup op e0 e1 e H0 H1 H2).
Defined.

(** C3 (as stated) fails: an operation that names a tile map missing from the
    configuration reaches quiescence with every counter at zero and
    [totalTiles = 1]. *)
Lemma statistics_equality_counterexample :
  let e0 := newEngine ∅ in
  let op := @DownloadBoundingBox flatGeodesy "Unknown_Map" (0, 0, 0, 0) 1 1 in
  exists e1 e,
    @beginOperation flatGeodesy exampleSetup op e0 = Some e1
    /\ rtc (step exampleSetup) e1 e
    /\ idle e
    /\ inProgress (stats e) = 0
    /\ accounted (stats e) <> totalTiles (stats e).
Proof.
  intros e0 op.
  exists (@downloadTilesForBoundingBox_begin flatGeodesy exampleSetup "Unknown_Map"
            (0, 0, 0, 0) 1 1 e0).
  eexists. split; [reflexivity|].
  split; [apply (runQueue_steps exampleSetup 0 alwaysOk); [reflexivity | reflexivity | simpl; lia]|].
  split; [apply (runQueue_steps exampleSetup 0 alwaysOk); [reflexivity | reflexivity | simpl; lia]|].
  split; [reflexivity|]. vm_compute. discriminate.
Qed.

(** C1.  A download in which the tile (1, 0) at zoom 1 fails leaves that task
    in the failure list; the retry that follows returns all-zero statistics
    with [totalTiles = 0], puts no task in the queue and sends no request,
    although the fetch would now succeed: [resetStats] has emptied the
    failure list before it is copied. *)
Theorem retry_after_failure_enqueues_nothing :
  let run := downloadTiles exampleSetup 0 failsAtOne "OSM_Map"
               [mkTile 0 0 1; mkTile 1 0 1] (newEngine ∅) in
  let retry := retryFailedDownloads exampleSetup 0 alwaysOk (snd run) in
  failedTiles (fst run) = 1
  /\ failedDownloads (snd run) = [mkTask "OSM_Map" 1 0 1]
  /\ fst (retryFailedDownloads_begin exampleSetup (snd run)) = None
  /\ queued (snd (retryFailedDownloads_begin exampleSetup (snd run))) = []
  /\ fst retry = zeroStats
  /\ requests (snd retry) = requests (snd run)
  /\ files (snd retry) = files (snd run).
Proof. vm_compute. repeat split; reflexivity. Qed.






Lemma step_totals su e e' :
  step su e e' ->
  totalTiles (stats e') = totalTiles (stats e)
  /\ calculatedTiles (stats e') = calculatedTiles (stats e).
Proof.
  intros Hstep. destruct Hstep as [rnd t rest e Hq Hrun | i j e Hi | outcome i j e Hi].
  - unfold startTask, downloadTile_enter.
    destruct (getTileMapByName (config su) (tileMapName t)); simpl; auto.
  - unfold afterCheck, tileSkipped, updateProgress.
    destruct (bool_decide (job_path j ∈ files e)); destruct (progressCallback su);
      simpl; auto.
  - unfold afterFetch, tileDownloaded, tileFailed, updateProgress.
    destruct outcome as [[| |]|]; destruct (progressCallback su); simpl; auto.
Qed.

Lemma steps_totals su e e' :
  rtc (step su) e e' ->
  totalTiles (stats e') = totalTiles (stats e)
  /\ calculatedTiles (stats e') = calculatedTiles (stats e).
Proof.
  induction 1 as [|e1 e2 e3 Hstep _ [IH1 IH2]]; [auto|].
  destruct (step_totals su _ _ Hstep) as [H1 H2]. split; congruence.
Qed.

Lemma cached_configured su cache t : cached su cache t -> configured su (tileMapName t).
Proof.
  intros (p & Hp & _). unfold tilePathOf in Hp. unfold configured.
  destruct (getTileMapByName (config su) (tileMapName t)); [discriminate | eauto].
Qed.

Lemma beginDownload_stats su name tiles e0 :
  stats (beginDownload su name tiles e0)
  = mkStats (Z.of_nat (length tiles)) 0 0 0 0 (Z.of_nat (length tiles))
  /\ failedDownloads (beginDownload su name tiles e0) = []
  /\ checking (beginDownload su name tiles e0) = checking e0
  /\ fetching (beginDownload su name tiles e0) = fetching e0.
Proof.
  unfold beginDownload, enqueue, updateProgress, resetStats.
  destruct (progressCallback su); simpl; auto.
Qed.

(** C4.  A fetch task whose cache file exists returns [true] having
    incremented [skippedTiles] and nothing else: [downloadedTiles] and
    [failedTiles] are unchanged, no request is sent and no file is written.
    Hence a download over a cache that holds the file of every tile ends,
    whatever the interleaving, with [downloadedTiles = 0] and
    [skippedTiles = totalTiles], without a request and with the files as they
    were; and the operation does end so. *)
Theorem cached_tiles_are_skipped su name tiles e0 :
  idle e0 ->
  Forall (cached su (files e0)) (List.map (taskOf name) tiles) ->
  (forall rnd oracle t e,
      cached su (files e) t ->
      exists e',
        downloadTile su rnd oracle t e = (inr true, e')
        /\ skippedTiles (stats e') = skippedTiles (stats e) + 1
        /\ downloadedTiles (stats e') = downloadedTiles (stats e)
        /\ failedTiles (stats e') = failedTiles (stats e)
        /\ inProgress (stats e') = inProgress (stats e)
        /\ failedDownloads e' = failedDownloads e
        /\ requests e' = requests e
        /\ files e' = files e)
  /\ (forall e,
      rtc (step su) (beginDownload su name tiles e0) e -> idle e ->
      stats e = mkStats (Z.of_nat (length tiles)) 0 0 (Z.of_nat (length tiles)) 0
                  (Z.of_nat (length tiles))
      /\ downloadedTiles (stats e) = 0
      /\ skippedTiles (stats e) = totalTiles (stats e)
      /\ requests e = requests e0
      /\ files e = files e0)
  /\ ((0 < concurrency su)%nat ->
      forall rnd oracle,
        fst (downloadTiles su rnd oracle name tiles e0)
        = mkStats (Z.of_nat (length tiles)) 0 0 (Z.of_nat (length tiles)) 0
            (Z.of_nat (length tiles))).
Proof.
  intros Hidle Hcached.
  assert (Hrun : forall e,
    rtc (step su) (beginDownload su name tiles e0) e -> idle e ->
    stats e = mkStats (Z.of_nat (length tiles)) 0 0 (Z.of_nat (length tiles)) 0
                (Z.of_nat (length tiles))
    /\ downloadedTiles (stats e) = 0
    /\ skippedTiles (stats e) = totalTiles (stats e)
    /\ requests e = requests e0
    /\ files e = files e0).
  { intros e Hsteps (Hq & Hc & Hf).
    destruct (beginDownload_facts su name tiles e0 Hidle) as (Hinv1 & Hrej1 & Hfi1 & Hre1 & _).
    destruct (beginDownload_stats su name tiles e0) as (Hst1 & Hfd1 & Hc1 & Hf1).
    pose proof Hidle as (Hq0 & Hc0 & Hf0).
    assert (Hci1 : cache_inv su (files e0) (requests e0) (beginDownload su name tiles e0)).
    { unfold cache_inv. rewrite Hst1, Hfd1, Hc1, Hf1, Hc0, Hf0, Hfi1, Hre1.
      rewrite beginDownload_queued by assumption. simpl.
      repeat split; auto. }
    pose proof (steps_cache_inv su _ _ _ _ Hsteps Hci1)
      as (Hfi & Hre & _ & Hd & Hfa & _ & _ & _).
    pose proof (steps_inv su _ _ _ _ Hsteps Hinv1) as (Hb & Hp & _).
    assert (Hconf : Forall (fun t => configured su (tileMapName t))
                      (queued (beginDownload su name tiles e0))).
    { rewrite beginDownload_queued by assumption.
      eapply Forall_impl; [exact Hcached|]. intros t. apply cached_configured. }
    destruct (steps_configured su _ _ Hsteps Hconf) as (Hrej & _).
    destruct (steps_totals su _ _ Hsteps) as (Htot & Hcalc).
    rewrite Hst1 in Htot, Hcalc. simpl in Htot, Hcalc.
    unfold running in Hp. rewrite Hc, Hf in Hp. simpl in Hp.
    rewrite Hq, Hrej, Hrej1 in Hb. unfold accounted in Hb. simpl in Hb.
    assert (Hs : skippedTiles (stats e) = Z.of_nat (length tiles)) by lia.
    assert (Hip : inProgress (stats e) = 0) by lia.
    split; [|repeat split; auto; lia].
    clear - Hs Hip Hd Hfa Htot Hcalc.
    destruct (stats e); simpl in *. f_equal; lia. }
  split; [|split; [exact Hrun|]].
  - intros rnd oracle t e (p & Hp & Hin).
    unfold tilePathOf in Hp. unfold downloadTile, downloadTile_enter.
    destruct (getTileMapByName (config su) (tileMapName t)) as [err|tileMap];
      [discriminate|].
    injection Hp as Hp. simpl. rewrite Hp.
    rewrite bool_decide_eq_true_2 by assumption.
    eexists. split; [reflexivity|].
    unfold tileSkipped, updateProgress. destruct (progressCallback su); simpl;
      repeat split; lia.
  - intros Hpos rnd oracle. unfold downloadTiles, finishOperation, getStats.
    destruct (beginDownload_stats su name tiles e0) as (_ & _ & Hc1 & Hf1).
    destruct Hidle as (_ & Hc0 & Hf0).
    destruct (runQueue_steps su rnd oracle (beginDownload su name tiles e0)) as (Hs & Hi);
      [congruence | congruence | assumption |].
    simpl. destruct (updateProgress_fields su
      (runQueue su rnd oracle (beginDownload su name tiles e0))) as (-> & _).
    apply Hrun; assumption.
Qed.

(** An instance of the theorem: the cache left by a first
    download of two tiles, and the second download over it. *)
Lemma cached_tiles_are_skipped_witness :
  let tiles := [mkTile 0 0 1; mkTile 1 0 1] in
  let e0 := snd (downloadTiles exampleSetup 0 alwaysOk "OSM_Map" tiles (newEngine ∅)) in
  (idle e0 /\ Forall (cached exampleSetup (files e0)) (List.map (taskOf "OSM_Map") tiles))
  /\ fst (downloadTiles exampleSetup 0 alwaysOk "OSM_Map" tiles e0) = mkStats 2 0 0 2 0 2.
Proof.
  intros tiles e0.
  assert (H0 : idle e0) by (repeat split; reflexivity).
  assert (H1 : Forall (cached exampleSetup (files e0)) (List.map (taskOf "OSM_Map") tiles)).
  { repeat constructor; eexists; (split; [reflexivity|]); vm_compute; reflexivity. }
  split; [auto|].
  destruct (cached_tiles_are_skipped exampleSetup "OSM_Map" tiles e0 H0 H1) as (_ & _ & H).
  apply (H ltac:(simpl; lia) 0%nat alwaysOk).
Defined.

(** ** Strings *)

Section strings.

Import JsString.

Lemma contains_app c a b : contains c (a +:+ b) = contains c a || contains c b.
Proof.
  induction a as [|x a IH]; simpl; [reflexivity|].
  rewrite IH. apply orb_assoc.
Qed.

Lemma pretty_N_char_isDigit x : isDigit (pretty_N_char x) = true.
Proof.
  unfold pretty_N_char. repeat case_match; reflexivity.
Qed.

Lemma pretty_N_go_chars x : forall s c,
  contains c (pretty_N_go x s) = true -> isDigit c = true \/ contains c s = true.
Proof.
  induction (N.lt_wf_0 x) as [x _ IH]; intros s c Hc.
  destruct (decide (x = 0)%N) as [->|Hx].
  - rewrite pretty_N_go_0 in Hc. auto.
  - rewrite pretty_N_go_step in Hc by lia.
    apply IH in Hc; [|apply N.div_lt; lia].
    destruct Hc as [Hc|Hc]; [auto|].
    simpl in Hc. apply orb_true_iff in Hc as [Hc|Hc]; [|auto].
    apply Ascii.eqb_eq in Hc. subst c. left. apply pretty_N_char_isDigit.
Qed.

Lemma pretty_N_chars (x : N) c :
  contains c (pretty x) = true -> isDigit c = true.
Proof.
  unfold pretty, pretty_N. case_decide.
  - simpl. rewrite orb_false_r. intros Hc. apply Ascii.eqb_eq in Hc. subst. reflexivity.
  - intros Hc. apply pretty_N_go_chars in Hc as [Hc|Hc]; [assumption | discriminate].
Qed.

(** The characters of [n.toString()] are decimal digits and the minus
    sign. *)
Lemma toString_chars n c :
  contains c (toString n) = true -> isDigit c = true \/ c = "-"%char.
Proof.
  unfold toString, pretty, pretty_Z. destruct n as [|q|q].
  - simpl. rewrite orb_false_r. intros Hc. apply Ascii.eqb_eq in Hc. subst. auto.
  - intros Hc. left. exact (pretty_N_chars (N.pos q) c Hc).
  - simpl. intros Hc. apply orb_true_iff in Hc as [Hc|Hc].
    + apply Ascii.eqb_eq in Hc. auto.
    + left. exact (pretty_N_chars (N.pos q) c Hc).
Qed.

Lemma toString_no_slash n : contains "/" (toString n) = false.
Proof.
  destruct (contains "/" (toString n)) eqn:Hc; [|reflexivity].
  apply toString_chars in Hc as [Hc|Hc]; discriminate.
Qed.

Lemma toString_inj n m : toString n = toString m -> n = m.
Proof. unfold toString. apply pretty_Z_inj. Qed.

(** A string is cut in one way only at the first occurrence of a
    character. *)
Lemma cut_at_char_inj c a a' b b' :
  contains c a = false -> contains c a' = false ->
  a +:+ String c b = a' +:+ String c b' -> a = a' /\ b = b'.
Proof.
  revert a'. induction a as [|x a IH]; intros [|x' a'] Ha Ha' Heq; simpl in *.
  - injection Heq as ->. auto.
  - injection Heq as <- _. rewrite Ascii.eqb_refl in Ha'. discriminate.
  - injection Heq as -> _. rewrite Ascii.eqb_refl in Ha. discriminate.
  - injection Heq as -> Heq.
    apply orb_false_iff in Ha as [_ Ha]. apply orb_false_iff in Ha' as [_ Ha'].
    destruct (IH a' Ha Ha' Heq) as [-> ->]. auto.
Qed.

End strings.

(** ** Tile geometry *)

Lemma tileKey_inj z x y z' x' y' :
  tileKey z x y = tileKey z' x' y' -> z = z' /\ x = x' /\ y = y'.
Proof.
  unfold tileKey. intros Heq.
  apply (cut_at_char_inj "/") in Heq as [Hz Heq]; try apply toString_no_slash.
  apply (cut_at_char_inj "/") in Heq as [Hx Hy]; try apply toString_no_slash.
  auto using toString_inj.
Qed.

Lemma map_set_fresh key v m :
  key ∉ List.map fst m -> map_set key v m = m ++ [(key, v)].
Proof.
  induction m as [|[k w] m IH]; simpl; intros Hk; [reflexivity|].
  apply not_elem_of_cons in Hk as [Hne Hk].
  destruct (String.eqb_spec k key) as [->|_]; [congruence|].
  rewrite IH by assumption. reflexivity.
Qed.

Lemma addTile_inv x y z acc :
  tileKey z x y ∉ tileSet acc ->
  acc_inv acc -> acc_inv (addTile (tileKey z x y) (mkTile x y z) acc).
Proof.
  intros Hfresh (Hnd & Hset & Hkeys).
  assert (Hk : tileKey z x y ∉ List.map fst (tileMap acc)) by (rewrite <- Hset; assumption).
  unfold acc_inv, addTile. simpl. rewrite map_set_fresh by assumption.
  rewrite map_app. simpl. repeat split.
  - apply NoDup_app. repeat split; [assumption| |apply NoDup_singleton].
    intros k Hin Hin'. apply list_elem_of_singleton in Hin'. subst. contradiction.
  - intros Hin. apply elem_of_app. apply elem_of_union in Hin as [Hin|Hin].
    + right. apply elem_of_singleton in Hin. subst. apply list_elem_of_singleton. reflexivity.
    + left. apply Hset. assumption.
  - intros Hin. apply elem_of_union. apply elem_of_app in Hin as [Hin|Hin].
    + right. apply Hset. assumption.
    + left. apply list_elem_of_singleton in Hin. subst. apply elem_of_singleton. reflexivity.
  - apply Forall_app. split; [assumption|]. constructor; [reflexivity | constructor].
Qed.

Lemma logTest_inv entry acc : acc_inv acc -> acc_inv (logTest entry acc).
Proof. intros H. exact H. Qed.

Section geometry.

Context `{Geodesy}.

Lemma visitTile_inv z i f skip acc xy :
  acc_inv acc -> acc_inv (visitTile z i f skip acc xy).
Proof.
  intros Hinv. destruct xy as [x y]. unfold visitTile.
  destruct (bool_decide_reflect (tileKey z x y ∈ tileSet acc)) as [Hin|Hfresh];
    [assumption|].
  destruct skip; [apply addTile_inv; assumption|].
  destruct (tileIntersectsFeature x y z f);
    [apply addTile_inv; assumption | assumption].
Qed.

Lemma fold_visitTile_inv z i f skip l acc :
  acc_inv acc -> acc_inv (fold_left (visitTile z i f skip) l acc).
Proof.
  revert acc. induction l as [|xy l IH]; simpl; intros acc Hinv; [assumption|].
  apply IH. apply visitTile_inv. assumption.
Qed.

Lemma processFeature_inv z acc entry :
  acc_inv acc -> acc_inv (processFeature z acc entry).
Proof.
  intros Hinv. destruct entry as [i f]. unfold processFeature.
  apply fold_visitTile_inv. assumption.
Qed.

Lemma fold_processFeature_inv z l acc :
  acc_inv acc -> acc_inv (fold_left (processFeature z) l acc).
Proof.
  revert acc. induction l as [|entry l IH]; simpl; intros acc Hinv; [assumption|].
  apply IH. apply processFeature_inv. assumption.
Qed.

Lemma scanGeoJSON_inv geojson minZoom maxZoom :
  acc_inv (scanGeoJSON geojson minZoom maxZoom).
Proof.
  unfold scanGeoJSON.
  assert (Hempty : acc_inv emptyAccumulator).
  { unfold acc_inv, emptyAccumulator. simpl. repeat split.
    - constructor.
    - intros Hin. apply elem_of_empty in Hin. contradiction.
    - intros Hin. apply elem_of_nil in Hin. contradiction.
    - constructor. }
  revert Hempty. generalize emptyAccumulator.
  induction (zoomLevels minZoom maxZoom) as [|z l IH]; simpl; intros acc Hinv;
    [assumption|].
  apply IH. apply fold_processFeature_inv. assumption.
Qed.

End geometry.

Lemma keyed_values_NoDup (m : list (string * Tile)) :
  NoDup (List.map fst m) ->
  Forall (fun kt => fst kt = tileKey (tile_z (snd kt)) (tile_x (snd kt)) (tile_y (snd kt))) m ->
  NoDup (List.map snd m).
Proof.
  induction m as [|[k t] m IH]; simpl; intros Hnd Hkeys; [constructor|].
  apply NoDup_cons in Hnd as [Hk Hnd]. inversion Hkeys as [|? ? Hkt Hrest]; subst.
  apply NoDup_cons. split; [|apply IH; assumption].
  intros Hin. apply Hk. simpl in Hkt.
  apply list_elem_of_fmap in Hin as ([k' t'] & Heq & Hin). simpl in Heq. subst t'.
  rewrite Forall_forall in Hrest. specialize (Hrest _ Hin). simpl in Hrest.
  apply list_elem_of_fmap. exists (k', t). split; [simpl; congruence | assumption].
Qed.

(** C6.  Whatever the GeoJSON input (a feature collection, a feature or a
    bare geometry) and the zoom range, the list [calculateTilesForGeoJSON]
    returns holds no tile twice: no two of its elements have the same
    (z, x, y). *)
Theorem calculateTilesForGeoJSON_NoDup `{Geodesy} (geojson : GeoJSON) (minZoom maxZoom : Z) :
  NoDup (calculateTilesForGeoJSON geojson minZoom maxZoom).
Proof.
  unfold calculateTilesForGeoJSON.
  destruct (scanGeoJSON_inv geojson minZoom maxZoom) as (Hnd & _ & Hkeys).
  apply keyed_values_NoDup; assumption.
Qed.

Lemma combine_seq_elem {A} (l : list A) n i a :
  (i, a) ∈ combine (seq n (length l)) l <-> (n <= i)%nat /\ l !! (i - n)%nat = Some a.
Proof.
  revert n. induction l as [|b l IH]; intros n; simpl.
  - split; [intros Hin; apply elem_of_nil in Hin; contradiction | intros [_ Hl]; discriminate].
  - rewrite elem_of_cons, IH. split.
    + intros [Heq | [Hle Hl]].
      * injection Heq as -> ->. split; [lia|]. replace (n - n)%nat with O by lia. reflexivity.
      * split; [lia|]. replace (i - n)%nat with (S (i - S n)) by lia. exact Hl.
    + intros [Hle Hl]. destruct (decide (i = n)) as [->|Hne].
      * left. replace (n - n)%nat with O in Hl by lia. simpl in Hl. congruence.
      * right. split; [lia|]. replace (i - n)%nat with (S (i - S n)) in Hl by lia. exact Hl.
Qed.

Lemma indexed_elem {A} (l : list A) i a : (i, a) ∈ indexed l <-> l !! i = Some a.
Proof.
  unfold indexed. rewrite combine_seq_elem. replace (i - 0)%nat with i by lia.
  split; [intros [_ Hl]; exact Hl | intros Hl; split; [lia | exact Hl]].
Qed.

Section large_regions.

Context `{Geodesy}.



Lemma visitTile_grows z i f skip acc xy :
  tileSet acc ⊆ tileSet (visitTile z i f skip acc xy).
Proof.
  destruct xy as [x y]. unfold visitTile.
  destruct (bool_decide (tileKey z x y ∈ tileSet acc)); [reflexivity|].
  destruct skip; [simpl; set_solver|].
  destruct (tileIntersectsFeature x y z f); simpl; set_solver.
Qed.

Lemma fold_visitTile_grows z i f skip l acc :
  tileSet acc ⊆ tileSet (fold_left (visitTile z i f skip) l acc).
Proof.
  revert acc. induction l as [|xy l IH]; simpl; intros acc; [reflexivity|].
  etransitivity; [apply visitTile_grows | apply IH].
Qed.

Lemma fold_processFeature_grows z l acc :
  tileSet acc ⊆ tileSet (fold_left (processFeature z) l acc).
Proof.
  revert acc. induction l as [|[i f] l IH]; simpl; intros acc; [reflexivity|].
  etransitivity; [|apply IH]. unfold processFeature. apply fold_visitTile_grows.
Qed.

Lemma fold_zoom_grows (features : list (nat * feature)) l acc :
  tileSet acc
  ⊆ tileSet (fold_left (fun acc z => fold_left (processFeature z) features acc) l acc).
Proof.
  revert acc. induction l as [|z l IH]; simpl; intros acc; [reflexivity|].
  etransitivity; [|apply IH]. apply fold_processFeature_grows.
Qed.


End large_regions.

Section threshold.

Context `{Geodesy}.

Variables (features : list feature) (z : Z) (i : nat) (f : feature).
Hypothesis Hfeature : features !! i = Some f.
Hypothesis Hlarge : largeRegionThreshold < potentialTileCount (featureRange f z).





End threshold.



(** ** URL templating *)

Section templating.

Import JsString.

Lemma startsWith_spec pat s :
  startsWith pat s = true -> s = pat +:+ drop (String.length pat) s.
Proof.
  revert s. induction pat as [|a pat IH]; intros [|b s]; simpl; try discriminate; auto.
  destruct (Ascii.eqb_spec a b) as [->|_]; [|discriminate].
  intros Hs. rewrite (IH s Hs) at 1. reflexivity.
Qed.

Lemma startsWith_app pat s b :
  startsWith pat s = true -> startsWith pat (s +:+ b) = true.
Proof.
  revert s. induction pat as [|a pat IH]; intros [|x s]; simpl; try discriminate; auto.
  destruct (Ascii.eqb a x); [apply IH | discriminate].
Qed.

Lemma search_spec pat s pre post :
  search pat s = Some (pre, post) -> s = pre +:+ pat +:+ post.
Proof.
  revert pre. induction s as [|c s IH]; intros pre; simpl.
  - destruct (startsWith pat EmptyString) eqn:Hsw; [|discriminate].
    intros [= <- <-]. simpl. apply startsWith_spec. exact Hsw.
  - destruct (startsWith pat (String c s)) eqn:Hsw.
    + intros [= <- <-]. simpl. apply startsWith_spec. exact Hsw.
    + destruct (search pat s) as [[a b]|]; [|discriminate].
      intros [= <- <-]. rewrite (IH a eq_refl) at 1. reflexivity.
Qed.

Lemma occurrences_app pat a b :
  (occurrences pat a + occurrences pat b <= occurrences pat (a +:+ b))%nat.
Proof.
  induction a as [|x a IH]; [change (EmptyString +:+ b) with b; simpl; lia|].
  change (String x a +:+ b) with (String x (a +:+ b)).
  change (occurrences pat (String x (a +:+ b)))
    with ((if startsWith pat (String x (a +:+ b)) then 1 else 0)
          + occurrences pat (a +:+ b))%nat.
  change (occurrences pat (String x a))
    with ((if startsWith pat (String x a) then 1 else 0) + occurrences pat a)%nat.
  destruct (startsWith pat (String x a)) eqn:Hsw.
  - apply (startsWith_app _ _ b) in Hsw.
    change (String x a +:+ b) with (String x (a +:+ b)) in Hsw. rewrite Hsw. lia.
  - destruct (startsWith pat (String x (a +:+ b))); lia.
Qed.

Lemma startsWith_placeholder c s :
  startsWith (placeholder c) s = true <->
  exists rest, s = String "{" (String c (String "}" rest)).
Proof.
  split.
  - intros Hsw. apply startsWith_spec in Hsw. eexists. exact Hsw.
  - intros [rest ->]. simpl. rewrite Ascii.eqb_refl. reflexivity.
Qed.

Lemma startsWith_placeholder_false c s :
  (forall rest, s <> String "{" (String c (String "}" rest))) ->
  startsWith (placeholder c) s = false.
Proof.
  intros Hne. destruct (startsWith (placeholder c) s) eqn:Hsw; [|reflexivity].
  apply startsWith_placeholder in Hsw as [rest ->]. exfalso. eapply Hne. reflexivity.
Qed.

(** Around an occurrence of a placeholder, an occurrence of a placeholder
    lies before it, is it, or lies after it. *)
Lemma occurrences_around c d pre post :
  c <> "{"%char -> d <> "{"%char ->
  (occurrences (placeholder c) (pre +:+ placeholder d +:+ post)
   <= occurrences (placeholder c) pre + (if Ascii.eqb c d then 1 else 0)
      + occurrences (placeholder c) post)%nat.
Proof.
  intros Hc Hd. induction pre as [|a pre IH].
  - change (EmptyString +:+ placeholder d +:+ post)
      with (String "{" (String d (String "}" post))).
    change (occurrences (placeholder c) (String "{" (String d (String "}" post))))
      with ((if startsWith (placeholder c) (String "{" (String d (String "}" post)))
             then 1 else 0)
            + ((if startsWith (placeholder c) (String d (String "}" post)) then 1 else 0)
               + ((if startsWith (placeholder c) (String "}" post) then 1 else 0)
                  + occurrences (placeholder c) post)))%nat.
    rewrite (startsWith_placeholder_false c (String d (String "}" post)))
      by (intros rest [= -> _]; congruence).
    rewrite (startsWith_placeholder_false c (String "}" post))
      by (intros rest [= ]).
    destruct (Ascii.eqb_spec c d) as [->|Hne].
    + destruct (startsWith _ _); simpl; lia.
    + rewrite startsWith_placeholder_false by (intros rest [= ->]; congruence).
      simpl. lia.
  - change (String a pre +:+ placeholder d +:+ post)
      with (String a (pre +:+ placeholder d +:+ post)).
    change (occurrences (placeholder c) (String a (pre +:+ placeholder d +:+ post)))
      with ((if startsWith (placeholder c) (String a (pre +:+ placeholder d +:+ post))
             then 1 else 0)
            + occurrences (placeholder c) (pre +:+ placeholder d +:+ post))%nat.
    change (occurrences (placeholder c) (String a pre))
      with ((if startsWith (placeholder c) (String a pre) then 1 else 0)
            + occurrences (placeholder c) pre)%nat.
    destruct (startsWith (placeholder c) (String a (pre +:+ placeholder d +:+ post)))
      eqn:Hsw; [|lia].
    apply startsWith_placeholder in Hsw as [rest Hrest].
    assert (Hin : startsWith (placeholder c) (String a pre) = true).
    { destruct pre as [|b [|b2 pre]]; simpl in Hrest.
      - injection Hrest as _ Hb _. congruence.
      - injection Hrest as _ _ Hb _. discriminate.
      - injection Hrest as -> -> -> _. apply startsWith_placeholder. eexists. reflexivity. }
    rewrite Hin. lia.
Qed.

(** A [replace] of a placeholder removes at most one occurrence of that
    placeholder and none of another one. *)
Lemma replace_occurrences c d s r :
  c <> "{"%char -> d <> "{"%char ->
  (occurrences (placeholder c) s
   <= (if Ascii.eqb c d then 1 else 0)
      + occurrences (placeholder c) (replace s (placeholder d) r))%nat.
Proof.
  intros Hc Hd. unfold replace.
  destruct (search (placeholder d) s) as [[pre post]|] eqn:Hsearch; [|lia].
  apply search_spec in Hsearch. rewrite Hsearch at 1.
  pose proof (occurrences_around c d pre post Hc Hd) as H1.
  pose proof (occurrences_app (placeholder c) pre
                (getSubstitution (placeholder d) pre post r +:+ post)) as H2.
  pose proof (occurrences_app (placeholder c)
                (getSubstitution (placeholder d) pre post r) post) as H3.
  lia.
Qed.

Lemma generateTileUrl_occurrences c rnd tileMap x y z :
  c <> "{"%char ->
  (occurrences (placeholder c) (Url tileMap)
   <= (if Ascii.eqb c "x" then 1 else 0) + (if Ascii.eqb c "y" then 1 else 0)
      + (if Ascii.eqb c "z" then 1 else 0) + (if Ascii.eqb c "s" then 1 else 0)
      + occurrences (placeholder c) (generateTileUrl rnd tileMap x y z))%nat.
Proof.
  intros Hc. unfold generateTileUrl.
  pose proof (replace_occurrences c "x" (Url tileMap) (toString x) Hc ltac:(discriminate))
    as H1.
  change (placeholder "x") with placeholder_x in H1. set (u1 := replace (Url tileMap) placeholder_x (toString x)) in *.
  pose proof (replace_occurrences c "y" u1 (toString y) Hc ltac:(discriminate)) as H2.
  change (placeholder "y") with placeholder_y in H2. set (u2 := replace u1 placeholder_y (toString y)) in *.
  pose proof (replace_occurrences c "z" u2 (toString z) Hc ltac:(discriminate)) as H3.
  change (placeholder "z") with placeholder_z in H3. set (u3 := replace u2 placeholder_z (toString z)) in *.
  destruct (truthy (Subdomains tileMap) && includes u3 placeholder_s).
  - match goal with |- context [replace u3 placeholder_s ?sub] =>
      pose proof (replace_occurrences c "s" u3 sub Hc ltac:(discriminate)) as H4 end.
    change (placeholder "s") with placeholder_s in H4. lia.
  - lia.
Qed.

Lemma search_earliest pat s : forall pre post,
  search pat s = Some (pre, post) ->
  forall a b, pre = a +:+ b -> isEmpty b = false ->
  startsWith pat (b +:+ pat +:+ post) = false.
Proof.
  induction s as [|c s IH]; intros pre post; simpl.
  - destruct (startsWith pat EmptyString); [|discriminate].
    intros [= <- <-] a b Hab Hb. destruct a, b; discriminate.
  - destruct (startsWith pat (String c s)) eqn:Hsw.
    + intros [= <- <-] a b Hab Hb. destruct a, b; discriminate.
    + destruct (search pat s) as [[pre' post']|] eqn:Hsearch; [|discriminate].
      intros [= <- <-] a b Hab Hb. destruct a as [|c' a].
      * change (EmptyString +:+ b) with b in Hab. subst b.
        change (String c pre' +:+ pat +:+ post')
          with (String c (pre' +:+ pat +:+ post')).
        rewrite <- (search_spec _ _ _ _ Hsearch). exact Hsw.
      * change (String c' a +:+ b) with (String c' (a +:+ b)) in Hab.
        injection Hab as _ Hab. exact (IH pre' post' eq_refl a b Hab Hb).
Qed.

Lemma search_none pat s : search pat s = None -> occurrences pat s = O.
Proof.
  induction s as [|c s IH]; simpl; [reflexivity|].
  destruct (startsWith pat (String c s)); [discriminate|].
  destruct (search pat s) as [[a b]|]; [discriminate|]. auto.
Qed.

End templating.

(** C10.  For every URL template and each of the placeholders [{x}], [{y}],
    [{z}] and [{s}], [generateTileUrl] removes at most one occurrence: the
    URL returned has at least all the occurrences of the template but one.
    The one [replace] takes is the first: the text is cut at an occurrence
    with none starting before it, and what follows is kept verbatim.  And
    there is a template with every placeholder twice in which the first
    occurrence of each is substituted and the second is left as it is. *)
Theorem generateTileUrl_first_occurrence_only :
  (forall rnd tileMap x y z,
      Forall (fun p =>
                (JsString.occurrences p (Url tileMap)
                 <= 1 + JsString.occurrences p (generateTileUrl rnd tileMap x y z))%nat)
        placeholders)
  /\ (forall s pat repl,
        match JsString.search pat s with
        | Some (pre, post) =>
            s = pre +:+ pat +:+ post
            /\ JsString.replace s pat repl
               = pre +:+ JsString.getSubstitution pat pre post repl +:+ post
            /\ (forall a b, pre = a +:+ b -> JsString.isEmpty b = false ->
                 JsString.startsWith pat (b +:+ pat +:+ post) = false)
        | None => JsString.replace s pat repl = s /\ JsString.occurrences pat s = O
        end)
  /\ generateTileUrl 0
       (mkTileMap "Twice" "https://{s}.{s}/{z}/{z}/{x}/{x}/{y}/{y}.png" (Some "a,b,c") "png")
       1 2 3
     = "https://a.{s}/3/{z}/1/{x}/2/{y}.png".
Proof.
  split; [|split; [|vm_compute; reflexivity]].
  - intros rnd tileMap x y z. unfold placeholders.
    apply Forall_cons; split; [|apply Forall_cons; split;
      [|apply Forall_cons; split; [|apply Forall_cons; split; [|apply Forall_nil; exact I]]]].
    + exact (generateTileUrl_occurrences "x" rnd tileMap x y z ltac:(discriminate)).
    + exact (generateTileUrl_occurrences "y" rnd tileMap x y z ltac:(discriminate)).
    + exact (generateTileUrl_occurrences "z" rnd tileMap x y z ltac:(discriminate)).
    + exact (generateTileUrl_occurrences "s" rnd tileMap x y z ltac:(discriminate)).
  - intros s pat repl. unfold JsString.replace.
    destruct (JsString.search pat s) as [[pre post]|] eqn:Hsearch.
    + split; [exact (search_spec _ _ _ _ Hsearch)|]. split; [reflexivity|].
      exact (search_earliest _ _ _ _ Hsearch).
    + split; [reflexivity | exact (search_none _ _ Hsearch)].
Qed.

(** ** The path encoder *)

Section paths.

Import JsString.

Lemma append_cons c a b : String c a +:+ b = String c (a +:+ b).
Proof. reflexivity. Qed.

Lemma append_nil b : EmptyString +:+ b = b.
Proof. reflexivity. Qed.

Lemma append_assoc a b c : (a +:+ b) +:+ c = a +:+ b +:+ c.
Proof. induction a as [|x a IH]; [reflexivity|]. rewrite !append_cons, IH. reflexivity. Qed.

Lemma split_nonnil sep s : split sep s <> [].
Proof.
  destruct s as [|c s]; simpl; [discriminate|].
  destruct (Ascii.eqb c sep); [discriminate|]. destruct (split sep s); discriminate.
Qed.

Lemma split_no_sep sep s : contains sep s = false -> split sep s = [s].
Proof.
  induction s as [|c s IH]; simpl; [reflexivity|].
  intros Hc. apply orb_false_iff in Hc as [Hc Hs].
  rewrite Ascii.eqb_sym, Hc, (IH Hs). reflexivity.
Qed.

Lemma split_app_sep sep a b :
  split sep (a +:+ String sep b) = split sep a ++ split sep b.
Proof.
  induction a as [|c a IH].
  - rewrite append_nil. simpl. rewrite Ascii.eqb_refl. reflexivity.
  - rewrite append_cons. simpl. rewrite IH.
    destruct (Ascii.eqb c sep); [reflexivity|].
    destruct (split sep a) as [|seg rest] eqn:Hsplit; [|reflexivity].
    exfalso. exact (split_nonnil _ _ Hsplit).
Qed.

Lemma split_slashfree sep s : Forall (fun seg => contains sep seg = false) (split sep s).
Proof.
  induction s as [|c s IH]; simpl; [repeat constructor|].
  destruct (Ascii.eqb c sep) eqn:Hc; [constructor; [reflexivity | exact IH]|].
  destruct (split sep s) as [|seg rest]; [repeat constructor; simpl; rewrite Ascii.eqb_sym, Hc; reflexivity|].
  inversion IH; subst. constructor; [|assumption].
  simpl. rewrite Ascii.eqb_sym, Hc. assumption.
Qed.

Lemma joinWith_cons sep s t l :
  joinWith sep (s :: t :: l) = s +:+ sep +:+ joinWith sep (t :: l).
Proof. reflexivity. Qed.

Lemma split_joinWith l :
  l <> [] -> Forall (fun seg => contains "/" seg = false) l ->
  split "/" (joinWith Path.slash l) = l.
Proof.
  induction l as [|s [|t l] IH]; intros Hne Hall; [congruence| |].
  - simpl. inversion Hall; subst. apply split_no_sep. assumption.
  - rewrite joinWith_cons. inversion Hall; subst.
    change (Path.slash +:+ joinWith Path.slash (t :: l))
      with (String "/" (joinWith Path.slash (t :: l))).
    rewrite split_app_sep, IH by (assumption || discriminate).
    rewrite split_no_sep by assumption. reflexivity.
Qed.



Lemma clean_spec s :
  clean s = true ->
  isEmpty s = false /\ contains "/" s = false
  /\ String.eqb s Path.dot = false /\ String.eqb s Path.dotdot = false.
Proof.
  unfold clean. rewrite !andb_true_iff, !negb_true_iff. tauto.
Qed.

Lemma normalizeStep_clean b stack seg :
  clean seg = true -> Path.normalizeStep b stack seg = seg :: stack.
Proof.
  intros Hc. apply clean_spec in Hc as (H1 & _ & H3 & H4).
  unfold Path.normalizeStep. rewrite H1, H3, H4. reflexivity.
Qed.

Lemma fold_normalizeStep_clean b segs stack :
  Forall (fun s => clean s = true) segs ->
  fold_left (Path.normalizeStep b) segs stack = rev segs ++ stack.
Proof.
  revert stack. induction segs as [|s segs IH]; intros stack Hall; [reflexivity|].
  inversion Hall; subst. simpl. rewrite normalizeStep_clean by assumption.
  rewrite IH by assumption. rewrite <- app_assoc. reflexivity.
Qed.

(** The segments kept by [normalizeString] are not empty and hold no
    slash. *)
Lemma normalizeStep_kept b stack seg :
  contains "/" seg = false ->
  Forall (fun s => isEmpty s = false /\ contains "/" s = false) stack ->
  Forall (fun s => isEmpty s = false /\ contains "/" s = false)
    (Path.normalizeStep b stack seg).
Proof.
  intros Hseg Hst. unfold Path.normalizeStep.
  destruct (isEmpty seg) eqn:He; [assumption|].
  destruct (String.eqb seg Path.dot); [assumption|].
  destruct (String.eqb seg Path.dotdot).
  - destruct stack as [|top rest].
    + destruct b; repeat constructor.
    + destruct (String.eqb top Path.dotdot).
      * destruct b; [constructor; [split; reflexivity | assumption] | assumption].
      * inversion Hst; assumption.
  - constructor; [split; assumption | assumption].
Qed.

Lemma fold_normalizeStep_kept b segs stack :
  Forall (fun s => contains "/" s = false) segs ->
  Forall (fun s => isEmpty s = false /\ contains "/" s = false) stack ->
  Forall (fun s => isEmpty s = false /\ contains "/" s = false)
    (fold_left (Path.normalizeStep b) segs stack).
Proof.
  revert stack. induction segs as [|s segs IH]; intros stack Hall Hst; [assumption|].
  inversion Hall; subst. simpl. apply IH; [assumption|].
  apply normalizeStep_kept; assumption.
Qed.

Lemma isEmpty_append a b : isEmpty (a +:+ b) = isEmpty a && isEmpty b.
Proof. destruct a; reflexivity. Qed.

Lemma lastChar_append a b : isEmpty b = false -> lastChar (a +:+ b) = lastChar b.
Proof.
  intros Hb. induction a as [|c a IH]; [reflexivity|].
  rewrite append_cons. simpl. rewrite IH.
  destruct (a +:+ b) eqn:Hab; [|reflexivity].
  assert (isEmpty (a +:+ b) = true) by (rewrite Hab; reflexivity).
  rewrite isEmpty_append, Hb, andb_false_r in H. discriminate.
Qed.

Lemma lastChar_contains s c : lastChar s = Some c -> contains c s = true.
Proof.
  induction s as [|a s IH]; simpl; [discriminate|].
  destruct s as [|a' s'].
  - intros [= ->]. rewrite Ascii.eqb_refl. reflexivity.
  - intros Hl. rewrite (IH Hl). apply orb_true_r.
Qed.


Lemma trailing_slashfree s : contains "/" s = false -> trailing s = false.
Proof.
  intros Hs. unfold trailing. destruct (lastChar s) as [c|] eqn:Hl; [|reflexivity].
  apply lastChar_contains in Hl. destruct (Ascii.eqb_spec c "/") as [->|]; congruence.
Qed.

Lemma trailing_append a b : isEmpty b = false -> trailing (a +:+ b) = trailing b.
Proof. intros Hb. unfold trailing. rewrite lastChar_append by assumption. reflexivity. Qed.


Lemma joinWith_head_nonempty sep s l :
  isEmpty s = false -> isEmpty (joinWith sep (s :: l)) = false.
Proof.
  intros Hs. destruct l as [|t l]; [exact Hs|].
  rewrite joinWith_cons, isEmpty_append, Hs. reflexivity.
Qed.

Lemma joinWith_snoc sep l s :
  l <> [] -> joinWith sep (l ++ [s]) = joinWith sep l +:+ sep +:+ s.
Proof.
  induction l as [|a [|b l] IH]; intros Hne; [congruence|reflexivity|].
  change ((a :: b :: l) ++ [s]) with (a :: b :: (l ++ [s])).
  rewrite !joinWith_cons. change (b :: l ++ [s]) with ((b :: l) ++ [s]).
  rewrite IH by discriminate. rewrite !append_assoc. reflexivity.
Qed.

Lemma startsWith_slash_append a b :
  isEmpty a = false -> startsWith Path.slash (a +:+ b) = startsWith Path.slash a.
Proof.
  destruct a as [|c a]; [discriminate|]. intros _. rewrite append_cons.
  unfold Path.slash. simpl. destruct (Ascii.eqb "/" c); reflexivity.
Qed.

Lemma startsWith_slash_slashfree a :
  contains "/" a = false -> startsWith Path.slash a = false.
Proof.
  destruct a as [|c a]; [reflexivity|]. simpl.
  intros Hc. apply orb_false_iff in Hc as [Hc _]. rewrite Hc. reflexivity.
Qed.

Lemma append_inv_head a b c : a +:+ b = a +:+ c -> b = c.
Proof.
  induction a as [|x a IH]; [auto|]. rewrite !append_cons. intros [= Heq]. auto.
Qed.


Section suffix.

Variable segs : list string.
Hypothesis Hsegs : segs <> [].
Hypothesis Hclean : Forall (fun s => clean s = true) segs.

Local Notation "'JS'" := (joinWith Path.slash segs).

Lemma suffix_nonempty : isEmpty JS = false.
Proof.
  destruct segs as [|s l]; [congruence|].
  apply joinWith_head_nonempty. inversion Hclean; subst.
  apply clean_spec in H1. tauto.
Qed.

Lemma suffix_trailing : trailing JS = false.
Proof.
  destruct (exists_last Hsegs) as (l & s & Heq). rewrite Heq in *.
  apply Forall_app in Hclean as [Hl Hs]. inversion Hs; subst.
  apply clean_spec in H1 as (He & Hsl & _).
  destruct l as [|a l].
  - simpl. apply trailing_slashfree. assumption.
  - rewrite joinWith_snoc by discriminate.
    rewrite <- append_assoc, trailing_append by assumption.
    apply trailing_slashfree. assumption.
Qed.

Lemma suffix_relative : startsWith Path.slash JS = false.
Proof.
  destruct segs as [|s l]; [congruence|].
  inversion Hclean; subst. apply clean_spec in H1 as (He & Hsl & _).
  destruct l as [|t l]; [simpl; apply startsWith_slash_slashfree; assumption|].
  rewrite joinWith_cons, startsWith_slash_append by assumption.
  apply startsWith_slash_slashfree. assumption.
Qed.

Variable front : list string.
Hypothesis Hfront : Forall (fun s => isEmpty s = false) front.

Local Notation "'J'" := (joinWith Path.slash (front ++ [joinWith Path.slash segs])).

Lemma joined_cases :
  (front = [] /\ J = JS)
  \/ (front <> [] /\ J = joinWith Path.slash front +:+ Path.slash +:+ JS).
Proof.
  destruct front as [|f front']; [left; auto|right].
  split; [discriminate|]. apply joinWith_snoc. discriminate.
Qed.

Lemma joined_nonempty : isEmpty J = false.
Proof.
  destruct joined_cases as [[_ ->]|[_ ->]]; [apply suffix_nonempty|].
  rewrite !isEmpty_append, suffix_nonempty, !andb_false_r. reflexivity.
Qed.

Lemma joined_trailing : trailing J = false.
Proof.
  destruct joined_cases as [[_ ->]|[_ ->]]; [apply suffix_trailing|].
  rewrite <- append_assoc, trailing_append by apply suffix_nonempty.
  apply suffix_trailing.
Qed.

Lemma joined_absolute : startsWith Path.slash J = absolute front.
Proof.
  destruct front as [|f front']; [apply suffix_relative|].
  inversion Hfront; subst.
  change ((f :: front') ++ [JS]) with (f :: (front' ++ [JS])).
  destruct (front' ++ [JS]) as [|t l] eqn:Hl; [destruct front'; discriminate|].
  rewrite joinWith_cons, startsWith_slash_append by assumption. reflexivity.
Qed.

Lemma joined_split : split "/" J = concat (List.map (split "/") front) ++ segs.
Proof.
  clear Hfront. induction front as [|f front' IH].
  - simpl. apply split_joinWith; [assumption|].
    eapply Forall_impl; [exact Hclean|]. intros s Hs. apply clean_spec in Hs. tauto.
  - change ((f :: front') ++ [JS]) with (f :: (front' ++ [JS])).
    destruct (front' ++ [JS]) as [|t l] eqn:Hl; [destruct front'; discriminate|].
    rewrite joinWith_cons.
    change (Path.slash +:+ joinWith Path.slash (t :: l))
      with (String "/" (joinWith Path.slash (t :: l))).
    rewrite split_app_sep, IH. simpl. rewrite app_assoc. reflexivity.
Qed.

Lemma joined_normalizeString :
  Path.normalizeString (negb (absolute front)) J = joinWith Path.slash (kept front ++ segs).
Proof.
  unfold Path.normalizeString, kept. rewrite joined_split, fold_left_app.
  rewrite fold_normalizeStep_clean by assumption.
  rewrite rev_app_distr, rev_involutive. reflexivity.
Qed.

Lemma kept_segments :
  Forall (fun s => isEmpty s = false /\ contains "/" s = false) (kept front).
Proof.
  unfold kept. apply Forall_rev. apply fold_normalizeStep_kept; [|constructor].
  clear. induction front as [|f front' IH]; simpl; [constructor|].
  apply Forall_app. split; [apply split_slashfree | exact IH].
Qed.

Lemma kept_suffix_nonempty : isEmpty (joinWith Path.slash (kept front ++ segs)) = false.
Proof.
  pose proof kept_segments as Hk.
  destruct (kept front) as [|k l].
  - simpl. apply suffix_nonempty.
  - inversion Hk; subst. change ((k :: l) ++ segs) with (k :: (l ++ segs)).
    apply joinWith_head_nonempty. tauto.
Qed.

Lemma normalize_joined :
  Path.normalize J
  = (if absolute front then Path.slash else EmptyString)
    +:+ joinWith Path.slash (kept front ++ segs).
Proof.
  unfold Path.normalize. rewrite joined_nonempty.
  fold (trailing J). rewrite joined_trailing, joined_absolute, joined_normalizeString.
  rewrite kept_suffix_nonempty.
  destruct (absolute front); reflexivity.
Qed.

End suffix.

Lemma Path_join_filter args :
  List.filter (fun a => negb (isEmpty a)) args <> [] ->
  Path.join args
  = Path.normalize (joinWith Path.slash (List.filter (fun a => negb (isEmpty a)) args)).
Proof. unfold Path.join. destruct (List.filter _ args); [congruence | reflexivity]. Qed.

Lemma filter_nonempty l :
  Forall (fun s => isEmpty s = false) (List.filter (fun a => negb (isEmpty a)) l).
Proof.
  apply Forall_forall. intros s Hin. apply list_elem_of_In, filter_In in Hin as [_ Hs].
  apply negb_true_iff. exact Hs.
Qed.

Lemma join_suffix (front segs : list string) :
  segs <> [] -> Forall (fun s => clean s = true) segs ->
  Path.join (front ++ [joinWith Path.slash segs])
  = (if absolute (List.filter (fun a => negb (isEmpty a)) front) then Path.slash else EmptyString)
    +:+ joinWith Path.slash (kept (List.filter (fun a => negb (isEmpty a)) front) ++ segs).
Proof.
  intros Hne Hclean.
  assert (Hfilter : List.filter (fun a => negb (isEmpty a)) (front ++ [joinWith Path.slash segs])
                    = List.filter (fun a => negb (isEmpty a)) front ++ [joinWith Path.slash segs]).
  { rewrite List.filter_app. simpl. rewrite (suffix_nonempty segs Hne Hclean). reflexivity. }
  rewrite Path_join_filter; rewrite Hfilter.
  - apply normalize_joined; [assumption | assumption | apply filter_nonempty].
  - destruct (List.filter _ front); discriminate.
Qed.

Lemma normalize_clean segs :
  segs <> [] -> Forall (fun s => clean s = true) segs ->
  Path.normalize (joinWith Path.slash segs) = joinWith Path.slash segs.
Proof.
  intros Hne Hclean.
  exact (normalize_joined segs Hne Hclean [] (Forall_nil_2 _)).
Qed.

(** Two paths under the same cache folder and tile map are equal only when
    their segments are. *)
Lemma join_suffix_inj front segs segs' :
  segs <> [] -> Forall (fun s => clean s = true) segs ->
  segs' <> [] -> Forall (fun s => clean s = true) segs' ->
  Path.join (front ++ [joinWith Path.slash segs])
  = Path.join (front ++ [joinWith Path.slash segs']) ->
  segs = segs'.
Proof.
  intros Hne Hclean Hne' Hclean' Heq.
  rewrite !join_suffix in Heq by assumption.
  apply append_inv_head in Heq.
  set (front' := List.filter (fun a => negb (isEmpty a)) front) in *.
  assert (Hsplit : forall l, l <> [] -> Forall (fun s => clean s = true) l ->
            split "/" (joinWith Path.slash (kept front' ++ l)) = kept front' ++ l).
  { intros l Hl Hcl. apply split_joinWith.
    - destruct (kept front'); [assumption | discriminate].
    - apply Forall_app. split.
      + eapply Forall_impl; [apply kept_segments|]. simpl. tauto.
      + eapply Forall_impl; [exact Hcl|]. intros s Hs. apply clean_spec in Hs. tauto. }
  apply (f_equal (split "/")) in Heq.
  rewrite !Hsplit in Heq by assumption.
  apply app_inv_head in Heq. exact Heq.
Qed.

Lemma append_empty_r a : a +:+ EmptyString = a.
Proof. induction a as [|c a IH]; [reflexivity|]. rewrite append_cons, IH. reflexivity. Qed.

Lemma chars_append a b : chars (a +:+ b) = chars a ++ chars b.
Proof. induction a as [|c a IH]; [reflexivity|]. rewrite append_cons. simpl. rewrite IH. reflexivity. Qed.

Lemma chars_inj a b : chars a = chars b -> a = b.
Proof.
  revert b. induction a as [|c a IH]; intros [|d b]; simpl; try discriminate; auto.
  intros [= -> Heq]. f_equal. auto.
Qed.

Lemma chars_length a : length (chars a) = String.length a.
Proof. induction a as [|c a IH]; simpl; auto. Qed.

(** The directories of the level path. *)
Lemma levelDirs_spec s : forall ds,
  Forall (fun d => clean d = true) (ds ++ chars s) ->
  levelDirs (joinWith Path.slash ds) s = joinWith Path.slash (ds ++ chars s).
Proof.
  induction s as [|c s IH]; intros ds Hclean; simpl.
  - rewrite app_nil_r. reflexivity.
  - assert (Hds : Forall (fun d => clean d = true) (ds ++ [String c EmptyString])).
    { apply Forall_app in Hclean as [H1 H2]. inversion H2; subst.
      apply Forall_app. split; [assumption | repeat constructor; assumption]. }
    assert (Hjoin : Path.join [joinWith Path.slash ds; String c EmptyString]
                    = joinWith Path.slash (ds ++ [String c EmptyString])).
    { destruct ds as [|d ds'].
      - simpl. unfold Path.join. simpl.
        apply (normalize_clean [String c EmptyString]); [discriminate | exact Hds].
      - assert (Hd : isEmpty (joinWith Path.slash (d :: ds')) = false).
        { apply joinWith_head_nonempty. inversion Hds; subst.
          apply clean_spec in H1. tauto. }
        unfold Path.join. cbn [List.filter]. rewrite Hd. cbn [isEmpty negb].
        change (joinWith Path.slash [joinWith Path.slash (d :: ds'); String c EmptyString])
          with (joinWith Path.slash (d :: ds') +:+ Path.slash +:+ String c EmptyString).
        rewrite <- (joinWith_snoc Path.slash (d :: ds')) by discriminate.
        apply normalize_clean; [discriminate | exact Hds]. }
    rewrite Hjoin, IH; rewrite <- app_assoc; [reflexivity | exact Hclean].
Qed.

Lemma quadrant_cases x y :
  toString (quadrant x y) = "0" \/ toString (quadrant x y) = "1"
  \/ toString (quadrant x y) = "2" \/ toString (quadrant x y) = "3".
Proof.
  unfold quadrant. destruct (Z.rem x 2 =? 1), (Z.rem y 2 =? 1); simpl; auto.
Qed.

Lemma veDigits_builder n : forall x y b,
  veDigits n x y b = veDigits n x y EmptyString +:+ b.
Proof.
  induction n as [|n IH]; intros x y b; simpl; [reflexivity|].
  rewrite IH. rewrite (IH _ _ (_ +:+ EmptyString)).
  rewrite append_empty_r, append_assoc. reflexivity.
Qed.

Lemma veDigits_succ n x y :
  veDigits (S n) x y EmptyString
  = veDigits n (x / 2) (y / 2) EmptyString +:+ toString (quadrant x y).
Proof.
  simpl. rewrite veDigits_builder, append_empty_r. reflexivity.
Qed.

Lemma length_append a b : String.length (a +:+ b) = (String.length a + String.length b)%nat.
Proof. induction a as [|c a IH]; [reflexivity|]. rewrite append_cons. simpl. rewrite IH. reflexivity. Qed.

Lemma veDigits_length n : forall x y, String.length (veDigits n x y EmptyString) = n.
Proof.
  induction n as [|n IH]; intros x y; [reflexivity|].
  rewrite veDigits_succ, length_append, IH.
  destruct (quadrant_cases x y) as [-> | [-> | [-> | ->]]]; simpl; lia.
Qed.

Lemma veDigits_clean n : forall x y,
  Forall (fun d => clean d = true) (chars (veDigits n x y EmptyString)).
Proof.
  induction n as [|n IH]; intros x y; [constructor|].
  rewrite veDigits_succ, chars_append. apply Forall_app. split; [apply IH|].
  destruct (quadrant_cases x y) as [-> | [-> | [-> | ->]]]; repeat constructor.
Qed.

Lemma append_inj_length a a' b b' :
  String.length a = String.length a' -> a +:+ b = a' +:+ b' -> a = a' /\ b = b'.
Proof.
  revert a'. induction a as [|c a IH]; intros [|c' a'] Hlen Heq; simpl in Hlen;
    try discriminate.
  - auto.
  - rewrite !append_cons in Heq. injection Heq as -> Heq.
    destruct (IH a' ltac:(lia) Heq) as [-> ->]. auto.
Qed.

Lemma quadrant_inj x y x' y' :
  0 <= x -> 0 <= y -> 0 <= x' -> 0 <= y' ->
  quadrant x y = quadrant x' y' -> x mod 2 = x' mod 2 /\ y mod 2 = y' mod 2.
Proof.
  intros Hx Hy Hx' Hy'. unfold quadrant.
  rewrite !Z.rem_mod_nonneg by lia.
  pose proof (Z.mod_pos_bound x 2 ltac:(lia)).
  pose proof (Z.mod_pos_bound y 2 ltac:(lia)).
  pose proof (Z.mod_pos_bound x' 2 ltac:(lia)).
  pose proof (Z.mod_pos_bound y' 2 ltac:(lia)).
  destruct (Z.eqb_spec (x mod 2) 1), (Z.eqb_spec (y mod 2) 1),
    (Z.eqb_spec (x' mod 2) 1), (Z.eqb_spec (y' mod 2) 1); lia.
Qed.

(** The quadrant digits of [n] levels determine the tile among the
    [2^n] by [2^n] tiles of the level. *)
Lemma veDigits_inj n : forall x y x' y',
  0 <= x < 2 ^ Z.of_nat n -> 0 <= y < 2 ^ Z.of_nat n ->
  0 <= x' < 2 ^ Z.of_nat n -> 0 <= y' < 2 ^ Z.of_nat n ->
  veDigits n x y EmptyString = veDigits n x' y' EmptyString ->
  x = x' /\ y = y'.
Proof.
  induction n as [|n IH]; intros x y x' y' Hx Hy Hx' Hy' Heq.
  - simpl in *. lia.
  - rewrite !veDigits_succ in Heq.
    apply append_inj_length in Heq as [Hhigh Hlow]; [|rewrite !veDigits_length; reflexivity].
    apply toString_inj in Hlow.
    apply quadrant_inj in Hlow as [Hxm Hym]; try lia.
    rewrite Nat2Z.inj_succ, Z.pow_succ_r in * by lia.
    apply IH in Hhigh as [Hxd Hyd];
      try (split; [apply Z.div_pos; lia | apply Z.div_lt_upper_bound; lia]).
    rewrite (Z.div_mod x 2), (Z.div_mod x' 2), (Z.div_mod y 2), (Z.div_mod y' 2) by lia.
    lia.
Qed.

Lemma repeat_no_slash s n : contains "/" s = false -> contains "/" (repeat s n) = false.
Proof.
  intros Hs. induction n as [|n IH]; [reflexivity|].
  simpl. rewrite contains_app, Hs, IH. reflexivity.
Qed.

Lemma coordField_no_slash i : contains "/" (coordField i) = false.
Proof.
  unfold coordField. destruct ((i <? 100000000) && (0 <=? i)).
  - rewrite contains_app, repeat_no_slash, toString_no_slash; reflexivity.
  - destruct (100000000 <=? i); reflexivity.
Qed.

Lemma levelField_no_slash level : contains "/" (levelField level) = false.
Proof.
  unfold levelField. destruct ((level <? 100) && (0 <=? level)).
  - destruct (level <? 10); [rewrite contains_app|]; rewrite toString_no_slash; reflexivity.
  - destruct (100 <=? level); reflexivity.
Qed.

Lemma underscore_clean s :
  contains "_" s = true -> contains "/" s = false -> clean s = true.
Proof.
  intros Hu Hs. unfold clean. rewrite Hs.
  destruct s as [|c s]; [discriminate|].
  destruct (String.eqb_spec (String c s) Path.dot) as [Heq|_];
    [rewrite Heq in Hu; discriminate|].
  destruct (String.eqb_spec (String c s) Path.dotdot) as [Heq|_];
    [rewrite Heq in Hu; discriminate|].
  reflexivity.
Qed.

(** The file name is one segment of the path. *)
Lemma fileName_clean name x y z format :
  contains "/" name = false -> contains "/" format = false ->
  clean (getOutputTileName name z x y +:+ Path.dot +:+ format) = true.
Proof.
  intros Hname Hformat. unfold getOutputTileName. apply underscore_clean.
  - rewrite !contains_app. change (contains "_" underscore) with true.
    rewrite orb_true_r. reflexivity.
  - rewrite !contains_app, Hname, Hformat, levelField_no_slash, !coordField_no_slash.
    reflexivity.
Qed.

Lemma veDigits_not_underscore n x y :
  veDigits (S n) x y EmptyString <> underscore.
Proof.
  rewrite veDigits_succ. intros Heq. apply (f_equal lastChar) in Heq.
  destruct (quadrant_cases x y) as [Hq | [Hq | [Hq | Hq]]]; rewrite Hq in Heq;
    rewrite lastChar_append in Heq by reflexivity; discriminate.
Qed.

Lemma pathSegments_clean name x y z format :
  contains "/" name = false -> contains "/" format = false ->
  Forall (fun s => clean s = true) (pathSegments name x y z format)
  /\ pathSegments name x y z format <> [].
Proof.
  intros Hname Hformat. unfold pathSegments. split.
  - apply Forall_app. split.
    + destruct (z =? 0); [constructor|]. unfold getMicrosoftVETile.
      destruct (z =? 0); [repeat constructor | apply veDigits_clean].
    + repeat constructor. apply fileName_clean; assumption.
  - destruct (if z =? 0 then [] else _); discriminate.
Qed.

(** The path is the cache folder and the tile map name joined with the
    segments of the tile: a directory per level, then the file. *)
Lemma generateTilePath_segments cfg name x y z format :
  0 <= z -> contains "/" name = false -> contains "/" format = false ->
  generateTilePath cfg name x y z format
  = Path.join ([TileCacheFolder cfg; name]
               ++ [joinWith Path.slash (pathSegments name x y z format)]).
Proof.
  intros Hz Hname Hformat.
  pose proof (fileName_clean name x y z format Hname Hformat) as Hfile.
  unfold generateTilePath, pathSegments, createTileLevelPath, getMicrosoftVETile.
  destruct (Z.eqb_spec z 0) as [->|Hnz].
  - reflexivity.
  - destruct (Z.to_nat z) as [|n] eqn:Hn; [lia|].
    destruct (String.eqb_spec (veDigits (S n) x y EmptyString) underscore) as [Heq|_];
      [exfalso; exact (veDigits_not_underscore n x y Heq)|].
    pose proof (veDigits_clean (S n) x y) as Hdigits.
    rewrite (levelDirs_spec _ []) by exact Hdigits.
    change ([] ++ chars (veDigits (S n) x y EmptyString))
      with (chars (veDigits (S n) x y EmptyString)).
    assert (Hne : chars (veDigits (S n) x y EmptyString) <> []).
    { intros Hnil. apply (f_equal (@length _)) in Hnil.
      rewrite chars_length, veDigits_length in Hnil. discriminate. }
    rewrite (suffix_nonempty _ Hne Hdigits). cbn [negb].
    rewrite joinWith_snoc by exact Hne.
    set (tlp := joinWith Path.slash (chars (veDigits (S n) x y EmptyString))).
    set (file := getOutputTileName name z x y +:+ Path.dot +:+ format).
    assert (Htlp : isEmpty tlp = false) by exact (suffix_nonempty _ Hne Hdigits).
    assert (Hf : isEmpty file = false).
    { apply clean_spec in Hfile. tauto. }
    unfold Path.join.
    change [TileCacheFolder cfg; name; tlp; file]
      with ([TileCacheFolder cfg; name] ++ [tlp; file]).
    rewrite !List.filter_app. cbn [List.filter].
    rewrite Htlp, Hf, isEmpty_append, Htlp. cbn [negb andb].
    destruct (negb (isEmpty (TileCacheFolder cfg))), (negb (isEmpty name)); reflexivity.
Qed.

Lemma pathSegments_inj name format x y z x' y' z' :
  0 <= z -> 0 <= x < 2 ^ z -> 0 <= y < 2 ^ z ->
  0 <= z' -> 0 <= x' < 2 ^ z' -> 0 <= y' < 2 ^ z' ->
  pathSegments name x y z format = pathSegments name x' y' z' format ->
  z = z' /\ x = x' /\ y = y'.
Proof.
  intros Hz Hx Hy Hz' Hx' Hy' Heq. unfold pathSegments in Heq.
  apply app_inj_tail in Heq as [Heq _].
  assert (Hlen : forall z x y, 0 <= z ->
            length (if z =? 0 then [] else chars (getMicrosoftVETile z x y)) = Z.to_nat z).
  { intros w u v Hw. unfold getMicrosoftVETile.
    destruct (Z.eqb_spec w 0) as [->|Hnz]; [reflexivity|].
    rewrite chars_length, veDigits_length. reflexivity. }
  assert (Hzz : z = z').
  { apply (f_equal (@length _)) in Heq. rewrite !Hlen in Heq by assumption. lia. }
  subst z'. split; [reflexivity|].
  unfold getMicrosoftVETile in Heq.
  destruct (Z.eqb_spec z 0) as [->|Hnz]; [simpl in *; lia|].
  apply chars_inj in Heq.
  apply veDigits_inj in Heq; rewrite ?Z2Nat.id by lia; assumption.
Qed.

End paths.

(** C7 (as amended).  [generateTilePath] is a function of its arguments and
    of the cache folder; for a tile-map name and a format without a slash,
    two distinct tiles of the slippy-map range ([0 <= x, y < 2^z]) have
    distinct paths: the directories of the level path tell them apart, also
    where the file name is clamped. *)
Theorem generateTilePath_injective cfg name format x y z x' y' z' :
  JsString.contains "/" name = false ->
  JsString.contains "/" format = false ->
  0 <= z -> 0 <= x < 2 ^ z -> 0 <= y < 2 ^ z ->
  0 <= z' -> 0 <= x' < 2 ^ z' -> 0 <= y' < 2 ^ z' ->
  (z, x, y) <> (z', x', y') ->
  generateTilePath cfg name x y z format <> generateTilePath cfg name x' y' z' format.
Proof.
  intros Hname Hformat Hz Hx Hy Hz' Hx' Hy' Hne Heq. apply Hne.
  rewrite !generateTilePath_segments in Heq by assumption.
  destruct (pathSegments_clean name x y z format Hname Hformat) as [Hc Hn].
  destruct (pathSegments_clean name x' y' z' format Hname Hformat) as [Hc' Hn'].
  apply join_suffix_inj in Heq; try assumption.
  apply pathSegments_inj in Heq as (-> & -> & ->); try assumption.
  reflexivity.
Qed.

(** An instance of the theorem at zoom 27, where both file
    names are clamped to the same [99999999]. *)
Lemma generateTilePath_injective_witness :
  (JsString.contains "/" "OSM_Map" = false
   /\ JsString.contains "/" "png" = false
   /\ 0 <= 27 /\ 0 <= 100000000 < 2 ^ 27 /\ 0 <= 5 < 2 ^ 27
   /\ 0 <= 27 /\ 0 <= 100000001 < 2 ^ 27 /\ 0 <= 5 < 2 ^ 27
   /\ (27, 100000000, 5) <> (27, 100000001, 5))
  /\ generateTilePath exampleConfig "OSM_Map" 100000000 5 27 "png"
     <> generateTilePath exampleConfig "OSM_Map" 100000001 5 27 "png".
Proof.
  assert (H1 : JsString.contains "/" "OSM_Map" = false) by reflexivity.
  assert (H2 : JsString.contains "/" "png" = false) by reflexivity.
  assert (H3 : 0 <= 27) by lia.
  assert (H4 : 0 <= 100000000 < 2 ^ 27) by (vm_compute; split; [discriminate | reflexivity]).
  assert (H5 : 0 <= 5 < 2 ^ 27) by (vm_compute; split; [discriminate | reflexivity]).
  assert (H6 : 0 <= 100000001 < 2 ^ 27) by (vm_compute; split; [discriminate | reflexivity]).
  assert (H7 : (27, 100000000, 5) <> (27, 100000001, 5)) by discriminate.
  split; [auto 10|].
  exact (generateTilePath_injective exampleConfig "OSM_Map" "png"
           100000000 5 27 100000001 5 27 H1 H2 H3 H4 H5 H3 H6 H5 H7).
Defined.

(** C7 (as stated) fails: [path.join] normalises its result, so a format
    that climbs out of the level directory makes the two tiles (0, 0) and
    (1, 0) of zoom 1 share one path. *)
Lemma generateTilePath_collision :
  0 <= 0 < 2 ^ 1 /\ 0 <= 1 < 2 ^ 1
  /\ (1, 0, 0) <> (1, 1, 0)
  /\ generateTilePath exampleConfig "OSM_Map" 0 0 1 "/../.."
     = generateTilePath exampleConfig "OSM_Map" 1 0 1 "/../.."
  /\ generateTilePath exampleConfig "OSM_Map" 0 0 1 "/../.." = "tile_cache/OSM_Map".
Proof.
  split; [lia|]. split; [lia|]. split; [discriminate|].
  split; vm_compute; reflexivity.
Qed.

(** ** Worked examples *)

Example generateTilePath_zoom3 :
  generateTilePath exampleConfig "OSM_Map" 5 3 3 "png"
  = "tile_cache/OSM_Map/1/2/3/OSM_Map_03_00000005_00000003.png".
Proof. vm_compute. reflexivity. Qed.

Example generateTilePath_zoom0 :
  generateTilePath exampleConfig "OSM_Map" 0 0 0 "png"
  = "tile_cache/OSM_Map/OSM_Map_00_00000000_00000000.png".
Proof. vm_compute. reflexivity. Qed.

Example getOutputTileName_clamped :
  getOutputTileName "OSM_Map" 120 100000000 (-1) = "OSM_Map_99_99999999_00000000".
Proof. vm_compute. reflexivity. Qed.

Example generateTileUrl_osm :
  generateTileUrl 4 (mkTileMap "OSM_Map" "https://{s}.tile.openstreetmap.org/{z}/{x}/{y}.png"
                       (Some "a,b,c") "png") 1 2 3
  = "https://b.tile.openstreetmap.org/3/1/2.png".
Proof. vm_compute. reflexivity. Qed.

Example path_join_normalises :
  Path.join ["/a/b/"; EmptyString; "../c"; "./d/"] = "/a/c/d/".
Proof. vm_compute. reflexivity. Qed.

(** Two overlapping features on the flat grid: the four tiles they share are
    listed once, and each tile is tested against the first feature that
    reaches it. *)
Example overlapping_features :
  let geojson := @FeatureCollection flatGeodesy [(0, -2, 2, 0); (1, -3, 3, -1)] in
  length (@calculateTilesForGeoJSON flatGeodesy geojson 2 2) = 14%nat
  /\ length (intersectionTests (@scanGeoJSON flatGeodesy geojson 2 2)) = 14%nat.
Proof. vm_compute. split; reflexivity. Qed.

(** The scenario of the specification: one tile of two fails, the statistics
    say so and the failure list holds that tile. *)
Example download_with_one_failure :
  let run := downloadTiles exampleSetup 0 failsAtOne "OSM_Map"
               [mkTile 0 0 1; mkTile 1 0 1] (newEngine ∅) in
  fst run = mkStats 2 1 1 0 0 2
  /\ failedDownloads (snd run) = [mkTask "OSM_Map" 1 0 1]
  /\ requests (snd run)
     = ["https://a.tile.openstreetmap.org/1/0/0.png";
        "https://a.tile.openstreetmap.org/1/1/0.png"]
  /\ List.map snd (reported (snd run)) = [0; 50; 100; 100].
Proof. vm_compute. repeat split; reflexivity. Qed.

(** ** The guard of [getOutputTileName]

    Under [0 <= i < 100000000] the decimal text of [i] has at most eight
    characters, so the count given to [repeat] is never negative. *)

Lemma pretty_N_go_length (k : nat) : forall (x : N) s,
  (x < 10 ^ N.of_nat k)%N ->
  (String.length (pretty_N_go x s) <= String.length s + k)%nat.
Proof.
  induction k as [|k IH]; intros x s Hx.
  - assert (x = 0%N) as -> by (simpl in Hx; lia).
    rewrite pretty_N_go_0. lia.
  - destruct (decide (x = 0)%N) as [->|Hnz]; [rewrite pretty_N_go_0; lia|].
    rewrite pretty_N_go_step by lia.
    etransitivity; [apply IH|simpl; lia].
    rewrite Nat2N.inj_succ, N.pow_succ_r' in Hx.
    apply N.Div0.div_lt_upper_bound. lia.
Qed.

Lemma coordField_guard i :
  0 <= i < 100000000 -> (String.length (JsString.toString i) <= 8)%nat.
Proof.
  intros Hi. unfold JsString.toString, pretty, pretty_Z.
  destruct i as [|q|q]; [simpl; lia| |lia].
  unfold pretty, pretty_positive, pretty, pretty_N.
  case_decide; [simpl; lia|].
  apply (pretty_N_go_length 8 (N.pos q) EmptyString). simpl. lia.
Qed.

Lemma coordField_length i : String.length (coordField i) = 8%nat.
Proof.
  unfold coordField.
  destruct (Z.ltb_spec i 100000000) as [Hlt|Hge];
    destruct (Z.leb_spec 0 i) as [Hnn|Hneg]; simpl.
  - pose proof (coordField_guard i ltac:(lia)) as Hlen.
    rewrite length_append.
    assert (Hrep : forall n, String.length (JsString.repeat zero n) = n).
    { induction n as [|n IH]; [reflexivity|]. simpl. f_equal. exact IH. }
    rewrite Hrep. lia.
  - destruct (Z.leb_spec 100000000 i); [lia | reflexivity].
  - destruct (Z.leb_spec 100000000 i); [reflexivity | lia].
  - lia.
Qed.

(** * Further properties *)

(** ** Tiles of a bounding box *)

Lemma rectangle_elem topLeft bottomRight x y :
  (x, y) ∈ rectangle topLeft bottomRight
  <-> fst topLeft <= x <= fst bottomRight /\ snd topLeft <= y <= snd bottomRight.
Proof.
  unfold rectangle. rewrite list_elem_of_In, in_flat_map. split.
  - intros (x' & Hx & Hy). apply in_map_iff in Hy as (y' & Heq & Hy).
    injection Heq as -> ->.
    apply list_elem_of_In, elem_of_seqZ in Hx. apply list_elem_of_In, elem_of_seqZ in Hy. lia.
  - intros [Hx Hy]. exists x. split.
    + apply list_elem_of_In, elem_of_seqZ. lia.
    + apply in_map_iff. exists y. split; [reflexivity|].
      apply list_elem_of_In, elem_of_seqZ. lia.
Qed.

Lemma flat_map_NoDup {A B} (f : A -> list B) (l : list A) :
  NoDup l ->
  (forall a, a ∈ l -> NoDup (f a)) ->
  (forall a a' b, a ∈ l -> a' ∈ l -> b ∈ f a -> b ∈ f a' -> a = a') ->
  NoDup (flat_map f l).
Proof.
  induction l as [|a l IH]; intros Hnd Hf Hdisj; simpl; [constructor|].
  apply NoDup_cons in Hnd as [Ha Hnd]. apply NoDup_app. repeat split.
  - apply Hf. apply elem_of_cons. auto.
  - intros b Hb Hb'. apply list_elem_of_In, in_flat_map in Hb' as (a' & Ha' & Hb').
    apply list_elem_of_In in Ha', Hb'.
    assert (a = a') as <-.
    { apply (Hdisj a a' b); try assumption; apply elem_of_cons; auto. }
    contradiction.
  - apply IH; [assumption| |].
    + intros a' Ha'. apply Hf. apply elem_of_cons. auto.
    + intros a1 a2 b H1 H2. apply Hdisj; apply elem_of_cons; auto.
Qed.

Lemma rectangle_NoDup topLeft bottomRight : NoDup (rectangle topLeft bottomRight).
Proof.
  unfold rectangle. apply flat_map_NoDup.
  - apply NoDup_seqZ.
  - intros x _. apply NoDup_fmap_2; [|apply NoDup_seqZ]. intros y y' [= ->]. reflexivity.
  - intros x x' [x0 y0] _ _ H1 H2.
    apply list_elem_of_fmap in H1 as (y1 & [= -> ->] & _).
    apply list_elem_of_fmap in H2 as (y2 & [= -> _] & _). reflexivity.
Qed.

Lemma flat_map_length_sum {A B} (f : A -> list B) (l : list A) :
  length (flat_map f l) = sum_list_with (fun a => length (f a)) l.
Proof.
  induction l as [|a l IH]; simpl; [reflexivity|]. rewrite length_app, IH. reflexivity.
Qed.

Lemma rectangle_length topLeft bottomRight :
  length (rectangle topLeft bottomRight)
  = (Z.to_nat (fst bottomRight - fst topLeft + 1)
     * Z.to_nat (snd bottomRight - snd topLeft + 1))%nat.
Proof.
  unfold rectangle. rewrite flat_map_length_sum.
  rewrite <- (length_seqZ (fst topLeft) (fst bottomRight - fst topLeft + 1)).
  induction (seqZ (fst topLeft) (fst bottomRight - fst topLeft + 1)) as [|a l IH];
    simpl; [reflexivity|].
  rewrite IH, length_map, length_seqZ. reflexivity.
Qed.

Section bounding_box.

Context `{Geodesy}.

(** X1.  The tiles [calculateTilesForBoundingBox] returns are exactly those
    whose zoom is in the range asked for and whose indices lie between the
    tile of the top-left corner and the tile of the bottom-right corner of
    the box at that zoom, both ends included. *)
Theorem calculateTilesForBoundingBox_elem minLon minLat maxLon maxLat minZoom maxZoom t :
  t ∈ calculateTilesForBoundingBox (minLon, minLat, maxLon, maxLat) minZoom maxZoom
  <-> minZoom <= tile_z t <= maxZoom
      /\ fst (latLonToTile maxLat minLon (tile_z t)) <= tile_x t
          <= fst (latLonToTile minLat maxLon (tile_z t))
      /\ snd (latLonToTile maxLat minLon (tile_z t)) <= tile_y t
          <= snd (latLonToTile minLat maxLon (tile_z t)).
Proof.
  unfold calculateTilesForBoundingBox, zoomLevels.
  rewrite list_elem_of_In, in_flat_map. split.
  - intros (z & Hz & Ht). apply in_map_iff in Ht as ([x y] & <- & Hxy). simpl.
    apply list_elem_of_In, elem_of_seqZ in Hz.
    apply list_elem_of_In, rectangle_elem in Hxy. split; [lia | exact Hxy].
  - intros (Hz & Hx & Hy). exists (tile_z t). split.
    + apply list_elem_of_In, elem_of_seqZ. lia.
    + apply in_map_iff. exists (tile_x t, tile_y t). split; [destruct t; reflexivity|].
      apply list_elem_of_In, rectangle_elem. auto.
Qed.

(** X2.  [calculateTilesForBoundingBox] lists no tile twice. *)
Theorem calculateTilesForBoundingBox_NoDup boundingBox minZoom maxZoom :
  NoDup (calculateTilesForBoundingBox boundingBox minZoom maxZoom).
Proof.
  destruct boundingBox as [[[minLon minLat] maxLon] maxLat].
  unfold calculateTilesForBoundingBox. apply flat_map_NoDup.
  - apply NoDup_seqZ.
  - intros z _. apply NoDup_fmap_2; [|apply rectangle_NoDup].
    intros [x y] [x' y'] [= -> ->]. reflexivity.
  - intros z z' t _ _ H1 H2.
    apply list_elem_of_fmap in H1 as ([x1 y1] & -> & _).
    apply list_elem_of_fmap in H2 as ([x2 y2] & [= _ _ ->] & _). reflexivity.
Qed.

Lemma calculateTilesForBoundingBox_sum minLon minLat maxLon maxLat minZoom maxZoom :
  length (calculateTilesForBoundingBox (minLon, minLat, maxLon, maxLat) minZoom maxZoom)
  = sum_list_with
      (fun z =>
         (Z.to_nat (fst (latLonToTile minLat maxLon z) - fst (latLonToTile maxLat minLon z) + 1)
          * Z.to_nat (snd (latLonToTile minLat maxLon z) - snd (latLonToTile maxLat minLon z) + 1))%nat)
      (seqZ minZoom (maxZoom - minZoom + 1)).
Proof.
  unfold calculateTilesForBoundingBox, zoomLevels. rewrite flat_map_length_sum.
  induction (seqZ minZoom (maxZoom - minZoom + 1)) as [|z l IH]; simpl; [reflexivity|].
  rewrite IH, length_map, rectangle_length. reflexivity.
Qed.

(** X3.  The number of tiles is the sum over the zoom levels of the width
    times the height of the tile rectangle of the level, an inverted
    rectangle counting for nothing; at a single zoom level it is
    [(b - a + 1) * (d - c + 1)] for a rectangle from [(a, c)] to [(b, d)],
    and a zoom range that is empty gives no tile. *)
Theorem calculateTilesForBoundingBox_length minLon minLat maxLon maxLat minZoom maxZoom z :
  length (calculateTilesForBoundingBox (minLon, minLat, maxLon, maxLat) minZoom maxZoom)
  = sum_list_with
      (fun z =>
         (Z.to_nat (fst (latLonToTile minLat maxLon z) - fst (latLonToTile maxLat minLon z) + 1)
          * Z.to_nat (snd (latLonToTile minLat maxLon z) - snd (latLonToTile maxLat minLon z) + 1))%nat)
      (seqZ minZoom (maxZoom - minZoom + 1))
  /\ length (calculateTilesForBoundingBox (minLon, minLat, maxLon, maxLat) z z)
     = (Z.to_nat (fst (latLonToTile minLat maxLon z) - fst (latLonToTile maxLat minLon z) + 1)
        * Z.to_nat (snd (latLonToTile minLat maxLon z) - snd (latLonToTile maxLat minLon z) + 1))%nat
  /\ (maxZoom < minZoom ->
      calculateTilesForBoundingBox (minLon, minLat, maxLon, maxLat) minZoom maxZoom = []).
Proof.
  split; [apply calculateTilesForBoundingBox_sum|]. split.
  - rewrite calculateTilesForBoundingBox_sum.
    replace (z - z + 1) with 1 by lia. rewrite seqZ_cons, seqZ_nil by lia. simpl. lia.
  - intros Hempty. unfold calculateTilesForBoundingBox, zoomLevels.
    rewrite seqZ_nil by lia. reflexivity.
Qed.

End bounding_box.

(** ** Tiles of a GeoJSON object *)

Lemma fold_left_elem_inv {A B} (I : A -> Prop) (f : A -> B -> A) (l : list B) :
  forall a, I a -> (forall a b, b ∈ l -> I a -> I (f a b)) -> I (fold_left f l a).
Proof.
  induction l as [|b l IH]; intros a Ha Hf; simpl; [assumption|].
  apply IH.
  - apply Hf; [apply elem_of_cons; auto | assumption].
  - intros a' b' Hb'. apply Hf. apply elem_of_cons. auto.
Qed.

Section geojson_tiles.

Context `{Geodesy}.

Variables (features : list feature) (minZoom maxZoom : Z).

Lemma addTile_sound x y z acc :
  tileKey z x y ∉ tileSet acc ->
  covered features minZoom maxZoom (mkTile x y z) ->
  sound_acc features minZoom maxZoom acc -> sound_acc features minZoom maxZoom (addTile (tileKey z x y) (mkTile x y z) acc).
Proof.
  intros Hfresh Hcov [Hinv Hall]. split; [apply addTile_inv; assumption|].
  destruct Hinv as (_ & Hset & _).
  simpl. rewrite map_set_fresh by (rewrite <- Hset; assumption).
  rewrite map_app. apply Forall_app. split; [assumption|].
  constructor; [exact Hcov | constructor].
Qed.

Lemma visitTile_sound z i f acc xy :
  minZoom <= z <= maxZoom ->
  features !! i = Some f ->
  xy ∈ rectangle (fst (featureRange f z)) (snd (featureRange f z)) ->
  sound_acc features minZoom maxZoom acc ->
  sound_acc features minZoom maxZoom (visitTile z i f (largeRegionThreshold <? potentialTileCount (featureRange f z))
               acc xy).
Proof.
  intros Hz Hf Hxy Hacc. destruct xy as [x y]. unfold visitTile.
  destruct (bool_decide_reflect (tileKey z x y ∈ tileSet acc)) as [Hin|Hfresh];
    [assumption|].
  destruct (Z.ltb_spec largeRegionThreshold (potentialTileCount (featureRange f z)))
    as [Hlarge|Hsmall].
  - apply addTile_sound; [assumption| |assumption].
    split; [exact Hz|]. exists i, f. simpl. auto.
  - destruct (tileIntersectsFeature x y z f) eqn:Hint.
    + apply addTile_sound; [assumption| |exact Hacc].
      split; [exact Hz|]. exists i, f. simpl. auto.
    + exact Hacc.
Qed.

Lemma scan_sound :
  sound_acc features minZoom maxZoom
    (fold_left (fun acc z => fold_left (processFeature z) (indexed features) acc)
       (zoomLevels minZoom maxZoom) emptyAccumulator).
Proof.
  apply fold_left_elem_inv.
  - split; [|constructor]. unfold acc_inv, emptyAccumulator. simpl. repeat split.
    + constructor.
    + intros Hin. apply elem_of_empty in Hin. contradiction.
    + intros Hin. apply elem_of_nil in Hin. contradiction.
    + constructor.
  - intros acc z Hz Hacc. unfold zoomLevels in Hz. apply elem_of_seqZ in Hz.
    apply fold_left_elem_inv; [exact Hacc|].
    intros acc' [i f] Hif Hacc'. apply indexed_elem in Hif.
    unfold processFeature. apply fold_left_elem_inv; [exact Hacc'|].
    intros acc'' xy Hxy Hacc''. apply visitTile_sound; try assumption. lia.
Qed.

(** A tile visited with the test skipped or passed is in the set
    afterwards. *)
Lemma fold_visitTile_hit z i f skip l acc x y :
  (x, y) ∈ l ->
  skip = true \/ tileIntersectsFeature x y z f = true ->
  tileKey z x y ∈ tileSet (fold_left (visitTile z i f skip) l acc).
Proof.
  revert acc. induction l as [|xy' l IH]; simpl; intros acc Hin Hhit.
  - apply elem_of_nil in Hin. contradiction.
  - apply elem_of_cons in Hin as [Heq|Hin]; [subst xy'|apply IH; assumption].
    apply fold_visitTile_grows. unfold visitTile.
    destruct (bool_decide_reflect (tileKey z x y ∈ tileSet acc)) as [Hk|Hk];
      [assumption|].
    assert (Hadd : tileKey z x y ∈ tileSet (addTile (tileKey z x y) (mkTile x y z) acc))
      by (simpl; apply elem_of_union_l, elem_of_singleton; reflexivity).
    destruct skip; [exact Hadd|].
    destruct Hhit as [Hs|Hint]; [discriminate|].
    rewrite Hint. exact Hadd.
Qed.

Lemma scan_complete t :
  covered features minZoom maxZoom t ->
  tileKey (tile_z t) (tile_x t) (tile_y t)
  ∈ tileSet (fold_left (fun acc z => fold_left (processFeature z) (indexed features) acc)
               (zoomLevels minZoom maxZoom) emptyAccumulator).
Proof.
  intros (Hz & i & f & Hf & Hxy & Hhit).
  assert (Hzin : tile_z t ∈ zoomLevels minZoom maxZoom)
    by (unfold zoomLevels; apply elem_of_seqZ; lia).
  apply list_elem_of_split in Hzin as (l1 & l2 & ->).
  rewrite fold_left_app. simpl. apply fold_zoom_grows.
  assert (Hin : (i, f) ∈ indexed features) by (apply indexed_elem; exact Hf).
  apply list_elem_of_split in Hin as (m1 & m2 & ->).
  rewrite fold_left_app. simpl. apply fold_processFeature_grows.
  unfold processFeature at 1.
  apply fold_visitTile_hit; [exact Hxy|].
  destruct Hhit as [Hlarge|Hint]; [left; apply Z.ltb_lt; exact Hlarge | right; exact Hint].
Qed.

End geojson_tiles.

Lemma calculateTilesForGeoJSON_sound `{Geodesy} (geojson : GeoJSON) (minZoom maxZoom : Z)
    (t : Tile) :
  t ∈ calculateTilesForGeoJSON geojson minZoom maxZoom ->
  covered (featuresOf geojson) minZoom maxZoom t.
Proof.
  unfold calculateTilesForGeoJSON, scanGeoJSON. intros Hin.
  destruct (scan_sound (featuresOf geojson) minZoom maxZoom) as [_ Hall].
  rewrite Forall_forall in Hall. apply Hall. exact Hin.
Qed.

Lemma calculateTilesForGeoJSON_complete `{Geodesy} (geojson : GeoJSON) (minZoom maxZoom : Z)
    (t : Tile) :
  covered (featuresOf geojson) minZoom maxZoom t ->
  t ∈ calculateTilesForGeoJSON geojson minZoom maxZoom.
Proof.
  unfold calculateTilesForGeoJSON, scanGeoJSON. intros Hcov.
  pose proof (scan_complete (featuresOf geojson) minZoom maxZoom t Hcov) as Hkey.
  destruct (scan_sound (featuresOf geojson) minZoom maxZoom) as [(_ & Hset & Hkeys) _].
  apply Hset in Hkey. apply list_elem_of_fmap in Hkey as ([k t'] & Hk & Hin).
  simpl in Hk. rewrite Forall_forall in Hkeys. pose proof (Hkeys _ Hin) as Hkt.
  simpl in Hkt. rewrite <- Hk in Hkt.
  apply tileKey_inj in Hkt as (Hz' & Hx' & Hy').
  apply list_elem_of_fmap. exists (k, t'). split; [|exact Hin].
  simpl. destruct t, t'. simpl in *. congruence.
Qed.


(** X5.  Two distinct tiles never have the same key in the set that removes
    duplicates: a tile is never dropped for another one. *)
Theorem tileKey_distinct z x y z' x' y' :
  (z, x, y) <> (z', x', y') -> tileKey z x y <> tileKey z' x' y'.
Proof.
  intros Hne Heq. apply Hne. apply tileKey_inj in Heq as (-> & -> & ->). reflexivity.
Qed.

Lemma tileKey_distinct_witness :
  (12, -3, 40) <> (1, 2, -340) /\ tileKey 12 (-3) 40 <> tileKey 1 2 (-340).
Proof.
  assert (H : (12, -3, 40) <> (1, 2, -340)) by discriminate.
  split; [exact H|]. exact (tileKey_distinct 12 (-3) 40 1 2 (-340) H).
Defined.

(** ** Order of the tiles *)

Lemma StronglySorted_snoc {A} (R : A -> A -> Prop) l x :
  StronglySorted R l -> Forall (fun y => R y x) l -> StronglySorted R (l ++ [x]).
Proof.
  induction 1 as [|a l Hl IH Ha]; intros Hall; simpl.
  - repeat constructor.
  - inversion Hall; subst. constructor; [apply IH; assumption|].
    apply Forall_app. split; [assumption | repeat constructor; assumption].
Qed.

Lemma zoom_sorted_le z z' tiles : z <= z' -> zoom_sorted z tiles -> zoom_sorted z' tiles.
Proof.
  intros Hle [Hs Hall]. split; [assumption|].
  eapply Forall_impl; [exact Hall|]. simpl. intros. lia.
Qed.

Section order.

Context `{Geodesy}.

Lemma visitTile_sorted z i f skip acc xy :
  acc_inv acc -> zoom_sorted z (List.map snd (tileMap acc)) ->
  zoom_sorted z (List.map snd (tileMap (visitTile z i f skip acc xy))).
Proof.
  intros (_ & Hset & _) Hsorted. destruct xy as [x y]. unfold visitTile.
  destruct (bool_decide_reflect (tileKey z x y ∈ tileSet acc)) as [Hin|Hfresh];
    [assumption|].
  assert (Hadd : zoom_sorted z
                   (List.map snd (tileMap (addTile (tileKey z x y) (mkTile x y z) acc)))).
  { simpl. rewrite map_set_fresh by (rewrite <- Hset; assumption).
    rewrite map_app. simpl. destruct Hsorted as [Hs Hall]. split.
    - apply StronglySorted_snoc; assumption.
    - apply Forall_app. split; [assumption | repeat constructor; simpl; lia]. }
  destruct skip; [exact Hadd|].
  destruct (tileIntersectsFeature x y z f); [exact Hadd | exact Hsorted].
Qed.

Lemma processFeature_sorted z acc entry :
  acc_inv acc /\ zoom_sorted z (List.map snd (tileMap acc)) ->
  acc_inv (processFeature z acc entry)
  /\ zoom_sorted z (List.map snd (tileMap (processFeature z acc entry))).
Proof.
  destruct entry as [i f]. unfold processFeature.
  generalize (rectangle (fst (featureRange f z)) (snd (featureRange f z))).
  intros l. revert acc. induction l as [|xy l IH]; intros acc [Hinv Hs]; simpl; [auto|].
  apply IH. split; [apply visitTile_inv | apply visitTile_sorted]; assumption.
Qed.

Lemma fold_processFeature_sorted z (features : list (nat * feature)) : forall acc,
  acc_inv acc /\ zoom_sorted z (List.map snd (tileMap acc)) ->
  acc_inv (fold_left (processFeature z) features acc)
  /\ zoom_sorted z (List.map snd (tileMap (fold_left (processFeature z) features acc))).
Proof.
  induction features as [|entry fs IH]; intros acc Hacc; simpl; [assumption|].
  apply IH. apply processFeature_sorted. assumption.
Qed.

Lemma zoom_fold_sorted (features : list (nat * feature)) l : forall acc z0,
  StronglySorted Z.le (z0 :: l) ->
  acc_inv acc /\ zoom_sorted z0 (List.map snd (tileMap acc)) ->
  StronglySorted (fun a b => tile_z a <= tile_z b)
    (List.map snd
       (tileMap (fold_left (fun acc z => fold_left (processFeature z) features acc) l acc))).
Proof.
  induction l as [|z l IH]; intros acc z0 Hl [Hinv Hs]; simpl.
  - destruct Hs. assumption.
  - inversion Hl as [|? ? Hl' Hz0]; subst. inversion Hz0; subst.
    apply (IH _ z); [assumption|].
    apply fold_processFeature_sorted.
    split; [assumption | eapply zoom_sorted_le; eassumption].
Qed.

Lemma seqZ_sorted m n : StronglySorted Z.le (seqZ m n).
Proof.
  destruct (Z.le_gt_cases n 0) as [Hn|Hn]; [rewrite seqZ_nil by lia; constructor|].
  rewrite <- (Z2Nat.id n) by lia. generalize (Z.to_nat n). clear. intros k. revert m.
  induction k as [|k IH]; intros m; [rewrite seqZ_nil by lia; constructor|].
  rewrite seqZ_cons by lia. constructor.
  - replace (Z.pred (Z.of_nat (S k))) with (Z.of_nat k) by lia. apply IH.
  - apply Forall_forall. intros z Hz. apply elem_of_seqZ in Hz. lia.
Qed.

(** X6.  Both tile calculators list the tiles by ascending zoom, so the
    queue, which starts tasks in the order they are added, begins with the
    lowest zoom. *)
Theorem tiles_by_ascending_zoom boundingBox (geojson : GeoJSON) (minZoom maxZoom : Z) :
  StronglySorted (fun a b => tile_z a <= tile_z b)
    (calculateTilesForBoundingBox boundingBox minZoom maxZoom)
  /\ StronglySorted (fun a b => tile_z a <= tile_z b)
       (calculateTilesForGeoJSON geojson minZoom maxZoom).
Proof.
  split.
  - destruct boundingBox as [[[minLon minLat] maxLon] maxLat].
    unfold calculateTilesForBoundingBox, zoomLevels.
    pose proof (seqZ_sorted minZoom (maxZoom - minZoom + 1)) as Hs.
    induction Hs as [|z l Hl IH Hz]; simpl; [constructor|].
    generalize (rectangle (latLonToTile maxLat minLon z) (latLonToTile minLat maxLon z)).
    intros r. induction r as [|[x y] r IHr]; simpl; [exact IH|].
    constructor; [exact IHr|].
    apply Forall_app. split.
    + apply Forall_forall. intros t Ht.
      apply list_elem_of_fmap in Ht as ([x' y'] & -> & _). simpl. lia.
    + apply Forall_forall. intros t Ht.
      apply list_elem_of_In, in_flat_map in Ht as (z' & Hz' & Ht).
      apply in_map_iff in Ht as ([x' y'] & <- & _). simpl.
      rewrite Forall_forall in Hz. apply Hz. apply list_elem_of_In. exact Hz'.
  - unfold calculateTilesForGeoJSON, scanGeoJSON, zoomLevels.
    apply (zoom_fold_sorted _ _ _ (minZoom - 1)).
    + constructor; [apply seqZ_sorted|].
      apply Forall_forall. intros z Hz. apply elem_of_seqZ in Hz. lia.
    + split; [|split; constructor].
      unfold acc_inv, emptyAccumulator. simpl. repeat split.
      * constructor.
      * intros Hin. apply elem_of_empty in Hin. contradiction.
      * intros Hin. apply elem_of_nil in Hin. contradiction.
      * constructor.
Qed.

End order.

(** ** The quadrant digits *)

Section quadkey.

Import JsString.

Lemma veDigits_digits n : forall x y c,
  contains c (veDigits n x y EmptyString) = true -> contains c "0123" = true.
Proof.
  induction n as [|n IH]; intros x y c Hc; [discriminate|].
  rewrite veDigits_succ, contains_app in Hc. apply orb_true_iff in Hc as [Hc|Hc].
  - eapply IH. exact Hc.
  - destruct (quadrant_cases x y) as [Hq | [Hq | [Hq | Hq]]]; rewrite Hq in Hc;
      simpl in Hc; rewrite orb_false_r in Hc; apply Ascii.eqb_eq in Hc; subst; reflexivity.
Qed.

(** X7.  At a zoom level [z >= 1] the tile string of [getMicrosoftVETile]
    has exactly [z] characters, each one of the digits 0 to 3. *)
Theorem getMicrosoftVETile_digits z x y :
  0 < z ->
  String.length (getMicrosoftVETile z x y) = Z.to_nat z
  /\ forall c, contains c (getMicrosoftVETile z x y) = true -> contains c "0123" = true.
Proof.
  intros Hz. unfold getMicrosoftVETile.
  destruct (Z.eqb_spec z 0) as [->|_]; [lia|].
  split; [apply veDigits_length | apply veDigits_digits].
Qed.

Lemma getMicrosoftVETile_digits_witness :
  0 < 3
  /\ String.length (getMicrosoftVETile 3 5 3) = Z.to_nat 3
  /\ forall c, contains c (getMicrosoftVETile 3 5 3) = true -> contains c "0123" = true.
Proof.
  assert (H : 0 < 3) by lia.
  split; [exact H|]. exact (getMicrosoftVETile_digits 3 5 3 H).
Defined.

(** X8.  Two distinct tiles of the slippy-map range have distinct tile
    strings, the single tile of zoom 0 included (its string is [_]). *)
Theorem getMicrosoftVETile_distinct z x y z' x' y' :
  0 <= z -> 0 <= x < 2 ^ z -> 0 <= y < 2 ^ z ->
  0 <= z' -> 0 <= x' < 2 ^ z' -> 0 <= y' < 2 ^ z' ->
  (z, x, y) <> (z', x', y') ->
  getMicrosoftVETile z x y <> getMicrosoftVETile z' x' y'.
Proof.
  intros Hz Hx Hy Hz' Hx' Hy' Hne Heq. apply Hne. unfold getMicrosoftVETile in Heq.
  destruct (Z.eqb_spec z 0) as [->|Hnz]; destruct (Z.eqb_spec z' 0) as [->|Hnz'].
  - simpl in *. f_equal; [f_equal|]; lia.
  - destruct (Z.to_nat z') as [|n] eqn:Hn; [lia|].
    symmetry in Heq. exfalso. exact (veDigits_not_underscore n x' y' Heq).
  - destruct (Z.to_nat z) as [|n] eqn:Hn; [lia|].
    exfalso. exact (veDigits_not_underscore n x y Heq).
  - assert (Hzz : z = z').
    { apply (f_equal String.length) in Heq. rewrite !veDigits_length in Heq. lia. }
    subst z'. apply veDigits_inj in Heq as [-> ->]; rewrite ?Z2Nat.id by lia; auto.
Qed.

Lemma getMicrosoftVETile_distinct_witness :
  (0 <= 2 /\ 0 <= 1 < 2 ^ 2 /\ 0 <= 3 < 2 ^ 2
   /\ 0 <= 0 /\ 0 <= 0 < 2 ^ 0 /\ 0 <= 0 < 2 ^ 0
   /\ (2, 1, 3) <> (0, 0, 0))
  /\ getMicrosoftVETile 2 1 3 <> getMicrosoftVETile 0 0 0.
Proof.
  assert (H1 : 0 <= 2) by lia.
  assert (H2 : 0 <= 1 < 2 ^ 2) by (simpl; lia).
  assert (H3 : 0 <= 3 < 2 ^ 2) by (simpl; lia).
  assert (H4 : 0 <= 0) by lia.
  assert (H5 : 0 <= 0 < 2 ^ 0) by (simpl; lia).
  assert (H6 : (2, 1, 3) <> (0, 0, 0)) by discriminate.
  split; [auto 10|].
  exact (getMicrosoftVETile_distinct 2 1 3 0 0 0 H1 H2 H3 H4 H5 H5 H6).
Defined.

(** The level path is the digits of the tile string, a directory each. *)
Lemma createTileLevelPath_spec z x y :
  0 < z ->
  createTileLevelPath z x y
  = joinWith Path.slash (chars (veDigits (Z.to_nat z) x y EmptyString)).
Proof.
  intros Hz. unfold createTileLevelPath, getMicrosoftVETile.
  destruct (Z.eqb_spec z 0) as [->|_]; [lia|].
  destruct (Z.to_nat z) as [|n] eqn:Hn; [lia|].
  destruct (String.eqb_spec (veDigits (S n) x y EmptyString) underscore) as [Heq|_];
    [exfalso; exact (veDigits_not_underscore n x y Heq)|].
  exact (levelDirs_spec _ [] (veDigits_clean (S n) x y)).
Qed.

(** X9.  The directory of a tile of zoom [z + 1 >= 2] is the directory of
    its parent tile [(x / 2, y / 2)] of zoom [z] followed by one more
    directory, the quadrant digit of the tile: the cache is a quad tree. *)
Theorem createTileLevelPath_child z x y :
  0 < z ->
  createTileLevelPath (z + 1) x y
  = createTileLevelPath z (x / 2) (y / 2) +:+ "/" +:+ toString (quadrant x y).
Proof.
  intros Hz. rewrite !createTileLevelPath_spec by lia.
  replace (Z.to_nat (z + 1)) with (S (Z.to_nat z)) by lia.
  rewrite veDigits_succ, chars_append.
  assert (Hd : chars (toString (quadrant x y)) = [toString (quadrant x y)])
    by (destruct (quadrant_cases x y) as [-> | [-> | [-> | ->]]]; reflexivity).
  rewrite Hd. apply joinWith_snoc.
  intros Hnil. apply (f_equal (@length _)) in Hnil.
  rewrite chars_length, veDigits_length in Hnil. simpl in Hnil. lia.
Qed.

Lemma createTileLevelPath_child_witness :
  0 < 2
  /\ createTileLevelPath (2 + 1) 5 3
     = createTileLevelPath 2 (5 / 2) (3 / 2) +:+ "/" +:+ toString (quadrant 5 3).
Proof.
  assert (H : 0 < 2) by lia.
  split; [exact H|]. exact (createTileLevelPath_child 2 5 3 H).
Defined.

End quadkey.

(** ** The file name *)

Section file_name.

Import JsString.

Lemma pretty_N_go_grows (x : N) : forall s,
  (String.length s <= String.length (pretty_N_go x s))%nat.
Proof.
  induction (N.lt_wf_0 x) as [x _ IH]; intros s.
  destruct (decide (x = 0)%N) as [->|Hnz]; [rewrite pretty_N_go_0; lia|].
  rewrite pretty_N_go_step by lia.
  etransitivity; [|apply IH; apply N.div_lt; lia]. simpl. lia.
Qed.

Lemma pretty_N_go_length_ge (k : nat) : forall (x : N) s,
  (10 ^ N.of_nat k <= x)%N ->
  (String.length s + k + 1 <= String.length (pretty_N_go x s))%nat.
Proof.
  induction k as [|k IH]; intros x s Hx.
  - rewrite pretty_N_go_step by (simpl in Hx; lia).
    etransitivity; [|apply pretty_N_go_grows]. simpl. lia.
  - rewrite Nat2N.inj_succ, N.pow_succ_r' in Hx.
    rewrite pretty_N_go_step by lia.
    etransitivity; [|apply IH]; [simpl; lia|].
    apply N.div_le_lower_bound; lia.
Qed.

Lemma toString_length_digits (k : nat) i :
  10 ^ Z.of_nat k <= i < 10 ^ Z.of_nat (S k) ->
  String.length (toString i) = S k.
Proof.
  intros [Hlo Hhi].
  assert (Hpos : 0 < i) by (pose proof (Z.pow_pos_nonneg 10 (Z.of_nat k)); lia).
  destruct i as [|q|q]; try lia.
  unfold toString, pretty, pretty_Z, pretty, pretty_positive, pretty, pretty_N.
  case_decide; [lia|].
  apply Nat.le_antisymm.
  - apply (pretty_N_go_length (S k) (N.pos q) EmptyString).
    apply N2Z.inj_lt. rewrite N2Z.inj_pow, nat_N_Z. simpl (Z.of_N 10). lia.
  - pose proof (pretty_N_go_length_ge k (N.pos q) EmptyString) as Hge. simpl in Hge.
    rewrite Nat.add_1_r in Hge. apply Hge.
    apply N2Z.inj_le. rewrite N2Z.inj_pow, nat_N_Z. simpl (Z.of_N 10). lia.
Qed.

Lemma levelField_length level : String.length (levelField level) = 2%nat.
Proof.
  unfold levelField.
  destruct (Z.ltb_spec level 100); destruct (Z.leb_spec 0 level); simpl.
  - destruct (Z.ltb_spec level 10).
    + rewrite length_append. simpl.
      destruct (decide (level = 0)) as [->|Hnz]; [reflexivity|].
      rewrite (toString_length_digits 0) by (simpl; lia). reflexivity.
    + apply (toString_length_digits 1). simpl. lia.
  - destruct (Z.leb_spec 100 level); [lia | reflexivity].
  - destruct (Z.leb_spec 100 level); [reflexivity | lia].
  - lia.
Qed.

(** X10.  The file name has a fixed width: the prefix, then 21 characters
    (two digits of zoom and eight digits of each coordinate, with their
    underscores), whatever the numbers. *)
Theorem getOutputTileName_length namePrefix level i j :
  String.length (getOutputTileName namePrefix level i j)
  = (String.length namePrefix + 21)%nat.
Proof.
  unfold getOutputTileName, underscore.
  rewrite !length_append, levelField_length, !coordField_length. simpl. reflexivity.
Qed.

Lemma pretty_N_go_head (x : N) : forall s,
  (0 < x)%N -> exists c r, pretty_N_go x s = String c r /\ c <> "0"%char.
Proof.
  induction (N.lt_wf_0 x) as [x _ IH]; intros s Hx.
  rewrite pretty_N_go_step by assumption.
  destruct (decide (x `div` 10 = 0)%N) as [Hz|Hnz].
  - rewrite Hz, pretty_N_go_0. eexists _, _. split; [reflexivity|].
    assert (Hlt : (x < 10)%N) by (apply N.div_small_iff in Hz; lia).
    rewrite N.mod_small by assumption.
    assert (x = 1 \/ x = 2 \/ x = 3 \/ x = 4 \/ x = 5 \/ x = 6 \/ x = 7 \/ x = 8 \/ x = 9)%N
      as Hcases by lia.
    destruct Hcases as [-> | [-> | [-> | [-> | [-> | [-> | [-> | [-> | ->]]]]]]]];
      discriminate.
  - apply IH; [apply N.div_lt; lia | apply N.neq_0_lt_0; exact Hnz].
Qed.

(** A positive integer is not written with a leading zero. *)
Lemma toString_head i :
  0 < i -> exists c r, toString i = String c r /\ c <> "0"%char.
Proof.
  intros Hi. destruct i as [|q|q]; try lia.
  unfold toString, pretty, pretty_Z, pretty, pretty_positive, pretty, pretty_N.
  case_decide; [lia|]. apply pretty_N_go_head. lia.
Qed.

Lemma toString_zero : toString 0 = zero.
Proof. reflexivity. Qed.

Lemma repeat_zero_length n : String.length (repeat zero n) = n.
Proof. induction n as [|n IH]; [reflexivity|]. simpl. f_equal. exact IH. Qed.

(** Zero padding to a common width loses nothing. *)
Lemma padding_inj a b i i' :
  0 <= i -> 0 <= i' ->
  (a + String.length (toString i) = b + String.length (toString i'))%nat ->
  repeat zero a +:+ toString i = repeat zero b +:+ toString i' -> i = i'.
Proof.
  intros Hi Hi'. revert b. induction a as [|a IH]; intros [|b] Hlen Heq.
  - apply toString_inj. exact Heq.
  - simpl in Heq.
    destruct (decide (i = 0)) as [->|Hnz].
    + rewrite toString_zero in Hlen. simpl in Hlen.
      assert (String.length (toString i') = 0)%nat as Hl by lia.
      destruct (decide (i' = 0)) as [->|Hnz']; [discriminate|].
      destruct (toString_head i' ltac:(lia)) as (c & r & Hc & _). rewrite Hc in Hl.
      discriminate.
    + destruct (toString_head i ltac:(lia)) as (c & r & Hc & Hne). rewrite Hc in Heq.
      injection Heq as -> _. congruence.
  - simpl in Heq.
    destruct (decide (i' = 0)) as [->|Hnz].
    + rewrite toString_zero in Hlen. simpl in Hlen.
      assert (String.length (toString i) = 0)%nat as Hl by lia.
      destruct (decide (i = 0)) as [->|Hnz']; [discriminate|].
      destruct (toString_head i ltac:(lia)) as (c & r & Hc & _). rewrite Hc in Hl.
      discriminate.
    + destruct (toString_head i' ltac:(lia)) as (c & r & Hc & Hne). rewrite Hc in Heq.
      injection Heq as <- _. congruence.
  - simpl in Heq. injection Heq as Heq. apply (IH b); [simpl in Hlen; lia | exact Heq].
Qed.

Lemma coordField_inj i i' :
  0 <= i < 100000000 -> 0 <= i' < 100000000 -> coordField i = coordField i' -> i = i'.
Proof.
  intros Hi Hi' Heq. unfold coordField in Heq.
  destruct (Z.ltb_spec i 100000000); [|lia]. destruct (Z.leb_spec 0 i); [|lia].
  destruct (Z.ltb_spec i' 100000000); [|lia]. destruct (Z.leb_spec 0 i'); [|lia].
  simpl in Heq.
  pose proof (coordField_guard i Hi). pose proof (coordField_guard i' Hi').
  eapply padding_inj; [lia | lia | | exact Heq]. lia.
Qed.

Lemma levelField_inj level level' :
  0 <= level < 100 -> 0 <= level' < 100 -> levelField level = levelField level' ->
  level = level'.
Proof.
  intros Hl Hl' Heq. unfold levelField in Heq.
  destruct (Z.ltb_spec level 100); [|lia]. destruct (Z.leb_spec 0 level); [|lia].
  destruct (Z.ltb_spec level' 100); [|lia]. destruct (Z.leb_spec 0 level'); [|lia].
  simpl in Heq.
  destruct (Z.ltb_spec level 10); destruct (Z.ltb_spec level' 10).
  - simpl in Heq. injection Heq as Heq. apply toString_inj. exact Heq.
  - destruct (toString_head level' ltac:(lia)) as (c & r & Hc & Hne).
    rewrite Hc in Heq. simpl in Heq. injection Heq as <- _. congruence.
  - destruct (toString_head level ltac:(lia)) as (c & r & Hc & Hne).
    rewrite Hc in Heq. simpl in Heq. injection Heq as -> _. congruence.
  - apply toString_inj. exact Heq.
Qed.

(** X11.  Within the ranges that are not clamped (zoom below 100,
    coordinates below 100000000, none negative) the file name alone tells
    the tiles apart. *)
Theorem getOutputTileName_distinct namePrefix level i j level' i' j' :
  0 <= level < 100 -> 0 <= i < 100000000 -> 0 <= j < 100000000 ->
  0 <= level' < 100 -> 0 <= i' < 100000000 -> 0 <= j' < 100000000 ->
  (level, i, j) <> (level', i', j') ->
  getOutputTileName namePrefix level i j <> getOutputTileName namePrefix level' i' j'.
Proof.
  intros Hl Hi Hj Hl' Hi' Hj' Hne Heq. apply Hne. unfold getOutputTileName in Heq.
  do 2 apply append_inv_head in Heq.
  apply append_inj_length in Heq as [HL Heq]; [|rewrite !levelField_length; reflexivity].
  apply append_inv_head in Heq.
  apply append_inj_length in Heq as [HI Heq]; [|rewrite !coordField_length; reflexivity].
  apply append_inv_head in Heq. rename Heq into HJ.
  apply levelField_inj in HL; [|assumption..].
  apply coordField_inj in HI; [|assumption..].
  apply coordField_inj in HJ; [|assumption..].
  congruence.
Qed.

Lemma getOutputTileName_distinct_witness :
  (0 <= 7 < 100 /\ 0 <= 12 < 100000000 /\ 0 <= 5 < 100000000
   /\ 0 <= 17 < 100 /\ 0 <= 2 < 100000000 /\ 0 <= 5 < 100000000
   /\ (7, 12, 5) <> (17, 2, 5))
  /\ getOutputTileName "OSM_Map" 7 12 5 <> getOutputTileName "OSM_Map" 17 2 5.
Proof.
  assert (H1 : 0 <= 7 < 100) by lia.
  assert (H2 : 0 <= 12 < 100000000) by lia.
  assert (H3 : 0 <= 5 < 100000000) by lia.
  assert (H4 : 0 <= 17 < 100) by lia.
  assert (H5 : 0 <= 2 < 100000000) by lia.
  assert (H6 : (7, 12, 5) <> (17, 2, 5)) by discriminate.
  split; [auto 10|].
  exact (getOutputTileName_distinct "OSM_Map" 7 12 5 17 2 5 H1 H2 H3 H4 H5 H3 H6).
Defined.

(** X12.  Outside these ranges the numbers are clamped: every coordinate
    from 100000000 on is written like 99999999 and every negative one like
    0, every zoom from 100 on like 99 and every negative one like 0; such
    tiles share their file name. *)
Theorem getOutputTileName_clamping namePrefix level i j :
  (100000000 <= i ->
   getOutputTileName namePrefix level i j = getOutputTileName namePrefix level 99999999 j)
  /\ (i < 0 ->
      getOutputTileName namePrefix level i j = getOutputTileName namePrefix level 0 j)
  /\ (100000000 <= j ->
      getOutputTileName namePrefix level i j = getOutputTileName namePrefix level i 99999999)
  /\ (j < 0 ->
      getOutputTileName namePrefix level i j = getOutputTileName namePrefix level i 0)
  /\ (100 <= level ->
      getOutputTileName namePrefix level i j = getOutputTileName namePrefix 99 i j)
  /\ (level < 0 ->
      getOutputTileName namePrefix level i j = getOutputTileName namePrefix 0 i j).
Proof.
  assert (Hhigh : forall k, 100000000 <= k -> coordField k = coordField 99999999).
  { intros k Hk. unfold coordField at 1.
    destruct (Z.ltb_spec k 100000000); [lia|]. simpl.
    destruct (Z.leb_spec 100000000 k); [reflexivity | lia]. }
  assert (Hlow : forall k, k < 0 -> coordField k = coordField 0).
  { intros k Hk. unfold coordField at 1.
    destruct (Z.leb_spec 0 k); [lia|]. rewrite andb_false_r.
    destruct (Z.leb_spec 100000000 k); [lia | reflexivity]. }
  assert (Hlhigh : 100 <= level -> levelField level = levelField 99).
  { intros Hk. unfold levelField at 1.
    destruct (Z.ltb_spec level 100); [lia|]. simpl.
    destruct (Z.leb_spec 100 level); [reflexivity | lia]. }
  assert (Hllow : level < 0 -> levelField level = levelField 0).
  { intros Hk. unfold levelField at 1.
    destruct (Z.leb_spec 0 level); [lia|]. rewrite andb_false_r.
    destruct (Z.leb_spec 100 level); [lia | reflexivity]. }
  unfold getOutputTileName.
  repeat split; intros Hk;
    rewrite ?(Hhigh _ Hk), ?(Hlow _ Hk), ?(Hlhigh Hk), ?(Hllow Hk); reflexivity.
Qed.

End file_name.

(** ** The layout of the cache *)

Section layout.

Import JsString.

Lemma split_leading_slash s : split "/" (Path.slash +:+ s) = EmptyString :: split "/" s.
Proof. exact (split_app_sep "/" EmptyString s). Qed.

Lemma kept_clean (root : bool) cacheSegs name :
  cacheSegs <> [] -> Forall (fun s => clean s = true) cacheSegs -> clean name = true ->
  let cache := (if root then Path.slash else EmptyString) +:+ joinWith Path.slash cacheSegs in
  absolute [cache; name] = root /\ kept [cache; name] = cacheSegs ++ [name].
Proof.
  intros Hne Hclean Hname cache.
  assert (Hsl : Forall (fun seg => contains "/" seg = false) cacheSegs).
  { eapply Forall_impl; [exact Hclean|]. intros s Hs. apply clean_spec in Hs. tauto. }
  assert (Habs : absolute [cache; name] = root).
  { unfold absolute, cache. destruct root.
    - reflexivity.
    - change (EmptyString +:+ joinWith Path.slash cacheSegs)
        with (joinWith Path.slash cacheSegs).
      apply suffix_relative; assumption. }
  split; [exact Habs|].
  unfold kept. rewrite Habs. simpl concat. rewrite app_nil_r.
  assert (Hname' : split "/" name = [name]).
  { apply split_no_sep. apply clean_spec in Hname. tauto. }
  rewrite Hname', fold_left_app.
  rewrite (fold_normalizeStep_clean _ [name]) by (repeat constructor; exact Hname).
  assert (Hfold : forall b, fold_left (Path.normalizeStep b) (split "/" cache) []
                            = rev cacheSegs).
  { intros b. unfold cache. destruct root.
    - rewrite split_leading_slash. rewrite split_joinWith; [|exact Hne|exact Hsl].
      cbn [fold_left].
      change (Path.normalizeStep b [] EmptyString) with (@nil string).
      rewrite fold_normalizeStep_clean by exact Hclean. apply app_nil_r.
    - change (EmptyString +:+ joinWith Path.slash cacheSegs)
        with (joinWith Path.slash cacheSegs).
      rewrite split_joinWith; [|exact Hne|exact Hsl].
      rewrite fold_normalizeStep_clean by exact Hclean. apply app_nil_r. }
  rewrite Hfold, rev_app_distr, !rev_involutive. reflexivity.
Qed.

(** X13.  When the cache folder is a plain path (segments without slash,
    none of them empty, [.] or [..], below the root or not) and the
    tile-map name is such a segment, the path of a tile is the cache folder,
    the tile-map name, one directory per zoom level holding the quadrant
    digit of the level, and the file name with its extension. *)
Theorem generateTilePath_layout cfg (root : bool) cacheSegs name x y z format :
  TileCacheFolder cfg
  = (if root then Path.slash else EmptyString) +:+ joinWith Path.slash cacheSegs ->
  cacheSegs <> [] -> Forall (fun s => clean s = true) cacheSegs ->
  clean name = true -> contains "/" format = false -> 0 <= z ->
  generateTilePath cfg name x y z format
  = (if root then Path.slash else EmptyString)
    +:+ joinWith Path.slash
          (cacheSegs ++ [name]
           ++ (if z =? 0 then [] else chars (getMicrosoftVETile z x y))
           ++ [getOutputTileName name z x y +:+ Path.dot +:+ format]).
Proof.
  intros Hcache Hne Hclean Hname Hformat Hz.
  assert (Hname' : contains "/" name = false) by (apply clean_spec in Hname; tauto).
  rewrite generateTilePath_segments by assumption.
  destruct (pathSegments_clean name x y z format Hname' Hformat) as [Hc Hn].
  rewrite join_suffix by assumption.
  assert (Hfilter : List.filter (fun a => negb (isEmpty a)) [TileCacheFolder cfg; name]
                    = [TileCacheFolder cfg; name]).
  { assert (H1 : isEmpty (TileCacheFolder cfg) = false).
    { rewrite Hcache, isEmpty_append, (suffix_nonempty _ Hne Hclean).
      apply andb_false_r. }
    assert (H2 : isEmpty name = false) by (apply clean_spec in Hname; tauto).
    simpl. rewrite H1, H2. reflexivity. }
  rewrite Hfilter, Hcache.
  destruct (kept_clean root cacheSegs name Hne Hclean Hname) as [-> ->].
  rewrite <- app_assoc. reflexivity.
Qed.

Lemma generateTilePath_layout_witness :
  (TileCacheFolder (mkConfig "/var/tiles" []) = Path.slash +:+ joinWith Path.slash ["var"; "tiles"]
   /\ ["var"; "tiles"] <> []
   /\ Forall (fun s => clean s = true) ["var"; "tiles"]
   /\ clean "OSM_Map" = true /\ contains "/" "png" = false /\ 0 <= 3)
  /\ generateTilePath (mkConfig "/var/tiles" []) "OSM_Map" 5 3 3 "png"
     = Path.slash
       +:+ joinWith Path.slash
             (["var"; "tiles"] ++ ["OSM_Map"]
              ++ (if 3 =? 0 then [] else chars (getMicrosoftVETile 3 5 3))
              ++ [getOutputTileName "OSM_Map" 3 5 3 +:+ Path.dot +:+ "png"]).
Proof.
  assert (H1 : TileCacheFolder (mkConfig "/var/tiles" [])
               = Path.slash +:+ joinWith Path.slash ["var"; "tiles"]) by reflexivity.
  assert (H2 : ["var"; "tiles"] <> []) by discriminate.
  assert (H3 : Forall (fun s => clean s = true) ["var"; "tiles"])
    by (repeat constructor).
  assert (H4 : clean "OSM_Map" = true) by reflexivity.
  assert (H5 : contains "/" "png" = false) by reflexivity.
  assert (H6 : 0 <= 3) by lia.
  split; [auto 10|].
  exact (generateTilePath_layout (mkConfig "/var/tiles" []) true ["var"; "tiles"]
           "OSM_Map" 5 3 3 "png" H1 H2 H3 H4 H5 H6).
Defined.

Lemma toString_nonempty i : isEmpty (toString i) = false.
Proof.
  destruct (Z.lt_trichotomy i 0) as [Hneg | [-> | Hpos]].
  - destruct i; try lia. reflexivity.
  - reflexivity.
  - destruct (toString_head i Hpos) as (c & r & -> & _). reflexivity.
Qed.

Lemma toString_no_dot i : contains "." (toString i) = false.
Proof.
  destruct (contains "." (toString i)) eqn:Hc; [|reflexivity].
  apply toString_chars in Hc as [Hc|Hc]; discriminate.
Qed.

Lemma dotted_clean s t :
  isEmpty s = false -> contains "." s = false -> contains "/" s = false ->
  contains "/" t = false ->
  clean (s +:+ Path.dot +:+ t) = true.
Proof.
  intros He Hd Hs Ht. unfold clean.
  rewrite isEmpty_append, He, !contains_app, Hs, Ht. simpl.
  destruct s as [|c s]; [discriminate|]. simpl in Hd.
  apply orb_false_iff in Hd as [Hc _].
  destruct (String.eqb_spec (String c s +:+ Path.dot +:+ t) Path.dot) as [Heq|_].
  { injection Heq as -> _. discriminate. }
  destruct (String.eqb_spec (String c s +:+ Path.dot +:+ t) Path.dotdot) as [Heq|_].
  { injection Heq as -> _. discriminate. }
  reflexivity.
Qed.

Lemma toString_clean i : clean (toString i) = true.
Proof.
  unfold clean. rewrite toString_nonempty, toString_no_slash. simpl.
  destruct (String.eqb_spec (toString i) Path.dot) as [Heq|_].
  { pose proof (toString_no_dot i) as Hd. rewrite Heq in Hd. discriminate. }
  destruct (String.eqb_spec (toString i) Path.dotdot) as [Heq|_].
  { pose proof (toString_no_dot i) as Hd. rewrite Heq in Hd. discriminate. }
  reflexivity.
Qed.

(** X14.  The flat layout of the example script ([z/x/y.format] below the
    tile-map directory) gives distinct tiles distinct paths, for all
    integers, when the format holds no slash. *)
Theorem example_generateTilePath_distinct cfg name format x y z x' y' z' :
  contains "/" format = false ->
  (z, x, y) <> (z', x', y') ->
  ExampleScript.generateTilePath cfg name x y z format
  <> ExampleScript.generateTilePath cfg name x' y' z' format.
Proof.
  intros Hformat Hne Heq. apply Hne.
  assert (Hsegs : forall a b c,
            ExampleScript.generateTilePath cfg name a b c format
            = Path.join ([TileCacheFolder cfg; name]
                         ++ [joinWith Path.slash
                               [toString c; toString a; toString b +:+ Path.dot +:+ format]])
            /\ Forall (fun s => clean s = true)
                 [toString c; toString a; toString b +:+ Path.dot +:+ format]).
  { intros a b c.
    assert (Hd : clean (toString b +:+ Path.dot +:+ format) = true).
    { apply dotted_clean; auto using toString_nonempty, toString_no_dot, toString_no_slash. }
    split; [|repeat constructor; auto using toString_clean].
    unfold ExampleScript.generateTilePath, Path.join.
    assert (He : isEmpty (toString b +:+ Path.dot +:+ format) = false)
      by (apply clean_spec in Hd; tauto).
    cbn [List.filter app]. rewrite !toString_nonempty, He.
    assert (Hj : isEmpty (joinWith Path.slash
                   [toString c; toString a; toString b +:+ Path.dot +:+ format]) = false)
      by (apply joinWith_head_nonempty, toString_nonempty).
    rewrite Hj. cbn [negb].
    destruct (negb (isEmpty (TileCacheFolder cfg))), (negb (isEmpty name)); reflexivity. }
  destruct (Hsegs x y z) as [E1 C1]. destruct (Hsegs x' y' z') as [E2 C2].
  rewrite E1, E2 in Heq.
  apply join_suffix_inj in Heq; [|discriminate | assumption | discriminate | assumption].
  injection Heq as Hz Hx Hy.
  apply toString_inj in Hz, Hx.
  apply (cut_at_char_inj ".") in Hy as [Hy _]; [|apply toString_no_dot..].
  apply toString_inj in Hy. congruence.
Qed.

Lemma example_generateTilePath_distinct_witness :
  (contains "/" "png" = false /\ (3, -1, 200000000) <> (3, -1, 200000001))
  /\ ExampleScript.generateTilePath exampleConfig "OSM_Map" (-1) 200000000 3 "png"
     <> ExampleScript.generateTilePath exampleConfig "OSM_Map" (-1) 200000001 3 "png".
Proof.
  assert (H1 : contains "/" "png" = false) by reflexivity.
  assert (H2 : (3, -1, 200000000) <> (3, -1, 200000001)) by discriminate.
  split; [auto|].
  exact (example_generateTilePath_distinct exampleConfig "OSM_Map" "png"
           (-1) 200000000 3 (-1) 200000001 3 H1 H2).
Defined.

End layout.

(** ** Substituting numbers *)

Section numbers.

Import JsString.

Lemma contains_cons c a s : contains c (String a s) = Ascii.eqb c a || contains c s.
Proof. reflexivity. Qed.

Lemma getSubstitution_plain matched pre post r :
  contains "$" r = false -> getSubstitution matched pre post r = r.
Proof.
  induction r as [|c r IH]; [reflexivity|].
  rewrite contains_cons. intros Hc. apply orb_false_iff in Hc as [Hc Hr].
  rewrite Ascii.eqb_sym in Hc.
  change (getSubstitution matched pre post (String c r))
    with (if Ascii.eqb c "$" then
            match r with
            | String d r' =>
                if Ascii.eqb d "$" then String "$" (getSubstitution matched pre post r')
                else if Ascii.eqb d "&" then matched +:+ getSubstitution matched pre post r'
                else if Ascii.eqb d "`" then pre +:+ getSubstitution matched pre post r'
                else if Ascii.eqb d "'" then post +:+ getSubstitution matched pre post r'
                else String c (getSubstitution matched pre post r)
            | EmptyString => String c EmptyString
            end
          else String c (getSubstitution matched pre post r)).
  rewrite Hc, (IH Hr). reflexivity.
Qed.

Lemma toString_plain n : contains "$" (toString n) = false.
Proof.
  destruct (contains "$" (toString n)) eqn:Hc; [|reflexivity].
  apply toString_chars in Hc as [Hc|Hc]; discriminate.
Qed.

(** Text without an opening brace holds no start of a placeholder. *)
Lemma occurrences_skip c r post :
  contains "{" r = false ->
  occurrences (placeholder c) (r +:+ post) = occurrences (placeholder c) post.
Proof.
  induction r as [|a r IH]; [reflexivity|]. rewrite contains_cons.
  intros Hc. apply orb_false_iff in Hc as [Ha Hr].
  change (String a r +:+ post) with (String a (r +:+ post)).
  change (occurrences (placeholder c) (String a (r +:+ post)))
    with ((if startsWith (placeholder c) (String a (r +:+ post)) then 1 else 0)
          + occurrences (placeholder c) (r +:+ post))%nat.
  rewrite startsWith_placeholder_false, (IH Hr); [reflexivity|].
  intros rest [= -> _]. discriminate.
Qed.

(** Text of digits put in place of a placeholder joins no placeholder. *)
Lemma occurrences_number c pre r post :
  isEmpty r = false ->
  contains "{" r = false -> contains "}" r = false -> contains c r = false ->
  (occurrences (placeholder c) (pre +:+ r +:+ post)
   <= occurrences (placeholder c) pre + occurrences (placeholder c) post)%nat.
Proof.
  intros He Hopen Hclose Hc. induction pre as [|a pre IH].
  - change (EmptyString +:+ r +:+ post) with (r +:+ post).
    rewrite occurrences_skip by assumption. simpl. lia.
  - change (String a pre +:+ r +:+ post) with (String a (pre +:+ r +:+ post)).
    change (occurrences (placeholder c) (String a (pre +:+ r +:+ post)))
      with ((if startsWith (placeholder c) (String a (pre +:+ r +:+ post)) then 1 else 0)
            + occurrences (placeholder c) (pre +:+ r +:+ post))%nat.
    change (occurrences (placeholder c) (String a pre))
      with ((if startsWith (placeholder c) (String a pre) then 1 else 0)
            + occurrences (placeholder c) pre)%nat.
    destruct (startsWith (placeholder c) (String a (pre +:+ r +:+ post))) eqn:Hsw; [|lia].
    apply startsWith_placeholder in Hsw as [rest Hrest].
    assert (Hin : startsWith (placeholder c) (String a pre) = true).
    { destruct r as [|r0 r]; [discriminate|]. rewrite contains_cons in Hclose, Hc.
      apply orb_false_iff in Hclose as [Hclose _]. apply orb_false_iff in Hc as [Hc _].
      destruct pre as [|b [|b2 pre]].
      - change (String a (EmptyString +:+ String r0 r +:+ post))
          with (String a (String r0 (r +:+ post))) in Hrest.
        injection Hrest as _ Hb _. subst r0. rewrite Ascii.eqb_refl in Hc. discriminate.
      - change (String a (String b EmptyString +:+ String r0 r +:+ post))
          with (String a (String b (String r0 (r +:+ post)))) in Hrest.
        injection Hrest as _ _ Hb _. subst r0. discriminate.
      - change (String a (String b (String b2 pre) +:+ String r0 r +:+ post))
          with (String a (String b (String b2 (pre +:+ String r0 r +:+ post)))) in Hrest.
        injection Hrest as -> -> -> _. apply startsWith_placeholder. eexists. reflexivity. }
    rewrite Hin. lia.
Qed.

Lemma occurrences_self c d :
  d <> "{"%char ->
  occurrences (placeholder c) (placeholder d) = if Ascii.eqb c d then 1%nat else 0%nat.
Proof.
  intros Hd.
  change (occurrences (placeholder c) (placeholder d))
    with ((if startsWith (placeholder c) (String "{" (String d (String "}" EmptyString)))
           then 1 else 0)
          + ((if startsWith (placeholder c) (String d (String "}" EmptyString)) then 1 else 0)
             + ((if startsWith (placeholder c) (String "}" EmptyString) then 1 else 0)
                + 0)))%nat.
  destruct (startsWith (placeholder c) (String d (String "}" EmptyString))) eqn:H1.
  { apply startsWith_placeholder in H1 as [rest Hr]. congruence. }
  destruct (startsWith (placeholder c) (String "}" EmptyString)) eqn:H2.
  { apply startsWith_placeholder in H2 as [rest Hr]. congruence. }
  destruct (startsWith (placeholder c) (String "{" (String d (String "}" EmptyString))))
    eqn:H3.
  - apply startsWith_placeholder in H3 as [rest [= -> _]]. rewrite Ascii.eqb_refl. reflexivity.
  - destruct (Ascii.eqb_spec c d) as [->|Hne]; [|reflexivity].
    rewrite (proj2 (startsWith_placeholder d _)) in H3 by (eexists; reflexivity).
    discriminate.
Qed.

(** Substituting a number for a placeholder removes its first occurrence
    and changes nothing else, as far as placeholders go. *)
Lemma replace_number_occurrences c d s n :
  c <> "{"%char -> d <> "{"%char -> contains c "0123456789-{}" = false ->
  occurrences (placeholder c) (replace s (placeholder d) (toString n))
  = (occurrences (placeholder c) s - (if Ascii.eqb c d then 1 else 0))%nat.
Proof.
  intros Hc Hd Hletter. unfold replace.
  destruct (search (placeholder d) s) as [[pre post]|] eqn:Hsearch.
  - rewrite getSubstitution_plain by apply toString_plain.
    pose proof (search_spec _ _ _ _ Hsearch) as Hs.
    assert (Hr : forall ch, contains ch "0123456789-{}" = false ->
                   contains ch (toString n) = false).
    { intros ch Hch. destruct (contains ch (toString n)) eqn:Hcn; [|reflexivity].
      apply toString_chars in Hcn as [Hdig| ->]; [|discriminate].
      unfold isDigit in Hdig. simpl in Hch, Hdig.
      repeat (apply orb_false_iff in Hch as [? Hch]).
      repeat match goal with H : Ascii.eqb _ _ = false |- _ => rewrite H in Hdig end.
      discriminate. }
    assert (Hopen : contains "{" (toString n) = false).
    { destruct (contains "{" (toString n)) eqn:Hcn; [|reflexivity].
      apply toString_chars in Hcn as [Hcn|Hcn]; discriminate. }
    assert (Hclose : contains "}" (toString n) = false).
    { destruct (contains "}" (toString n)) eqn:Hcn; [|reflexivity].
      apply toString_chars in Hcn as [Hcn|Hcn]; discriminate. }
    pose proof (occurrences_number c pre (toString n) post (toString_nonempty n)
                  Hopen Hclose (Hr c Hletter)) as Hup.
    pose proof (occurrences_app (placeholder c) pre (toString n +:+ post)) as H1.
    pose proof (occurrences_app (placeholder c) (toString n) post) as H2.
    pose proof (occurrences_around c d pre post Hc Hd) as H3.
    pose proof (occurrences_app (placeholder c) pre (placeholder d +:+ post)) as H4.
    pose proof (occurrences_app (placeholder c) (placeholder d) post) as H5.
    rewrite (occurrences_self c d Hd) in H5. rewrite Hs.
    destruct (Ascii.eqb c d); lia.
  - destruct (Ascii.eqb_spec c d) as [->|_]; [|lia].
    rewrite (search_none _ _ Hsearch). reflexivity.
Qed.

End numbers.

(** X15.  For a tile map without subdomains (the key absent or empty),
    [generateTileUrl] takes out exactly the first occurrence of each of
    [{x}], [{y}] and [{z}], if there is one, and leaves every [{s}] of the
    template in the URL. *)
Theorem generateTileUrl_without_subdomains rnd tileMap x y z :
  truthy (Subdomains tileMap) = false ->
  Forall (fun p =>
            JsString.occurrences p (generateTileUrl rnd tileMap x y z)
            = (JsString.occurrences p (Url tileMap) - 1)%nat)
    [placeholder_x; placeholder_y; placeholder_z]
  /\ JsString.occurrences placeholder_s (generateTileUrl rnd tileMap x y z)
     = JsString.occurrences placeholder_s (Url tileMap).
Proof.
  intros Hsub. unfold generateTileUrl. rewrite Hsub. simpl andb. cbv iota.
  assert (Hstep : forall c s,
            c <> "{"%char -> JsString.contains c "0123456789-{}" = false ->
            JsString.occurrences (placeholder c)
              (JsString.replace
                 (JsString.replace
                    (JsString.replace s placeholder_x (JsString.toString x))
                    placeholder_y (JsString.toString y))
                 placeholder_z (JsString.toString z))
            = (JsString.occurrences (placeholder c) s
               - (if Ascii.eqb c "x" then 1 else 0) - (if Ascii.eqb c "y" then 1 else 0)
               - (if Ascii.eqb c "z" then 1 else 0))%nat).
  { intros c s Hc Hl.
    change placeholder_x with (placeholder "x"). change placeholder_y with (placeholder "y").
    change placeholder_z with (placeholder "z").
    rewrite !replace_number_occurrences by (assumption || discriminate). reflexivity. }
  split.
  - repeat constructor.
    + change placeholder_x with (placeholder "x").
      rewrite (Hstep "x"%char) by (discriminate || reflexivity).
      generalize (JsString.occurrences (placeholder "x") (Url tileMap)).
      intros k. simpl. lia.
    + change placeholder_y with (placeholder "y").
      rewrite (Hstep "y"%char) by (discriminate || reflexivity).
      generalize (JsString.occurrences (placeholder "y") (Url tileMap)).
      intros k. simpl. lia.
    + change placeholder_z with (placeholder "z").
      rewrite (Hstep "z"%char) by (discriminate || reflexivity).
      generalize (JsString.occurrences (placeholder "z") (Url tileMap)).
      intros k. simpl. lia.
  - change placeholder_s with (placeholder "s").
    rewrite (Hstep "s"%char) by (discriminate || reflexivity).
    generalize (JsString.occurrences (placeholder "s") (Url tileMap)).
    intros k. simpl. lia.
Qed.

Lemma generateTileUrl_without_subdomains_witness :
  let tileMap := mkTileMap "Plain" "https://{s}.host/{z}/{x}/{y}.png?x={x}" None "png" in
  truthy (Subdomains tileMap) = false
  /\ Forall (fun p =>
               JsString.occurrences p (generateTileUrl 0%nat tileMap 1 2 3)
               = (JsString.occurrences p (Url tileMap) - 1)%nat)
       [placeholder_x; placeholder_y; placeholder_z]
  /\ JsString.occurrences placeholder_s (generateTileUrl 0%nat tileMap 1 2 3)
     = JsString.occurrences placeholder_s (Url tileMap).
Proof.
  intros tileMap.
  assert (H : truthy (Subdomains tileMap) = false) by reflexivity.
  split; [exact H|]. exact (generateTileUrl_without_subdomains 0 tileMap 1 2 3 H).
Defined.

(** ** The fetch engine, continued *)

Ltac step_cases Hstep :=
  destruct Hstep as [rnd t rest e Hq Hrun | i j e Hi | outcome i j e Hi];
  [ unfold startTask, downloadTile_enter;
    destruct (getTileMapByName _ (tileMapName t)) as [err|tileMap] eqn:Hget
  | unfold afterCheck, tileSkipped, updateProgress;
    destruct (bool_decide (job_path j ∈ files e)) eqn:Hexists
  | unfold afterFetch, tileDownloaded, tileFailed, updateProgress;
    destruct outcome as [cause|] ].

Section accounting.

Context (su : Setup).


Lemma progressPercent_complete s :
  downloadedTiles s + failedTiles s + skippedTiles s = totalTiles s ->
  progressPercent s = if 0 <? totalTiles s then 100 else 0.
Proof.
  intros Hc. unfold progressPercent. cbv zeta. rewrite Hc.
  destruct (0 <? totalTiles s) eqn:Hpos; [|reflexivity].
  apply Z.ltb_lt in Hpos.
  symmetry. apply (Z.div_unique_pos _ _ 100 (totalTiles s)); lia.
Qed.







End accounting.





(** X18.  When the queue is drained after an operation whose tile map is
    configured, the final call of the progress sink reports the statistics
    returned and 100 percent, or 0 percent when the operation had no tile. *)
Theorem progress_complete `{Geodesy} su op e0 e1 e :
  idle e0 ->
  beginOperation su op e0 = Some e1 ->
  rtc (step su) e1 e ->
  idle e ->
  operationConfigured su op ->
  progressCallback su = true ->
  last (reported (snd (finishOperation su e)))
  = Some (fst (finishOperation su e), if 0 <? totalTiles (stats e) then 100 else 0).
Proof.
  intros Hidle Hbegin Hsteps (Hq & Hc & Hf) Hop Hsink.
  destruct (beginOperation_facts su op e0 e1 Hidle Hbegin) as (Hinv1 & Hrej1 & Hconf).
  pose proof (steps_inv su _ _ _ _ Hsteps Hinv1) as (Hb & Hp & _).
  destruct (steps_configured su _ _ Hsteps (Hconf Hop)) as (Hrej & _).
  unfold running in Hp. rewrite Hq, Hrej, Hrej1 in Hb. rewrite Hc, Hf in Hp.
  simpl in Hb, Hp. unfold accounted in Hb.
  unfold finishOperation, updateProgress, getStats. rewrite Hsink. simpl.
  rewrite last_snoc. rewrite progressPercent_complete by lia. reflexivity.
Qed.

Lemma progress_complete_witness :
  let e0 := newEngine ∅ in
  let op := @DownloadBoundingBox flatGeodesy "OSM_Map" (0, -1, 1, 0) 1 1 in
  let e1 := @downloadTilesForBoundingBox_begin flatGeodesy exampleSetup "OSM_Map"
              (0, -1, 1, 0) 1 1 e0 in
  let e := runQueue exampleSetup 0 failsAtOne e1 in
  (idle e0 /\ @beginOperation flatGeodesy exampleSetup op e0 = Some e1
   /\ rtc (step exampleSetup) e1 e /\ idle e
   /\ @operationConfigured flatGeodesy exampleSetup op
   /\ progressCallback exampleSetup = true)
  /\ last (reported (snd (finishOperation exampleSetup e)))
     = Some (fst (finishOperation exampleSetup e),
             if 0 <? totalTiles (stats e) then 100 else 0).
Proof.
  intros e0 op e1 e.
  assert (H0 : idle e0) by (repeat split; reflexivity).
  assert (H1 : @beginOperation flatGeodesy exampleSetup op e0 = Some e1) by reflexivity.
  assert (H2 : rtc (step exampleSetup) e1 e /\ idle e).
  { apply runQueue_steps; [reflexivity | reflexivity | simpl; lia]. }
  assert (H3 : @operationConfigured flatGeodesy exampleSetup op).
  { eexists. reflexivity. }
  assert (H4 : progressCallback exampleSetup = true) by reflexivity.
  split; [tauto|].
  exact (@progress_complete flatGeodesy exampleSetup op e0 e1 e H0 H1 (proj1 H2) (proj2 H2)
           H3 H4).
Defined.



(** ** The tasks of an operation *)

Section operation.

Context (su : Setup).

Lemma elem_of_delete_or {A} (l : list A) i x y :
  l !! i = Some y -> x ∈ l -> x = y \/ x ∈ delete i l.
Proof.
  intros Hi Hx. rewrite <- (take_drop_middle l i y Hi) in Hx.
  rewrite delete_take_drop.
  apply elem_of_app in Hx as [Hx|Hx]; [right; apply elem_of_app; auto|].
  apply elem_of_cons in Hx as [Hx|Hx]; [auto | right; apply elem_of_app; auto].
Qed.

Lemma cached_mono (f g : gset string) t : f ⊆ g -> cached su f t -> cached su g t.
Proof. intros Hsub (p & Hp & Hin). exists p. split; [assumption | set_solver]. Qed.

Lemma step_operation tasks cache e e' :
  step su e e' -> operation_inv su tasks cache e -> operation_inv su tasks cache e'.
Proof.
  intros Hstep (Hqu & Hch & Hfe & Hfd & Hlen & Hsub & Hnew & Hloc).
  unfold operation_inv.
  step_cases Hstep.
  - (* the task is rejected *)
    rewrite Hq in Hqu. inversion Hqu as [|? ? Ht Hrest]; subst. simpl.
    repeat split; try assumption.
    eapply Forall_impl; [exact Hloc|]. intros t' Ht'. unfold located in *. simpl.
    rewrite Hq in Ht'. destruct Ht' as [Hin|Hother]; [|tauto].
    apply elem_of_cons in Hin as [->|Hin]; [|auto].
    do 5 right. unfold tilePathOf. rewrite Hget. reflexivity.
  - (* the task starts *)
    rewrite Hq in Hqu. inversion Hqu as [|? ? Ht Hrest]; subst. simpl.
    assert (Hj : tracked su tasks
                   (mkJob t (generateTileUrl rnd tileMap (task_x t) (task_y t) (task_z t))
                      (generateTilePath (config su) (tileMapName t) (task_x t) (task_y t)
                         (task_z t) (Format tileMap)))).
    { split; [exact Ht|]. simpl. unfold tilePathOf. rewrite Hget. reflexivity. }
    repeat split; try assumption.
    + apply Forall_app. split; [assumption|]. constructor; [exact Hj | constructor].
    + eapply Forall_impl; [exact Hloc|]. intros t' Ht'. unfold located in *. simpl.
      rewrite Hq in Ht'. destruct Ht' as [Hin|[(j & Hin & Hj')|Hother]]; [| |tauto].
      * apply elem_of_cons in Hin as [->|Hin]; [|auto].
        right. left. eexists. split; [apply elem_of_app; right; apply list_elem_of_singleton;
                                      reflexivity | reflexivity].
      * right. left. exists j. split; [apply elem_of_app; auto | assumption].
  - (* the file exists *)
    apply bool_decide_eq_true in Hexists.
    assert (Hj : tracked su tasks j) by exact (Forall_lookup_1 _ _ _ _ Hch Hi).
    assert (Hgoal :
      Forall (fun t => t ∈ tasks) (queued e)
      /\ Forall (tracked su tasks) (delete i (checking e))
      /\ Forall (tracked su tasks) (fetching e)
      /\ Forall (fun t => t ∈ tasks) (failedDownloads e)
      /\ Z.of_nat (length (failedDownloads e)) = failedTiles (stats e)
      /\ cache ⊆ files e
      /\ (forall p, p ∈ files e ->
            p ∈ cache \/ exists t, t ∈ tasks /\ tilePathOf su t = Some p)
      /\ Forall (fun t =>
                   t ∈ queued e
                   \/ (exists j, j ∈ delete i (checking e) /\ job_task j = t)
                   \/ (exists j, j ∈ fetching e /\ job_task j = t)
                   \/ cached su (files e) t
                   \/ t ∈ failedDownloads e
                   \/ tilePathOf su t = None) tasks).
    { repeat split; try assumption.
      - apply Forall_delete. assumption.
      - eapply Forall_impl; [exact Hloc|]. intros t' Ht'. unfold located in Ht'.
        destruct Ht' as [Hin|[(j' & Hin & Hj')|Hother]]; [auto| |tauto].
        destruct (elem_of_delete_or _ _ _ _ Hi Hin) as [->|Hin'].
        + do 3 right. left. exists (job_path j). destruct Hj as [_ Hp].
          rewrite <- Hj'. auto.
        + right. left. eauto. }
    destruct (progressCallback su); simpl; exact Hgoal.
  - (* the file does not exist *)
    assert (Hj : tracked su tasks j) by exact (Forall_lookup_1 _ _ _ _ Hch Hi).
    simpl. repeat split; try assumption.
    + apply Forall_delete. assumption.
    + apply Forall_app. split; [assumption|]. constructor; [exact Hj | constructor].
    + eapply Forall_impl; [exact Hloc|]. intros t' Ht'. unfold located in *. simpl.
      destruct Ht' as [Hin|[(j' & Hin & Hj')|[(j' & Hin & Hj')|Hother]]]; [auto| | |tauto].
      * destruct (elem_of_delete_or _ _ _ _ Hi Hin) as [->|Hin'].
        -- right. right. left. exists j.
           split; [apply elem_of_app; right; apply list_elem_of_singleton; reflexivity
                  | assumption].
        -- right. left. eauto.
      * right. right. left. exists j'. split; [apply elem_of_app; auto | assumption].
  - (* the fetch fails *)
    assert (Hj : tracked su tasks j) by exact (Forall_lookup_1 _ _ _ _ Hfe Hi).
    assert (Hgoal :
      Forall (fun t => t ∈ tasks) (queued e)
      /\ Forall (tracked su tasks) (checking e)
      /\ Forall (tracked su tasks) (delete i (fetching e))
      /\ Forall (fun t => t ∈ tasks) (failedDownloads e ++ [job_task j])
      /\ Z.of_nat (length (failedDownloads e ++ [job_task j])) = failedTiles (stats e) + 1
      /\ cache ⊆ files e
      /\ (forall p, p ∈ files e ->
            p ∈ cache \/ exists t, t ∈ tasks /\ tilePathOf su t = Some p)
      /\ Forall (fun t =>
                   t ∈ queued e
                   \/ (exists j, j ∈ checking e /\ job_task j = t)
                   \/ (exists j, j ∈ delete i (fetching e) /\ job_task j = t)
                   \/ cached su (files e) t
                   \/ t ∈ failedDownloads e ++ [job_task j]
                   \/ tilePathOf su t = None) tasks).
    { repeat split; try assumption.
      - apply Forall_delete. assumption.
      - apply Forall_app. split; [assumption|]. constructor; [apply Hj | constructor].
      - rewrite length_app. simpl. lia.
      - eapply Forall_impl; [exact Hloc|]. intros t' Ht'. unfold located in Ht'.
        destruct Ht' as [Hin|[Hin|[(j' & Hin & Hj')|[Hin|[Hin|Hin]]]]];
          [auto | auto | | auto 10 | | auto 10].
        + destruct (elem_of_delete_or _ _ _ _ Hi Hin) as [->|Hin'].
          * do 4 right. left. apply elem_of_app. right.
            apply list_elem_of_singleton. symmetry. assumption.
          * right. right. left. eauto.
        + do 4 right. left. apply elem_of_app. auto. }
    destruct cause; destruct (progressCallback su); simpl; exact Hgoal.
  - (* the tile is written *)
    assert (Hj : tracked su tasks j) by exact (Forall_lookup_1 _ _ _ _ Hfe Hi).
    assert (Hgoal :
      Forall (fun t => t ∈ tasks) (queued e)
      /\ Forall (tracked su tasks) (checking e)
      /\ Forall (tracked su tasks) (delete i (fetching e))
      /\ Forall (fun t => t ∈ tasks) (failedDownloads e)
      /\ Z.of_nat (length (failedDownloads e)) = failedTiles (stats e)
      /\ cache ⊆ {[job_path j]} ∪ files e
      /\ (forall p, p ∈ {[job_path j]} ∪ files e ->
            p ∈ cache \/ exists t, t ∈ tasks /\ tilePathOf su t = Some p)
      /\ Forall (fun t =>
                   t ∈ queued e
                   \/ (exists j, j ∈ checking e /\ job_task j = t)
                   \/ (exists j, j ∈ delete i (fetching e) /\ job_task j = t)
                   \/ cached su ({[job_path j]} ∪ files e) t
                   \/ t ∈ failedDownloads e
                   \/ tilePathOf su t = None) tasks).
    { repeat split; try assumption.
      - apply Forall_delete. assumption.
      - set_solver.
      - intros p Hp. apply elem_of_union in Hp as [Hp|Hp]; [|auto].
        apply elem_of_singleton in Hp. subst p. right. exists (job_task j).
        destruct Hj. auto.
      - eapply Forall_impl; [exact Hloc|]. intros t' Ht'. unfold located in Ht'.
        destruct Ht' as [Hin|[Hin|[(j' & Hin & Hj')|[Hin|[Hin|Hin]]]]];
          [auto | auto | | | auto 10 | auto 10].
        + destruct (elem_of_delete_or _ _ _ _ Hi Hin) as [->|Hin'].
          * do 3 right. left. exists (job_path j). destruct Hj as [_ Hp].
            rewrite <- Hj'. split; [assumption | set_solver].
          * right. right. left. eauto.
        + do 3 right. left. eapply cached_mono; [|exact Hin]. set_solver. }
    destruct (progressCallback su); simpl; exact Hgoal.
Qed.

Lemma steps_operation tasks cache e e' :
  rtc (step su) e e' -> operation_inv su tasks cache e -> operation_inv su tasks cache e'.
Proof. induction 1; eauto using step_operation. Qed.

End operation.

Lemma beginOperation_operation `{Geodesy} su op e0 e1 :
  idle e0 ->
  beginOperation su op e0 = Some e1 ->
  operation_inv su (queued e1) (files e0) e1.
Proof.
  intros (Hq & Hc & Hf) Hbegin.
  assert (Hfields : checking e1 = [] /\ fetching e1 = [] /\ failedDownloads e1 = []
                    /\ failedTiles (stats e1) = 0 /\ files e1 = files e0).
  { assert (Hdl : forall name tiles,
              let e := beginDownload su name tiles e0 in
              checking e = [] /\ fetching e = [] /\ failedDownloads e = []
              /\ failedTiles (stats e) = 0 /\ files e = files e0).
    { intros name tiles. unfold beginDownload, enqueue, updateProgress, resetStats.
      destruct (progressCallback su); simpl; auto. }
    destruct op as [name bb a b | name g a b |]; simpl in Hbegin.
    - injection Hbegin as <-. apply Hdl.
    - injection Hbegin as <-. apply Hdl.
    - revert Hbegin. unfold retryFailedDownloads_begin.
      destruct (failedDownloads e0); [discriminate|]. intros [= <-].
      unfold enqueue, updateProgress, resetStats.
      destruct (progressCallback su); simpl; auto. }
  destruct Hfields as (Ec & Ef & Efd & Eft & Efi).
  unfold operation_inv. rewrite Ec, Ef, Efd, Eft, Efi.
  repeat split; try constructor; auto.
  - apply Forall_forall. auto.
  - apply Forall_forall. intros t Ht. left. exact Ht.
Qed.

(** X20.  During an operation started on an idle queue, the failure list
    has exactly [failedTiles] entries and each of them is a task the
    operation put in the queue. *)
Theorem failures_recorded `{Geodesy} su op e0 e1 e :
  idle e0 ->
  beginOperation su op e0 = Some e1 ->
  rtc (step su) e1 e ->
  Z.of_nat (length (failedDownloads e)) = failedTiles (stats e)
  /\ Forall (fun t => t ∈ queued e1) (failedDownloads e).
Proof.
  intros Hidle Hbegin Hsteps.
  pose proof (beginOperation_operation su op e0 e1 Hidle Hbegin) as Hinv1.
  destruct (steps_operation su _ _ _ _ Hsteps Hinv1) as (_ & _ & _ & Hfd & Hlen & _).
  auto.
Qed.

Lemma failures_recorded_witness :
  let e0 := newEngine ∅ in
  let op := @DownloadBoundingBox flatGeodesy "OSM_Map" (0, -1, 1, 0) 1 1 in
  let e1 := @downloadTilesForBoundingBox_begin flatGeodesy exampleSetup "OSM_Map"
              (0, -1, 1, 0) 1 1 e0 in
  let e := runQueue exampleSetup 0 failsAtOne e1 in
  (idle e0 /\ @beginOperation flatGeodesy exampleSetup op e0 = Some e1
   /\ rtc (step exampleSetup) e1 e)
  /\ Z.of_nat (length (failedDownloads e)) = failedTiles (stats e)
  /\ Forall (fun t => t ∈ queued e1) (failedDownloads e).
Proof.
  intros e0 op e1 e.
  assert (H0 : idle e0) by (repeat split; reflexivity).
  assert (H1 : @beginOperation flatGeodesy exampleSetup op e0 = Some e1) by reflexivity.
  assert (H2 : rtc (step exampleSetup) e1 e).
  { apply runQueue_steps; [reflexivity | reflexivity | simpl; lia]. }
  split; [auto|].
  exact (@failures_recorded flatGeodesy exampleSetup op e0 e1 e H0 H1 H2).
Defined.

(** X21.  When the queue is drained after an operation whose tile map is
    configured, every task the operation queued has its file in the cache
    or is in the failure list. *)
Theorem every_tile_settled `{Geodesy} su op e0 e1 e :
  idle e0 ->
  beginOperation su op e0 = Some e1 ->
  rtc (step su) e1 e ->
  idle e ->
  operationConfigured su op ->
  Forall (fun t => cached su (files e) t \/ t ∈ failedDownloads e) (queued e1).
Proof.
  intros Hidle Hbegin Hsteps (Hq & Hc & Hf) Hop.
  pose proof (beginOperation_operation su op e0 e1 Hidle Hbegin) as Hinv1.
  destruct (beginOperation_facts su op e0 e1 Hidle Hbegin) as (_ & _ & Hconf).
  specialize (Hconf Hop).
  destruct (steps_operation su _ _ _ _ Hsteps Hinv1) as (_ & _ & _ & _ & _ & _ & _ & Hloc).
  rewrite Forall_forall in *. intros t Ht.
  destruct (Hloc t Ht) as [Hin|[(j & Hin & _)|[(j & Hin & _)|[Hin|[Hin|Hin]]]]]; auto.
  - rewrite Hq in Hin. inversion Hin.
  - rewrite Hc in Hin. inversion Hin.
  - rewrite Hf in Hin. inversion Hin.
  - destruct (Hconf t Ht) as [tileMap Htm]. unfold tilePathOf in Hin.
    rewrite Htm in Hin. discriminate.
Qed.

Lemma every_tile_settled_witness :
  let e0 := newEngine ∅ in
  let op := @DownloadBoundingBox flatGeodesy "OSM_Map" (0, -1, 1, 0) 1 1 in
  let e1 := @downloadTilesForBoundingBox_begin flatGeodesy exampleSetup "OSM_Map"
              (0, -1, 1, 0) 1 1 e0 in
  let e := runQueue exampleSetup 0 failsAtOne e1 in
  (idle e0 /\ @beginOperation flatGeodesy exampleSetup op e0 = Some e1
   /\ rtc (step exampleSetup) e1 e /\ idle e
   /\ @operationConfigured flatGeodesy exampleSetup op)
  /\ Forall (fun t => cached exampleSetup (files e) t \/ t ∈ failedDownloads e) (queued e1).
Proof.
  intros e0 op e1 e.
  assert (H0 : idle e0) by (repeat split; reflexivity).
  assert (H1 : @beginOperation flatGeodesy exampleSetup op e0 = Some e1) by reflexivity.
  assert (H2 : rtc (step exampleSetup) e1 e /\ idle e).
  { apply runQueue_steps; [reflexivity | reflexivity | simpl; lia]. }
  assert (H3 : @operationConfigured flatGeodesy exampleSetup op).
  { eexists. reflexivity. }
  split; [tauto|].
  exact (@every_tile_settled flatGeodesy exampleSetup op e0 e1 e H0 H1 (proj1 H2) (proj2 H2) H3).
Defined.

(** X22.  An operation started on an idle queue never removes a file, and
    every file it adds is the cache path of a task it queued. *)
Theorem files_only_added `{Geodesy} su op e0 e1 e :
  idle e0 ->
  beginOperation su op e0 = Some e1 ->
  rtc (step su) e1 e ->
  files e0 ⊆ files e
  /\ forall p, p ∈ files e ->
       p ∈ files e0 \/ exists t, t ∈ queued e1 /\ tilePathOf su t = Some p.
Proof.
  intros Hidle Hbegin Hsteps.
  pose proof (beginOperation_operation su op e0 e1 Hidle Hbegin) as Hinv1.
  destruct (steps_operation su _ _ _ _ Hsteps Hinv1) as (_ & _ & _ & _ & _ & Hsub & Hnew & _).
  auto.
Qed.

Lemma files_only_added_witness :
  let e0 := newEngine ∅ in
  let op := @DownloadBoundingBox flatGeodesy "OSM_Map" (0, -1, 1, 0) 1 1 in
  let e1 := @downloadTilesForBoundingBox_begin flatGeodesy exampleSetup "OSM_Map"
              (0, -1, 1, 0) 1 1 e0 in
  let e := runQueue exampleSetup 0 failsAtOne e1 in
  (idle e0 /\ @beginOperation flatGeodesy exampleSetup op e0 = Some e1
   /\ rtc (step exampleSetup) e1 e)
  /\ files e0 ⊆ files e
  /\ forall p, p ∈ files e ->
       p ∈ files e0 \/ exists t, t ∈ queued e1 /\ tilePathOf exampleSetup t = Some p.
Proof.
  intros e0 op e1 e.
  assert (H0 : idle e0) by (repeat split; reflexivity).
  assert (H1 : @beginOperation flatGeodesy exampleSetup op e0 = Some e1) by reflexivity.
  assert (H2 : rtc (step exampleSetup) e1 e).
  { apply runQueue_steps; [reflexivity | reflexivity | simpl; lia]. }
  split; [auto|].
  exact (@files_only_added flatGeodesy exampleSetup op e0 e1 e H0 H1 H2).
Defined.

(** ** The configuration lookup *)

(** X16.  [getTileMapByName] returns the first tile map of the
    configuration that has the name, whatever follows it, and throws
    exactly when no tile map has the name. *)
Theorem getTileMapByName_first config name :
  (forall tileMap,
     getTileMapByName config name = inr tileMap <->
     exists before after,
       TileMaps config = before ++ tileMap :: after
       /\ Name tileMap = name
       /\ Forall (fun other => Name other <> name) before)
  /\ (getTileMapByName config name = inl (TileMapNotFound name) <->
      Forall (fun other => Name other <> name) (TileMaps config)).
Proof.
  unfold getTileMapByName. generalize (TileMaps config) as l. clear config.
  induction l as [|tm l [IHfound IHnone]]; simpl.
  - split.
    + intros tileMap. split; [discriminate|].
      intros (before & after & Heq & _). destruct before; discriminate.
    + split; [constructor | reflexivity].
  - destruct (String.eqb_spec (Name tm) name) as [Heq|Hne].
    + split.
      * intros tileMap. split.
        -- intros [= <-]. exists [], l. repeat split; [assumption | constructor].
        -- intros (before & after & Hl & Hn & Hall).
           destruct before as [|b before]; simpl in Hl.
           ++ injection Hl as -> _. reflexivity.
           ++ injection Hl as -> _. inversion Hall; subst. contradiction.
      * split; [discriminate|]. intros Hall. inversion Hall; subst. contradiction.
    + split.
      * intros tileMap. rewrite IHfound. split.
        -- intros (before & after & -> & Hn & Hall).
           exists (tm :: before), after. repeat split; [assumption | constructor; assumption].
        -- intros (before & after & Hl & Hn & Hall).
           destruct before as [|b before]; simpl in Hl.
           ++ injection Hl as -> _. contradiction.
           ++ injection Hl as -> ->. inversion Hall; subst. eauto.
      * rewrite IHnone. split.
        -- intros Hall. constructor; assumption.
        -- intros Hall. inversion Hall; assumption.
Qed.

(** ** One tile, twice *)

(** X23.  Once [downloadTile] has returned [true] for a task, a second call
    for the same task returns [true] as a skip, whatever the network would
    answer: it counts one more skipped tile and neither requests nor writes
    anything. *)
Theorem downloadTile_again su rnd rnd' oracle oracle' t e e1 :
  downloadTile su rnd oracle t e = (inr true, e1) ->
  exists e2,
    downloadTile su rnd' oracle' t e1 = (inr true, e2)
    /\ skippedTiles (stats e2) = skippedTiles (stats e1) + 1
    /\ downloadedTiles (stats e2) = downloadedTiles (stats e1)
    /\ failedTiles (stats e2) = failedTiles (stats e1)
    /\ failedDownloads e2 = failedDownloads e1
    /\ requests e2 = requests e1
    /\ files e2 = files e1.
Proof.
  unfold downloadTile, downloadTile_enter.
  destruct (getTileMapByName (config su) (tileMapName t)) as [err|tileMap]; [discriminate|].
  cbv zeta. simpl job_path.
  set (p := generateTilePath (config su) (tileMapName t) (task_x t) (task_y t) (task_z t)
              (Format tileMap)).
  assert (Hskip : forall e', p ∈ files e' ->
            exists e2,
              (if bool_decide (p ∈ files (set_stats (incr_inProgress (stats e')) e'))
               then (inr true, tileSkipped su (set_stats (incr_inProgress (stats e')) e'))
               else match oracle' (mkJob t (generateTileUrl rnd' tileMap (task_x t) (task_y t)
                                              (task_z t)) p) with
                    | None => (inr true,
                               tileDownloaded su
                                 (mkJob t (generateTileUrl rnd' tileMap (task_x t) (task_y t)
                                             (task_z t)) p)
                                 (set_stats (incr_inProgress (stats e')) e'))
                    | Some cause => (inr false,
                               tileFailed su cause
                                 (mkJob t (generateTileUrl rnd' tileMap (task_x t) (task_y t)
                                             (task_z t)) p)
                                 (set_stats (incr_inProgress (stats e')) e'))
                    end) = (@inr Thrown bool true, e2)
              /\ skippedTiles (stats e2) = skippedTiles (stats e') + 1
              /\ downloadedTiles (stats e2) = downloadedTiles (stats e')
              /\ failedTiles (stats e2) = failedTiles (stats e')
              /\ failedDownloads e2 = failedDownloads e'
              /\ requests e2 = requests e'
              /\ files e2 = files e').
  { intros e' Hin. simpl files. rewrite bool_decide_eq_true_2 by exact Hin.
    eexists. split; [reflexivity|].
    unfold tileSkipped, updateProgress. destruct (progressCallback su); simpl; auto 10. }
  simpl files.
  destruct (bool_decide (p ∈ files e)) eqn:Hexists.
  - apply bool_decide_eq_true in Hexists. intros [= <-]. apply Hskip.
    unfold tileSkipped, updateProgress. destruct (progressCallback su); simpl; exact Hexists.
  - destruct (oracle _) as [cause|]; [discriminate|]. intros [= <-]. apply Hskip.
    unfold tileDownloaded, updateProgress. destruct (progressCallback su); simpl; set_solver.
Qed.

Lemma downloadTile_again_witness :
  let t := mkTask "OSM_Map" 0 0 1 in
  let e := newEngine ∅ in
  let e1 := snd (downloadTile exampleSetup 0 alwaysOk t e) in
  downloadTile exampleSetup 0 alwaysOk t e = (inr true, e1)
  /\ exists e2,
       downloadTile exampleSetup 1 failsAtOne t e1 = (inr true, e2)
       /\ skippedTiles (stats e2) = skippedTiles (stats e1) + 1
       /\ downloadedTiles (stats e2) = downloadedTiles (stats e1)
       /\ failedTiles (stats e2) = failedTiles (stats e1)
       /\ failedDownloads e2 = failedDownloads e1
       /\ requests e2 = requests e1
       /\ files e2 = files e1.
Proof.
  intros t e e1.
  assert (H1 : downloadTile exampleSetup 0 alwaysOk t e = (inr true, e1)).
  { unfold e1. vm_compute. reflexivity. }
  split; [exact H1|].
  exact (downloadTile_again exampleSetup 0%nat 1%nat alwaysOk failsAtOne t e e1 H1).
Defined.

(** ** A run in which no fetch fails *)

Section success.

Context (su : Setup) (rnd : nat) (oracle : Job -> option Failure).
Hypothesis oracle_ok : forall j, oracle j = None.

Lemma runHead_success e :
  checking e = [] -> fetching e = [] ->
  failedTiles (stats (runHead su rnd oracle e)) = failedTiles (stats e)
  /\ failedDownloads (runHead su rnd oracle e) = failedDownloads e.
Proof.
  intros Hc Hf. unfold runHead.
  destruct (queued e) as [|t rest]; [auto|].
  unfold startTask, downloadTile_enter.
  destruct (getTileMapByName (config su) (tileMapName t)) as [err|tileMap]; simpl.
  { rewrite Hc. simpl. auto. }
  rewrite Hc. simpl.
  unfold afterCheck, tileSkipped, updateProgress. simpl.
  destruct (bool_decide _).
  - destruct (progressCallback su); simpl; rewrite Hf; simpl; auto.
  - simpl. rewrite Hf. simpl. rewrite oracle_ok.
    unfold afterFetch, tileDownloaded, updateProgress.
    destruct (progressCallback su); simpl; auto.
Qed.

Lemma drain_success fuel e :
  checking e = [] -> fetching e = [] -> (0 < concurrency su)%nat ->
  failedTiles (stats (drain su rnd oracle fuel e)) = failedTiles (stats e)
  /\ failedDownloads (drain su rnd oracle fuel e) = failedDownloads e.
Proof.
  revert e. induction fuel as [|fuel IH]; intros e Hc Hf Hpos; simpl; [auto|].
  destruct (runHead_steps su rnd oracle e Hc Hf Hpos) as (_ & Hc' & Hf' & _).
  destruct (runHead_success e Hc Hf) as [E1 E2].
  destruct (IH _ Hc' Hf' Hpos) as [E3 E4]. split; congruence.
Qed.

End success.

Lemma beginDownload_operation su name tiles e0 :
  idle e0 ->
  operation_inv su (List.map (taskOf name) tiles) (files e0) (beginDownload su name tiles e0).
Proof.
  intros Hidle. pose proof (beginDownload_queued su name tiles e0 Hidle) as Hqueued.
  destruct Hidle as (Hq & Hc & Hf).
  destruct (beginDownload_stats su name tiles e0) as (Hstats & Hfd & Hch & Hfe).
  destruct (beginDownload_facts su name tiles e0 (conj Hq (conj Hc Hf)))
    as (_ & _ & Hfiles & _).
  unfold operation_inv. rewrite Hqueued, Hstats, Hfd, Hch, Hfe, Hc, Hf, Hfiles. simpl.
  repeat split; try constructor; auto.
  - apply Forall_forall. auto.
  - apply Forall_forall. intros t Ht. left. rewrite Hqueued. exact Ht.
Qed.

(** X24.  A download run one task after the other on an idle queue, for a
    configured tile map and with no fetch failing, ends with no failure
    recorded, [downloadedTiles + skippedTiles] equal to the number of tiles,
    nothing in progress, and the file of every tile in the cache. *)
Theorem download_without_failures su rnd oracle name tiles e0 :
  idle e0 ->
  configured su name ->
  (0 < concurrency su)%nat ->
  (forall j, oracle j = None) ->
  let result := downloadTiles su rnd oracle name tiles e0 in
  failedTiles (fst result) = 0
  /\ failedDownloads (snd result) = []
  /\ downloadedTiles (fst result) + skippedTiles (fst result) = Z.of_nat (length tiles)
  /\ inProgress (fst result) = 0
  /\ totalTiles (fst result) = Z.of_nat (length tiles)
  /\ Forall (cached su (files (snd result))) (List.map (taskOf name) tiles).
Proof.
  intros Hidle Hconf Hpos Hok result.
  set (e1 := beginDownload su name tiles e0).
  set (e := runQueue su rnd oracle e1).
  destruct (beginDownload_stats su name tiles e0) as (Hstats & Hfd & Hch & Hfe).
  destruct (beginDownload_facts su name tiles e0 Hidle) as (Hinv1 & Hrej1 & _ & _ & Hall).
  pose proof (beginDownload_operation su name tiles e0 Hidle) as Hop1.
  destruct Hidle as (Hq0 & Hc0 & Hf0). rewrite Hc0 in Hch. rewrite Hf0 in Hfe.
  destruct (runQueue_steps su rnd oracle e1 Hch Hfe Hpos) as (Hsteps & Hq & Hc & Hf).
  destruct (drain_success su rnd oracle Hok (length (queued e1)) e1 Hch Hfe Hpos)
    as (Hft & Hfl).
  fold (runQueue su rnd oracle e1) in Hft, Hfl. fold e in Hft, Hfl, Hsteps, Hq, Hc, Hf.
  fold e1 in Hstats, Hfd, Hinv1, Hrej1, Hall, Hop1.
  rewrite Hstats in Hft. simpl in Hft. rewrite Hfd in Hfl.
  pose proof (steps_inv su _ _ _ _ Hsteps Hinv1) as (Hb & Hp & _).
  destruct (steps_configured su _ _ Hsteps (Hall Hconf)) as (Hrej & _).
  destruct (steps_totals su _ _ Hsteps) as (Htot & _).
  rewrite Hstats in Htot. simpl in Htot.
  destruct (steps_operation su _ _ _ _ Hsteps Hop1) as (_ & _ & _ & _ & _ & _ & _ & Hloc).
  unfold running in Hp. rewrite Hq, Hrej, Hrej1 in Hb. rewrite Hc, Hf in Hp.
  simpl in Hb, Hp. unfold accounted in Hb.
  assert (Hres : result = (stats (updateProgress su e), updateProgress su e)) by reflexivity.
  destruct (updateProgress_fields su e) as (Est & Efd & _ & _ & _ & _ & Efi & _).
  rewrite Hres. simpl fst. simpl snd. rewrite Est, Efd, Efi.
  repeat split; try assumption; try lia.
  rewrite Forall_forall in *. intros t Ht.
  destruct (Hloc t Ht) as [Hin|[(j & Hin & _)|[(j & Hin & _)|[Hin|[Hin|Hin]]]]].
  - rewrite Hq in Hin. inversion Hin.
  - rewrite Hc in Hin. inversion Hin.
  - rewrite Hf in Hin. inversion Hin.
  - exact Hin.
  - rewrite Hfl in Hin. inversion Hin.
  - apply list_elem_of_In, in_map_iff in Ht as (tile & <- & _).
    destruct Hconf as [tileMap Htm]. unfold tilePathOf in Hin. simpl in Hin.
    rewrite Htm in Hin. discriminate.
Qed.

Lemma download_without_failures_witness :
  let tiles := [mkTile 0 0 1; mkTile 1 0 1] in
  let result := downloadTiles exampleSetup 0 alwaysOk "OSM_Map" tiles (newEngine ∅) in
  (idle (newEngine ∅) /\ configured exampleSetup "OSM_Map"
   /\ (0 < concurrency exampleSetup)%nat /\ (forall j, alwaysOk j = None))
  /\ failedTiles (fst result) = 0
  /\ failedDownloads (snd result) = []
  /\ downloadedTiles (fst result) + skippedTiles (fst result) = Z.of_nat (length tiles)
  /\ inProgress (fst result) = 0
  /\ totalTiles (fst result) = Z.of_nat (length tiles)
  /\ Forall (cached exampleSetup (files (snd result))) (List.map (taskOf "OSM_Map") tiles).
Proof.
  intros tiles result.
  assert (H0 : idle (newEngine ∅)) by (repeat split; reflexivity).
  assert (H1 : configured exampleSetup "OSM_Map") by (eexists; reflexivity).
  assert (H2 : (0 < concurrency exampleSetup)%nat) by (simpl; lia).
  assert (H3 : forall j, alwaysOk j = None) by reflexivity.
  split; [auto|].
  exact (download_without_failures exampleSetup 0%nat alwaysOk "OSM_Map" tiles (newEngine ∅)
           H0 H1 H2 H3).
Defined.

(** ** The command line *)

Section command_line.

Import JsString.



Lemma parseOptions_pair k v rest opts :
  Cli.parseOptions (("--" +:+ k) :: v :: rest) opts
  = Cli.parseOptions rest (Cli.setOption k (Some v) opts).
Proof. reflexivity. Qed.

End command_line.





(** X27.  For a command line of the form
    [node script command --k1 v1 --k2 v2 ...], [parseArgs] returns the
    command and an option for every key, the last value given for a key
    winning; the key [__proto__] apart, which sets nothing. *)
Theorem parseArgs_pairs node script cmd (pairs : list (string * string)) :
  Forall (fun kv => fst kv <> "__proto__"%string) pairs ->
  Cli.parseArgs
    (node :: script :: cmd :: flat_map (fun kv => ["--" +:+ fst kv; snd kv]) pairs)
  = Cli.mkParsedArgs (Some cmd)
      (list_to_map (reverse (List.map (fun kv => (fst kv, Some (snd kv))) pairs))).
Proof.
  intros Hkeys. unfold Cli.parseArgs. simpl. f_equal.
  assert (Hgen : forall done : list (string * string),
            Cli.parseOptions (flat_map (fun kv => ["--" +:+ fst kv; snd kv]) pairs)
              (list_to_map (reverse (List.map (fun kv => (fst kv, Some (snd kv))) done)))
            = list_to_map
                (reverse (List.map (fun kv => (fst kv, Some (snd kv))) (done ++ pairs)))).
  { induction pairs as [|[k v] pairs IH]; intros done.
    - rewrite app_nil_r. reflexivity.
    - inversion Hkeys as [|? ? Hk Hrest]; subst. simpl in Hk.
      change (flat_map (fun kv => ["--" +:+ fst kv; snd kv]) ((k, v) :: pairs))
        with (("--" +:+ k) :: v :: flat_map (fun kv => ["--" +:+ fst kv; snd kv]) pairs).
      rewrite parseOptions_pair. unfold Cli.setOption.
      destruct (String.eqb_spec k "__proto__") as [->|_]; [contradiction|].
      replace (done ++ (k, v) :: pairs) with ((done ++ [(k, v)]) ++ pairs)
        by (rewrite <- app_assoc; reflexivity).
      rewrite <- (IH Hrest (done ++ [(k, v)])).
      rewrite map_app, reverse_app. reflexivity. }
  exact (Hgen []).
Qed.

Lemma parseArgs_pairs_witness :
  let pairs := [("tilemap", "OSM_Map"); ("min-zoom", "3"); ("tilemap", "Other")]%string in
  Forall (fun kv => fst kv <> "__proto__"%string) pairs
  /\ Cli.parseArgs
       ("node" :: "cli.js" :: "download-bbox"
        :: flat_map (fun kv => ["--" +:+ fst kv; snd kv]) pairs)%string
     = Cli.mkParsedArgs (Some "download-bbox"%string)
         (list_to_map (reverse (List.map (fun kv => (fst kv, Some (snd kv))) pairs))).
Proof.
  intros pairs.
  assert (H : Forall (fun kv => fst kv <> "__proto__"%string) pairs).
  { repeat constructor; discriminate. }
  split; [exact H|].
  exact (parseArgs_pairs "node" "cli.js" "download-bbox" pairs H).
Defined.

(** ** A retry pass, and feature collections *)



(** X29.  The tiles of a feature collection are those of its features taken
    one by one: a tile is returned for the collection exactly when it is
    returned for one of the features. *)
Theorem collection_tiles_union `{Geodesy} (features : list feature) (minZoom maxZoom : Z)
    (t : Tile) :
  t ∈ calculateTilesForGeoJSON (FeatureCollection features) minZoom maxZoom
  <-> exists f, f ∈ features /\ t ∈ calculateTilesForGeoJSON (Feature f) minZoom maxZoom.
Proof.
  split.
  - intros Hin. apply calculateTilesForGeoJSON_sound in Hin.
    destruct Hin as (Hz & i & f & Hi & Hrect & Hhit).
    exists f. split; [eapply list_elem_of_lookup_2; exact Hi|].
    apply calculateTilesForGeoJSON_complete. split; [exact Hz|].
    exists 0%nat, f. simpl. auto.
  - intros (f & Hf & Hin). apply calculateTilesForGeoJSON_sound in Hin.
    destruct Hin as (Hz & i & f' & Hi & Hrect & Hhit).
    simpl in Hi. destruct i; [|discriminate]. injection Hi as <-.
    apply calculateTilesForGeoJSON_complete. split; [exact Hz|].
    apply list_elem_of_lookup_1 in Hf as [k Hk]. exists k, f. simpl. auto.
Qed.
